(** * ALCoreferenceResolver.forward: a shallow embedding

    Source: discrete_al_coref_module/models/coref.py (class
    [ALCoreferenceResolver], method [forward]).

    Conventions of the embedding.
    - A tensor is a nested list, one level per dimension.  A dimension that
      the source fixes at size one ([unsqueeze(-1)], [keepdim], the leading
      dimension of the antecedent log-mask) is not represented, so that
      broadcasting along it is a [map].
    - Tensor entries of floating type range over a carrier [F] with the
      operations of the class [Scalar]; the development is generic in it.
      The intended reading is the reals extended with minus infinity
      ([flog fzero]), which is what the float operations compute on inputs
      without NaN and without overflow.
    - Python exceptions are values of [exn]; a computation that may raise
      lives in the monad [res].  A shape mismatch that makes torch raise is
      [RuntimeError].
    - A Python [float] is an IEEE 754 binary64 number, with the operations
      of the Standard Library's [SpecFloat].
    - Learned networks, the span extractors, the pruner and the metrics are
      collaborators held by the model object, as in the source. *)

From stdpp Require Import gmap strings list fin_maps.
From Stdlib Require Import ZArith Lia Reals Lra.
From Stdlib Require SpecFloat.

#[local] Set Warnings "-register-all".
#[local] Open Scope Z_scope.

(** ** Exceptions and the result monad *)

Inductive exn :=
  | KeyError (k : string)
  | IndexError
  | TypeError
  | RuntimeError
  | OverflowError
  | ValueError.

Inductive res (A : Type) : Type :=
  | Ok (a : A)
  | Raise (e : exn).
Arguments Ok {A} a.
Arguments Raise {A} e.

#[global] Instance res_ret : MRet res := λ A a, Ok a.
#[global] Instance res_bind : MBind res :=
  λ A B f m, match m with Ok a => f a | Raise e => Raise e end.
#[global] Instance res_fmap : FMap res :=
  λ A B f m, match m with Ok a => Ok (f a) | Raise e => Raise e end.

(** [mapR f l] runs [f] on every element, left to right, and stops at the
    first exception. *)
Fixpoint mapR {A B} (f : A → res B) (l : list A) : res (list B) :=
  match l with
  | [] => Ok []
  | x :: l' => y ← f x; ys ← mapR f l'; Ok (y :: ys)
  end.

(** Elementwise combination of two dimensions of equal size; torch raises
    when the sizes differ. *)
Fixpoint zipR {A B C} (f : A → B → res C) (xs : list A) (ys : list B)
  : res (list C) :=
  match xs, ys with
  | [], [] => Ok []
  | x :: xs', y :: ys' => z ← f x y; zs ← zipR f xs' ys'; Ok (z :: zs)
  | _, _ => Raise RuntimeError
  end.

(** ** Scalars of float tensors *)

Class Scalar (F : Type) := {
  fzero : F;
  fone : F;
  ftiny : F;                 (* the constant 1e-45 of masked_log_softmax *)
  fadd : F → F → F;
  fsub : F → F → F;
  fmul : F → F → F;
  fneg : F → F;
  fexp : F → F;
  flog : F → F;
  fltb : F → F → bool;       (* strict comparison, used by max *)
  to_long : F → Z;           (* .long() *)
}.

(** The laws of the order that the decoding arguments use: a strict weak
    order in which nothing lies below minus infinity.  They hold of the
    extended reals. *)
Class ScalarOrder (F : Type) `{Scalar F} : Prop := {
  fltb_irrefl : ∀ x : F, fltb x x = false;
  fltb_trans : ∀ x y z : F, fltb x y = true → fltb y z = true → fltb x z = true;
  fltb_cotrans : ∀ x y z : F, fltb x z = true → fltb x y = true ∨ fltb y z = true;
  fltb_neg_inf : ∀ x : F, fltb x (flog fzero) = false;
}.

Section Numeric.
Context {F : Type} `{Scalar F}.

(** [mask.float()] of a boolean tensor entry. *)
Definition of_bool (b : bool) : F := if b then fone else fzero.

(** [tensor.sum()] and [tensor.prod(-1)]. *)
Definition fsum (l : list F) : F := foldr fadd fzero l.
Definition fprod (l : list F) : F := foldr fmul fone l.

(** [tensor.max(dim)]: the running maximum and the position where it was
    first reached. *)
Fixpoint max_from (best : F) (bi i : Z) (xs : list F) : F * Z :=
  match xs with
  | [] => (best, bi)
  | x :: xs' =>
      if fltb best x then max_from x i (i + 1) xs'
      else max_from best bi (i + 1) xs'
  end.

Definition tensor_max (row : list F) : res (F * Z) :=
  match row with
  | [] => Raise RuntimeError
  | x :: xs => Ok (max_from x 0 1 xs)
  end.

(** [torch.nn.functional.log_softmax(vector, dim=-1)] on one row. *)
Definition log_softmax (v : list F) : list F :=
  let s := flog (fsum (map fexp v)) in map (λ x, fsub x s) v.

(** [util.masked_log_softmax(vector, mask)] on one row, for a mask whose
    last dimension has size one: [vector + (mask + 1e-45).log()] followed
    by [log_softmax]. *)
Definition masked_log_softmax (v : list F) (m : F) : list F :=
  log_softmax (map (λ x, fadd x (flog (fadd m ftiny))) v).

(** [util.logsumexp(tensor)] on one row:
    [max_score + (tensor - max_score).exp().sum(-1).log()]. *)
Definition logsumexp (v : list F) : res F :=
  '(mx, _) ← tensor_max v;
  Ok (fadd mx (flog (fsum (map (λ x, fexp (fsub x mx)) v)))).
End Numeric.

(** Adding the logarithm of the shifted mask, a finite constant, to every
    entry of a row does not change its log-softmax: the normaliser absorbs
    it.  This holds of the extended reals. *)
Class ScalarSoftmax (F : Type) `{Scalar F} : Prop := {
  log_softmax_mask_shift : ∀ (m : F) (v : list F),
    m = fzero ∨ m = fone →
    log_softmax (map (λ x, fadd x (flog (fadd m ftiny))) v) = log_softmax v;
}.

(** ** Python floats *)

(** A Python [float]: an IEEE 754 binary64 number. *)
Definition double : Type := SpecFloat.spec_float.

(** [float(n)] of a Python [int], as the arithmetic does it for a mixed
    operation: the nearest double, ties to even; [OverflowError] when the
    integer is too large for a double. *)
Definition double_of_int (n : Z) : res double :=
  match SpecFloat.binary_normalize 53 1024 n 0 false with
  | SpecFloat.S754_infinity _ => Raise OverflowError
  | x => Ok x
  end.

(** [x * y] on floats: the product rounded to the nearest double. *)
Definition double_mul (x y : double) : double := SpecFloat.SFmul 53 1024 x y.

(** [p / q] on two integers that are doubles: the quotient rounded to the
    nearest double, which is the value of the decimal literal of [p / q];
    [double_ratio 3 5] is the float [0.6]. *)
Definition double_ratio (p q : Z) : double :=
  SpecFloat.SFdiv 53 1024 (SpecFloat.binary_normalize 53 1024 p 0 false)
                          (SpecFloat.binary_normalize 53 1024 q 0 false).

(** [int(math.floor(x))]: the largest integer not above [x]; an infinity
    raises [OverflowError] and NaN raises [ValueError].  A finite double is
    [m * 2 ^ e] with its sign, and [Z.shiftl] by a negative amount divides
    rounding down. *)
Definition math_floor (x : double) : res Z :=
  match x with
  | SpecFloat.S754_zero _ => Ok 0
  | SpecFloat.S754_finite s m e =>
      Ok (Z.shiftl (if s then Z.neg m else Z.pos m) e)
  | SpecFloat.S754_infinity _ => Raise OverflowError
  | SpecFloat.S754_nan => Raise ValueError
  end.

(** ** Index arithmetic of allennlp.nn.util *)

(** Two's-complement wrap-around of a 64-bit [LongTensor] entry. *)
Definition wrap64 (z : Z) : Z := (z + 2 ^ 63) `mod` 2 ^ 64 - 2 ^ 63.

(** [F.relu(t.float()).long()] on an integer entry.  The detour through
    float is exact for the token and span positions it is applied to. *)
Definition relu_long (x : Z) : Z := Z.max 0 x.

(** [util.get_range_vector(size)]. *)
Definition get_range_vector (size : Z) : list Z := seqZ 0 size.

(** [t.size(1)] of a tensor with at least two dimensions. *)
Definition size1 {A} (t : list (list A)) : Z :=
  match t with
  | [] => 0
  | row :: _ => Z.of_nat (length row)
  end.

(** One index of [index_select]: out of range raises. *)
Definition index_select {A} (l : list A) (k : Z) : res A :=
  if k <? 0 then Raise IndexError
  else match l !! Z.to_nat k with
       | Some x => Ok x
       | None => Raise IndexError
       end.

(** [util.flatten_and_batch_shift_indices(indices, sequence_length)]:
    entry [k] of batch element [b] becomes [k + b * sequence_length]. *)
Definition flatten_and_batch_shift_indices
    (indices : list (list Z)) (sequence_length : Z) : list Z :=
  concat (imap (λ b row, map (λ k, k + Z.of_nat b * sequence_length) row)
               indices).

(** [flat.view(shape of indices)]: cut a flat list into rows as long as the
    rows of [shape]; raises when the number of elements differs. *)
Fixpoint view_as {A B} (shape : list (list B)) (flat : list A)
  : res (list (list A)) :=
  match shape with
  | [] => match flat with [] => Ok [] | _ => Raise RuntimeError end
  | row :: shape' =>
      if decide (length row ≤ length flat)%nat then
        rest ← view_as shape' (drop (length row) flat);
        Ok (take (length row) flat :: rest)
      else Raise RuntimeError
  end.

(** [util.batched_index_select(target, indices, flattened_indices)]: the
    values are read through [flattened_indices] from the flattened target;
    [indices] only gives the shape of the result. *)
Definition batched_index_select {A}
    (target : list (list A)) (indices : list (list Z))
    (flattened_indices : list Z) : res (list (list A)) :=
  let flattened_target := concat target in
  flattened_selected ← mapR (index_select flattened_target) flattened_indices;
  view_as indices flattened_selected.

(** [util.flattened_index_select(target, indices)]: for every batch element
    and every row of [indices], the entries of [target] at those
    positions. *)
Definition flattened_index_select {A}
    (target : list (list A)) (indices : list (list Z))
  : res (list (list (list A))) :=
  mapR (λ t, mapR (λ row, mapR (index_select t) row) indices) target.

(** ** Values held by the dictionaries that forward reads and returns *)

Inductive meta_value :=
  | MText (tokens : list string)
  | MClusters (clusters : list (list (Z * Z))).

Section Values.
Context {F : Type}.

Inductive value :=
  | VInt (n : Z)
  | VScalar (x : F)
  | VF2 (t : list (list F))
  | VF3 (t : list (list (list F)))
  | VL1 (t : list Z)
  | VL2 (t : list (list Z))
  | VSpans (t : list (list (Z * Z)))
  | VDoc (l : list meta_value)
  | VList (l : list value)
  | VDict (d : gmap string value).

(** [d[k]]: a missing key raises [KeyError]. *)
Definition getitem (d : gmap string value) (k : string) : res value :=
  match d !! k with
  | Some v => Ok v
  | None => Raise (KeyError k)
  end.

Definition as_F2 (v : value) : res (list (list F)) :=
  match v with VF2 t => Ok t | _ => Raise TypeError end.
Definition as_F3 (v : value) : res (list (list (list F))) :=
  match v with VF3 t => Ok t | _ => Raise TypeError end.
Definition as_L1 (v : value) : res (list Z) :=
  match v with VL1 t => Ok t | _ => Raise TypeError end.
Definition as_L2 (v : value) : res (list (list Z)) :=
  match v with VL2 t => Ok t | _ => Raise TypeError end.
Definition as_Spans (v : value) : res (list (list (Z * Z))) :=
  match v with VSpans t => Ok t | _ => Raise TypeError end.
Definition as_Dict (v : value) : res (gmap string value) :=
  match v with VDict d => Ok d | _ => Raise TypeError end.

(** [v[i]] on a Python list. *)
Definition list_item (v : value) (i : nat) : res value :=
  match v with
  | VList l => match l !! i with Some x => Ok x | None => Raise IndexError end
  | _ => Raise TypeError
  end.

(** Truth value of an optional dictionary argument: [None] and the empty
    dictionary are false. *)
Definition truthy (d : option (gmap string value)) : bool :=
  match d with
  | None => false
  | Some m => negb (Nat.eqb (size m) 0)
  end.
End Values.
Arguments value F : clear implicits.

(** ** The model object and the arguments of forward *)

Section Forward.
Context {F : Type} `{Scalar F}.

Abbreviation dict := (gmap string (value F)).
Abbreviation Text := (gmap string (list (list Z))).
Abbreviation Meta := (gmap string meta_value).

(** The tuple returned by the pruner when it selects:
    [(top_embeddings, top_mask, top_indices, top_scores)]. *)
Record pruner_output := PrunerOutput {
  po_embeddings : list (list (list F));
  po_mask : list (list F);
  po_indices : list (list Z);
  po_scores : list (list F);
}.

(** The attributes of [self] that forward uses.  The pruner
    ([discrete_al_coref_module.models.pruner.Pruner]) is called in its two
    modes: with [return_scores_only = True] it returns the mention scores,
    otherwise the selection.  [_distance_feature] stands for
    [self._distance_embedding(util.bucket_values(offsets, ...))]. *)
Record ALCoreferenceResolver := {
  _text_field_embedder : Text → list (list (list F));
  _lexical_dropout : list (list (list F)) → list (list (list F));
  get_text_field_mask : Text → list (list F);
  _context_layer :
    list (list (list F)) → list (list F) → list (list (list F));
  _endpoint_span_extractor :
    list (list (list F)) → list (list (Z * Z)) → list (list (list F));
  _attentive_span_extractor :
    list (list (list F)) → list (list (Z * Z)) → list (list (list F));
  _mention_pruner_scores :
    list (list (list F)) → list (list F) → Z → res (list (list F));
  _mention_pruner :
    list (list (list F)) → list (list F) → Z → list (list F) →
    res pruner_output;
  _distance_feature : Z → list F;
  _antecedent_feedforward : list F → list F;
  _antecedent_scorer : list F → F;
  _mention_recall :
    list (list (Z * Z)) → option (list Meta) → res unit;
  _conll_coref_scores :
    list (list (Z * Z)) → list (list Z) → list (list Z) →
    option (list Meta) → res unit;
  _spans_per_word : double;
  _max_antecedents : Z;
}.

Record Args := {
  text : Text;
  spans : list (list (Z * Z));
  span_labels : option (list (list Z));
  metadata : option (list Meta);
  get_scores : bool;
  top_spans_info : option dict;
  coref_scores_info : option dict;
  return_mention_scores : bool;
  return_coref_scores : bool;
}.

(** Which [return] statement of forward produced the dictionary. *)
Inductive outcome :=
  | MentionScores (d : dict)     (* line 190 *)
  | CorefScores (d : dict)       (* line 285 *)
  | Output (d : dict).           (* line 341 *)

Definition returned (o : outcome) : dict :=
  match o with MentionScores d | CorefScores d | Output d => d end.

(** ** Methods inherited from CoreferenceResolver *)

Definition _generate_valid_antecedents (num_spans_to_keep max_antecedents : Z)
  : list (list Z) * list Z * list (list F) :=
  let target_indices := get_range_vector num_spans_to_keep in
  let valid_antecedent_offsets :=
    map (λ j, j + 1) (get_range_vector max_antecedents) in
  let raw_antecedent_indices :=
    map (λ i, map (λ o, i - o) valid_antecedent_offsets) target_indices in
  let valid_antecedent_log_mask :=
    map (map (λ r, flog (of_bool (0 <=? r)))) raw_antecedent_indices in
  let valid_antecedent_indices :=
    map (map relu_long) raw_antecedent_indices in
  (valid_antecedent_indices, valid_antecedent_offsets,
   valid_antecedent_log_mask).

Definition _compute_span_pair_embeddings (self : ALCoreferenceResolver)
    (top_span_embeddings : list (list (list F)))
    (antecedent_embeddings : list (list (list (list F))))
    (antecedent_offsets : list Z) : res (list (list (list (list F)))) :=
  let antecedent_distance_embeddings :=
    map (_distance_feature self) antecedent_offsets in
  zipR (zipR (λ target_embedding antecedents,
          zipR (λ antecedent distance,
                  product ← zipR (λ x y, Ok (fmul x y)) antecedent
                                 target_embedding;
                  Ok (target_embedding ++ antecedent ++ product ++ distance))
               antecedents antecedent_distance_embeddings))
       top_span_embeddings antecedent_embeddings.

Definition _compute_coreference_scores (self : ALCoreferenceResolver)
    (pairwise_embeddings : list (list (list (list F))))
    (top_span_mention_scores : list (list F))
    (antecedent_mention_scores : list (list (list F)))
    (antecedent_log_mask : list (list F)) : res (list (list (list F))) :=
  let antecedent_scores :=
    map (map (map (λ e, _antecedent_scorer self
                          (_antecedent_feedforward self e))))
        pairwise_embeddings in
  mention_scores ←
    zipR (zipR (λ t row, Ok (map (fadd t) row)))
         top_span_mention_scores antecedent_mention_scores;
  antecedent_scores ←
    zipR (zipR (zipR (λ a s, Ok (fadd a s)))) antecedent_scores mention_scores;
  antecedent_scores ←
    mapR (λ scores, zipR (zipR (λ a m, Ok (fadd a m)))
                         scores antecedent_log_mask)
         antecedent_scores;
  Ok (map (map (cons fzero)) antecedent_scores).

Definition _compute_antecedent_gold_labels
    (top_span_labels : list (list Z))
    (antecedent_labels : list (list (list Z))) : res (list (list (list F))) :=
  zipR (zipR (λ target_label labels,
          let pairwise_labels :=
            map (λ l, fmul (of_bool (target_label =? l))
                           (of_bool (0 <=? target_label))) labels in
          let dummy_label :=
            fprod (map (λ p, fsub fone p) pairwise_labels) in
          Ok (dummy_label :: pairwise_labels)))
       top_span_labels antecedent_labels.

(** ** forward, lines 147-217: the pruning stage *)

(** Line 159: [(spans[:, :, 0] >= 0).squeeze(-1).float()]; the [squeeze]
    leaves the entries as they are. *)
Definition span_mask_of (spans : list (list (Z * Z))) : list (list F) :=
  map (map (λ s : Z * Z, of_bool (0 <=? s.1))) spans.

(** Line 168: [F.relu(spans.float()).long()], a new tensor. *)
Definition clamp_spans (spans : list (list (Z * Z))) : list (list (Z * Z)) :=
  map (map (λ s : Z * Z, (relu_long s.1, relu_long s.2))) spans.

(** [torch.cat([x, y], -1)] on tensors of three dimensions. *)
Definition cat_last (x y : list (list (list F))) : res (list (list (list F))) :=
  zipR (zipR (λ u v, Ok (u ++ v))) x y.

(** Line 181: [int(math.floor(self._spans_per_word * document_length))].
    The integer [document_length] is converted to a float, and the product
    is a double-precision product: it is rounded before the floor is
    taken. *)
Definition num_spans_to_keep_of (self : ALCoreferenceResolver)
    (document_length : Z) : res Z :=
  n ← double_of_int document_length;
  math_floor (double_mul (_spans_per_word self) n).

(** The variables that both branches of [if not top_spans_info] define. *)
Record pruning := Pruning {
  p_spans : list (list (Z * Z));
  p_span_mention_scores : list (list F);
  p_top_span_mention_scores : list (list F);
  p_num_spans_to_keep : Z;
  p_top_span_indices : list (list Z);
  p_flat_top_span_indices : list Z;
  p_top_span_mask : list (list F);
  p_span_embeddings : list (list (list F));
  p_top_span_embeddings : list (list (list F));
  p_text_mask : list (list F);
}.

(** Lines 149-206.  [inl] is the early return of line 190. *)
Definition prune_fresh (self : ALCoreferenceResolver) (a : Args)
  : res (dict + pruning) :=
  let text_embeddings :=
    _lexical_dropout self (_text_field_embedder self (text a)) in
  let document_length := size1 text_embeddings in
  let num_spans := size1 (spans a) in
  let text_mask := get_text_field_mask self (text a) in
  let span_mask := span_mask_of (spans a) in
  let spans := clamp_spans (spans a) in
  let contextualized_embeddings :=
    _context_layer self text_embeddings text_mask in
  let endpoint_span_embeddings :=
    _endpoint_span_extractor self contextualized_embeddings spans in
  let attended_span_embeddings :=
    _attentive_span_extractor self text_embeddings spans in
  span_embeddings ← cat_last endpoint_span_embeddings attended_span_embeddings;
  num_spans_to_keep ← num_spans_to_keep_of self document_length;
  span_mention_scores ←
    _mention_pruner_scores self span_embeddings span_mask (size1 spans);
  if return_mention_scores a then
    Ok (inl (<["num_spans_to_keep" := VInt num_spans_to_keep]>
            (<["mention_scores" := VF2 span_mention_scores]>
            (<["mask" := VF2 span_mask]>
            (<["embeds" := VF3 span_embeddings]>
            (<["text_mask" := VF2 text_mask]> ∅))))))
  else
    po ← _mention_pruner self span_embeddings span_mask num_spans_to_keep
                         span_mention_scores;
    let top_span_mask := po_mask po in
    let flat_top_span_indices :=
      flatten_and_batch_shift_indices (po_indices po) num_spans in
    Ok (inr (Pruning spans span_mention_scores (po_scores po)
                     num_spans_to_keep (po_indices po) flat_top_span_indices
                     top_span_mask span_embeddings (po_embeddings po)
                     text_mask)).

(** Lines 208-217.  The name [spans] keeps the caller's tensor here. *)
Definition prune_given (a : Args) (top_spans_info : dict) : res pruning :=
  span_mention_scores ← getitem top_spans_info "mention_scores" ≫= as_F2;
  top_span_mention_scores ← getitem top_spans_info "top_scores" ≫= as_F2;
  let num_spans_to_keep := size1 top_span_mention_scores in
  top_span_indices ← getitem top_spans_info "span_indices" ≫= as_L2;
  flat_top_span_indices ← getitem top_spans_info "flat_top_indices" ≫= as_L1;
  top_span_mask ← getitem top_spans_info "top_mask" ≫= as_F2;
  span_embeddings ← getitem top_spans_info "span_embeddings" ≫= as_F3;
  top_span_embeddings ←
    batched_index_select span_embeddings top_span_indices flat_top_span_indices;
  text_mask ← getitem top_spans_info "text_mask" ≫= as_F2;
  Ok (Pruning (spans a) span_mention_scores top_span_mention_scores
              num_spans_to_keep top_span_indices flat_top_span_indices
              top_span_mask span_embeddings top_span_embeddings text_mask).

(** ** forward, lines 219-301: scoring and decoding *)

(** Lines 271-275 and 299-300: [coreference_scores.max(2)] and the
    in-place [predicted_antecedents -= 1]. *)
Definition decode (coreference_scores : list (list (list F)))
  : res (list (list Z)) :=
  mapR (mapR (λ row, '(_, slot) ← tensor_max row; Ok (slot - 1)))
       coreference_scores.

(** The variables that both branches of [if not coref_scores_info] define
    and the rest of forward reads. *)
Record scored := Scored {
  s_output_dict : dict;
  s_top_span_indices : list (list Z);
  s_flat_top_span_indices : list Z;
  s_top_span_mask : list (list F);
  s_valid_antecedent_log_mask : list (list F);
  s_top_spans : list (list (Z * Z));
  s_valid_antecedent_indices : list (list Z);
  s_coreference_scores : list (list (list F));
  s_predicted_antecedents : list (list Z);
}.

(** Lines 226-247: the antecedent window of the kept spans. *)
Definition window_of (self : ALCoreferenceResolver) (p : pruning)
  : list (list Z) * list Z * list (list F) :=
  let max_antecedents :=
    Z.min (_max_antecedents self) (p_num_spans_to_keep p) in
  _generate_valid_antecedents (p_num_spans_to_keep p) max_antecedents.

(** Lines 248-265: the score matrix from the pruning results. *)
Definition coreference_scores_of (self : ALCoreferenceResolver) (p : pruning)
  : res (list (list (list F))) :=
  let '(valid_antecedent_indices, valid_antecedent_offsets,
        valid_antecedent_log_mask) := window_of self p in
  candidate_antecedent_embeddings ←
    flattened_index_select (p_top_span_embeddings p) valid_antecedent_indices;
  candidate_antecedent_mention_scores ←
    flattened_index_select (p_top_span_mention_scores p)
                           valid_antecedent_indices;
  span_pair_embeddings ←
    _compute_span_pair_embeddings self (p_top_span_embeddings p)
      candidate_antecedent_embeddings valid_antecedent_offsets;
  _compute_coreference_scores self span_pair_embeddings
    (p_top_span_mention_scores p) candidate_antecedent_mention_scores
    valid_antecedent_log_mask.

(** Lines 277-281: the dictionary that the scoring branch creates. *)
Definition make_output_dict (a : Args) (top_spans : list (list (Z * Z)))
    (valid_antecedent_indices predicted_antecedents : list (list Z))
    (coreference_scores : list (list (list F))) : dict :=
  let output_dict : dict :=
    <["top_spans" := VSpans top_spans]>
    (<["antecedent_indices" := VL2 valid_antecedent_indices]>
    (<["predicted_antecedents" := VL2 predicted_antecedents]> ∅)) in
  if get_scores a || return_coref_scores a
  then <["coreference_scores" := VF3 coreference_scores]> output_dict
  else output_dict.

(** Lines 283-284: the state returned under [return_coref_scores]. *)
Definition ret_values (output_dict : dict)
    (top_span_indices : list (list Z)) (flat_top_span_indices : list Z)
    (top_span_mask valid_antecedent_log_mask : list (list F)) : dict :=
  <["output_dict" := VDict output_dict]>
  (<["top_span_inds" := VList [VL2 top_span_indices; VL1 flat_top_span_indices]]>
  (<["top_span_mask" := VF2 top_span_mask]>
  (<["ant_mask" := VF2 valid_antecedent_log_mask]> ∅))).

(** Lines 219-285.  [inl] is the early return of line 285. *)
Definition score_stage (self : ALCoreferenceResolver) (a : Args) (p : pruning)
  : res (dict + scored) :=
  top_spans ← batched_index_select (p_spans p) (p_top_span_indices p)
                                   (p_flat_top_span_indices p);
  let '(valid_antecedent_indices, _, valid_antecedent_log_mask) :=
    window_of self p in
  coreference_scores ← coreference_scores_of self p;
  predicted_antecedents ← decode coreference_scores;
  let output_dict :=
    make_output_dict a top_spans valid_antecedent_indices
                     predicted_antecedents coreference_scores in
  if return_coref_scores a then
    Ok (inl (ret_values output_dict (p_top_span_indices p)
                        (p_flat_top_span_indices p) (p_top_span_mask p)
                        valid_antecedent_log_mask))
  else
    Ok (inr (Scored output_dict (p_top_span_indices p)
                    (p_flat_top_span_indices p) (p_top_span_mask p)
                    valid_antecedent_log_mask top_spans
                    valid_antecedent_indices coreference_scores
                    predicted_antecedents)).

(** Lines 287-301: the state is read from [coref_scores_info]; the
    dictionary under ["output_dict"] is the caller's object and is updated
    in place.  [flat_valid_antecedent_indices] (lines 296-297) is computed
    and never read. *)
Definition scored_given (coref_scores_info : dict) : res scored :=
  top_span_inds ← getitem coref_scores_info "top_span_inds";
  top_span_indices ← list_item top_span_inds 0 ≫= as_L2;
  top_span_inds ← getitem coref_scores_info "top_span_inds";
  flat_top_span_indices ← list_item top_span_inds 1 ≫= as_L1;
  top_span_mask ← getitem coref_scores_info "top_span_mask" ≫= as_F2;
  valid_antecedent_log_mask ←
    getitem coref_scores_info "valid_antecedent_log_mask" ≫= as_F2;
  output_dict ← getitem coref_scores_info "output_dict" ≫= as_Dict;
  top_spans ← getitem output_dict "top_spans" ≫= as_Spans;
  valid_antecedent_indices ←
    getitem output_dict "antecedent_indices" ≫= as_L2;
  coreference_scores ← getitem output_dict "coreference_scores" ≫= as_F3;
  predicted_antecedents ← decode coreference_scores;
  let output_dict : dict :=
    <["predicted_antecedents" := VL2 predicted_antecedents]> output_dict in
  Ok (Scored output_dict top_span_indices flat_top_span_indices top_span_mask
             valid_antecedent_log_mask top_spans valid_antecedent_indices
             coreference_scores predicted_antecedents).

(** ** forward, lines 302-341: loss and output *)

(** Lines 308-319: the gold antecedent indicator. *)
Definition gold_antecedent_labels_of (span_labels : list (list Z)) (s : scored)
  : res (list (list (list F))) :=
  pruned_gold_labels ←
    batched_index_select span_labels (s_top_span_indices s)
                         (s_flat_top_span_indices s);
  antecedent_labels ←
    flattened_index_select pruned_gold_labels (s_valid_antecedent_indices s);
  antecedent_labels ←
    mapR (λ labels, zipR (zipR (λ l m, Ok (wrap64 (l + to_long m))))
                         labels (s_valid_antecedent_log_mask s))
         antecedent_labels;
  _compute_antecedent_gold_labels pruned_gold_labels antecedent_labels.

(** Lines 330-332: the negative marginal log-likelihood. *)
Definition negative_marginal_log_likelihood_of
    (coreference_scores : list (list (list F)))
    (top_span_mask : list (list F))
    (gold_antecedent_labels : list (list (list F))) : res F :=
  coreference_log_probs ←
    zipR (zipR (λ row m, Ok (masked_log_softmax row m)))
         coreference_scores top_span_mask;
  correct_antecedent_log_probs ←
    zipR (zipR (zipR (λ lp g, Ok (fadd lp (flog g)))))
         coreference_log_probs gold_antecedent_labels;
  sums ← mapR (mapR logsumexp) correct_antecedent_log_probs;
  Ok (fneg (fsum (concat sums))).

(** Lines 306-337. *)
Definition loss_of (self : ALCoreferenceResolver) (a : Args)
    (span_labels : list (list Z)) (s : scored) : res F :=
  gold_antecedent_labels ← gold_antecedent_labels_of span_labels s;
  negative_marginal_log_likelihood ←
    negative_marginal_log_likelihood_of (s_coreference_scores s)
      (s_top_span_mask s) gold_antecedent_labels;
  _ ← _mention_recall self (s_top_spans s) (metadata a);
  _ ← _conll_coref_scores self (s_top_spans s) (s_valid_antecedent_indices s)
                          (s_predicted_antecedents s) (metadata a);
  Ok negative_marginal_log_likelihood.

(** Lines 302-341. *)
Definition finish (self : ALCoreferenceResolver) (a : Args) (s : scored)
  : res dict :=
  let output_dict : dict :=
    if get_scores a
    then <["top_span_indices" := VL2 (s_top_span_indices s)]> (s_output_dict s)
    else s_output_dict s in
  output_dict ←
    match span_labels a with
    | Some labels =>
        loss ← loss_of self a labels s;
        Ok (<["loss" := VScalar loss]> output_dict)
    | None => Ok output_dict
    end;
  match metadata a with
  | Some md =>
      document ←
        mapR (λ x : Meta, match x !! "original_text" with
                          | Some v => Ok v
                          | None => Raise (KeyError "original_text")
                          end) md;
      Ok (<["document" := VDoc document]> output_dict)
  | None => Ok output_dict
  end.

(** An optional dictionary that passes the test [if not d] as absent. *)
Definition present (d : option dict) : option dict :=
  if truthy d then d else None.

(** The caller's arguments after a call that went through the
    precomputed-scoring branch: the dictionary stored under
    ["output_dict"] is the very object forward returns. *)
Definition with_output_dict (a : Args) (info d : dict) : Args :=
  {| text := text a; spans := spans a; span_labels := span_labels a;
     metadata := metadata a; get_scores := get_scores a;
     top_spans_info := top_spans_info a;
     coref_scores_info := Some (<["output_dict" := VDict d]> info);
     return_mention_scores := return_mention_scores a;
     return_coref_scores := return_coref_scores a |}.

(** Lines 148-217: the branch on [top_spans_info]. *)
Definition prune_stage (self : ALCoreferenceResolver) (a : Args)
  : res (dict + pruning) :=
  match present (top_spans_info a) with
  | None => prune_fresh self a
  | Some info => inr <$> prune_given a info
  end.

(** [forward]: the returned dictionary, tagged with the return statement
    that produced it, and the caller's arguments as the call leaves them. *)
Definition forward (self : ALCoreferenceResolver) (a : Args)
  : res (outcome * Args) :=
  match present (coref_scores_info a) with
  | None =>
      r ← prune_stage self a;
      match r with
      | inl d => Ok (MentionScores d, a)
      | inr p =>
          r ← score_stage self a p;
          match r with
          | inl d => Ok (CorefScores d, a)
          | inr s => d ← finish self a s; Ok (Output d, a)
          end
      end
  | Some info =>
      s ← scored_given info;
      d ← finish self a s;
      Ok (Output d, with_output_dict a info d)
  end.

End Forward.
Arguments ALCoreferenceResolver F : clear implicits.
Arguments Args F : clear implicits.
Arguments pruner_output F : clear implicits.
Arguments pruning F : clear implicits.
Arguments scored F : clear implicits.
Arguments outcome F : clear implicits.

(** ** An executable carrier

    Integers with minus infinity; exponential and logarithm are taken in
    base 2 and rounded down, and an exponential below one underflows to
    zero.  It runs the model on concrete inputs; on inputs whose
    probabilities are powers of two it computes the loss exactly, in
    bits. *)

Inductive zinf :=
  | NegInf
  | Fin (z : Z).

Definition zinf_add (x y : zinf) : zinf :=
  match x, y with
  | Fin a, Fin b => Fin (a + b)
  | _, _ => NegInf
  end.

Definition zinf_neg (x : zinf) : zinf :=
  match x with
  | Fin a => Fin (- a)
  | NegInf => NegInf
  end.

Definition zinf_sub (x y : zinf) : zinf :=
  match x, y with
  | Fin a, Fin b => Fin (a - b)
  | _, _ => NegInf
  end.

Definition zinf_mul (x y : zinf) : zinf :=
  match x, y with
  | Fin a, Fin b => Fin (a * b)
  | _, _ => NegInf
  end.

Definition zinf_exp (x : zinf) : zinf :=
  match x with
  | Fin a => Fin (2 ^ a)
  | NegInf => Fin 0
  end.

Definition zinf_log (x : zinf) : zinf :=
  match x with
  | Fin a => if a <=? 0 then NegInf else Fin (Z.log2 a)
  | NegInf => NegInf
  end.

Definition zinf_ltb (x y : zinf) : bool :=
  match x, y with
  | Fin a, Fin b => a <? b
  | NegInf, Fin _ => true
  | _, NegInf => false
  end.

Definition zinf_to_long (x : zinf) : Z :=
  match x with
  | Fin a => a
  | NegInf => - 2 ^ 63
  end.

#[global] Instance zinf_scalar : Scalar zinf := {|
  fzero := Fin 0;
  fone := Fin 1;
  ftiny := Fin 1;
  fadd := zinf_add;
  fsub := zinf_sub;
  fmul := zinf_mul;
  fneg := zinf_neg;
  fexp := zinf_exp;
  flog := zinf_log;
  fltb := zinf_ltb;
  to_long := zinf_to_long;
|}.

(** ** The reals with minus infinity

    The carrier that the float operations are read in: [EInf] is the value
    of [log 0]. *)

Inductive ereal :=
  | EInf
  | EFin (r : R).

Definition ereal_add (x y : ereal) : ereal :=
  match x, y with
  | EFin a, EFin b => EFin (a + b)%R
  | _, _ => EInf
  end.

Definition ereal_sub (x y : ereal) : ereal :=
  match x, y with
  | EFin a, EFin b => EFin (a - b)%R
  | _, _ => EInf
  end.

Definition ereal_mul (x y : ereal) : ereal :=
  match x, y with
  | EFin a, EFin b => EFin (a * b)%R
  | _, _ => EInf
  end.

Definition ereal_neg (x : ereal) : ereal :=
  match x with
  | EFin a => EFin (- a)%R
  | EInf => EInf
  end.

Definition ereal_exp (x : ereal) : ereal :=
  match x with
  | EFin a => EFin (exp a)
  | EInf => EFin 0%R
  end.

Definition ereal_log (x : ereal) : ereal :=
  match x with
  | EFin a => if Rle_dec a 0 then EInf else EFin (ln a)
  | EInf => EInf
  end.

Definition ereal_ltb (x y : ereal) : bool :=
  match x, y with
  | EFin a, EFin b => if Rlt_dec a b then true else false
  | EInf, EFin _ => true
  | _, EInf => false
  end.

Definition ereal_to_long (x : ereal) : Z :=
  match x with
  | EFin a => Int_part a
  | EInf => - 2 ^ 63
  end.

Definition ereal_tiny : R := (/ 10 ^ 45)%R.

#[global] Instance ereal_scalar : Scalar ereal := {|
  fzero := EFin 0%R;
  fone := EFin 1%R;
  ftiny := EFin ereal_tiny;
  fadd := ereal_add;
  fsub := ereal_sub;
  fmul := ereal_mul;
  fneg := ereal_neg;
  fexp := ereal_exp;
  flog := ereal_log;
  fltb := ereal_ltb;
  to_long := ereal_to_long;
|}.

(** ** The pruner

    Modelled from the spec: the class
    [discrete_al_coref_module.models.pruner.Pruner] is not part of the
    sources at hand.  Section 4.1 of the specification: the score of a
    candidate comes from the external scorer; invalid candidates are masked
    to minus infinity; selection keeps the [K] highest-scoring candidates,
    ties going to the lower original index, and returns them in ascending
    order of original index, with their validity mask and their masked
    scores: a kept invalid candidate has the score minus infinity.  The
    specification clamps [K] to the number of valid candidates
    ([clamp = true]); the comment at lines 160-166 of forward expects masked
    spans among the kept ones when [K] exceeds the number of valid
    candidates, which is the selection without the clamp
    ([clamp = false]). *)

Section SpecPruner.
Context {F : Type} `{Scalar F}.
Variable scorer : list F → F.
Variable clamp : bool.

Definition spec_pruner_scores (embeddings : list (list (list F)))
    (mask : list (list F)) (num_items : Z) : res (list (list F)) :=
  Ok (map (map scorer) embeddings).

(** The position of the first highest score among the candidates left. *)
Definition best_candidate (cands : list (Z * F)) : option (Z * F) :=
  match cands with
  | [] => None
  | c :: cs =>
      Some (fold_left (λ best x, if fltb best.2 x.2 then x else best) cs c)
  end.

Fixpoint select_top (k : nat) (cands : list (Z * F)) : list Z :=
  match k with
  | O => []
  | S k' =>
      match best_candidate cands with
      | None => []
      | Some c =>
          c.1 :: select_top k' (filter (λ x, x.1 ≠ c.1) cands)
      end
  end.

Fixpoint insert_sorted (x : Z) (l : list Z) : list Z :=
  match l with
  | [] => [x]
  | y :: l' => if x <=? y then x :: l else y :: insert_sorted x l'
  end.

Definition sort_ascending (l : list Z) : list Z := foldr insert_sorted [] l.

(** The scores of one document with the invalid candidates masked. *)
Definition masked_scores (mask scores : list F) : list F :=
  map (λ ms : F * F, if fltb fzero ms.1 then ms.2 else flog fzero)
      (zip mask scores).

(** The kept original indices of one document. *)
Definition spec_top_indices (mask scores : list F) (k : Z) : list Z :=
  let cands :=
    imap (λ n s, (Z.of_nat n, s)) (masked_scores mask scores) in
  let num_valid :=
    Z.of_nat (length (filter (λ m, fltb fzero m = true) mask)) in
  let k := if clamp then Z.min k num_valid else k in
  sort_ascending (select_top (Z.to_nat k) cands).

Definition spec_pruner (embeddings : list (list (list F)))
    (mask : list (list F)) (num_items_to_keep : Z) (scores : list (list F))
  : res (pruner_output F) :=
  top_indices ←
    zipR (λ m s, Ok (spec_top_indices m s num_items_to_keep)) mask scores;
  let flat_top_indices :=
    flatten_and_batch_shift_indices top_indices (size1 embeddings) in
  top_embeddings ← batched_index_select embeddings top_indices flat_top_indices;
  top_mask ← batched_index_select mask top_indices flat_top_indices;
  scores ← zipR (λ m s, Ok (masked_scores m s)) mask scores;
  top_scores ← batched_index_select scores top_indices flat_top_indices;
  Ok (PrunerOutput top_embeddings top_mask top_indices top_scores).
End SpecPruner.

(** ** A concrete model and concrete calls

    A small instance of the model object over [zinf], used to run forward:
    a token is embedded as its id, a span as its two end points and its
    width; the mention scorer and the pair scorer are parameters. *)

Definition demo_tokens (text : gmap string (list (list Z))) : list (list Z) :=
  default [] (text !! "tokens").

Definition demo_metric (md : option (list (gmap string meta_value)))
  : res unit :=
  match md with
  | Some _ => Ok ()
  | None => Raise TypeError
  end.

Definition demo_model (clamp : bool) (spans_per_word : double)
    (max_antecedents : Z) (mention_scorer pair_scorer : list zinf → zinf)
  : ALCoreferenceResolver zinf := {|
  _text_field_embedder := λ text, map (map (λ t, [Fin t])) (demo_tokens text);
  _lexical_dropout := λ e, e;
  get_text_field_mask :=
    λ text, map (map (λ t, of_bool (negb (t =? 0)))) (demo_tokens text);
  _context_layer := λ e _, e;
  _endpoint_span_extractor :=
    λ _ spans, map (map (λ s : Z * Z, [Fin s.1; Fin s.2])) spans;
  _attentive_span_extractor :=
    λ _ spans, map (map (λ s : Z * Z, [Fin (s.2 - s.1 + 1)])) spans;
  _mention_pruner_scores := spec_pruner_scores mention_scorer;
  _mention_pruner := spec_pruner clamp;
  _distance_feature := λ d, [Fin d];
  _antecedent_feedforward := λ e, e;
  _antecedent_scorer := pair_scorer;
  _mention_recall := λ _ md, demo_metric md;
  _conll_coref_scores := λ _ _ _ md, demo_metric md;
  _spans_per_word := spans_per_word;
  _max_antecedents := max_antecedents;
|}.

Definition demo_text : gmap string (list (list Z)) :=
  {[ "tokens" := [[11; 12; 13; 14; 15]] ]}.

Definition demo_metadata : list (gmap string meta_value) :=
  [ {[ "original_text" := MText ["a"; "b"; "c"; "d"; "e"];
       "clusters" := MClusters [[(0, 0); (2, 2)]] ]} ].

(** Five tokens, three candidate spans, spans 0 and 2 in cluster 1. *)
Definition demo_args : Args zinf := {|
  text := demo_text;
  spans := [[(0, 0); (1, 1); (2, 2)]];
  span_labels := Some [[1; -1; 1]];
  metadata := Some demo_metadata;
  get_scores := false;
  top_spans_info := None;
  coref_scores_info := None;
  return_mention_scores := false;
  return_coref_scores := false;
|}.

(** ** Notions used in the statements *)

(** The output dictionary handed in under [coref_scores_info] carries a
    loss entry of its own. *)
Definition stale_loss {F} (a : Args F) : Prop :=
  ∃ info od, present (coref_scores_info a) = Some info ∧
             info !! "output_dict" = Some (VDict od) ∧
             is_Some (od !! "loss").

(** Line 152: the document length that forward reads off the embedded
    text. *)
Definition document_length_of {F} (self : ALCoreferenceResolver F)
    (a : Args F) : Z :=
  size1 (_lexical_dropout self (_text_field_embedder self (text a))).

(** Lines 170-178: the span embeddings of the fresh path, computed from the
    clamped spans. *)
Definition span_embeddings_of {F} (self : ALCoreferenceResolver F)
    (a : Args F) : res (list (list (list F))) :=
  let text_embeddings :=
    _lexical_dropout self (_text_field_embedder self (text a)) in
  let text_mask := get_text_field_mask self (text a) in
  cat_last
    (_endpoint_span_extractor self
       (_context_layer self text_embeddings text_mask) (clamp_spans (spans a)))
    (_attentive_span_extractor self text_embeddings (clamp_spans (spans a))).

(** The number of valid candidates of one document: the spans whose start
    index is not the padding sentinel. *)
Definition valid_candidates (row : list (Z * Z)) : Z :=
  Z.of_nat (length (filter (λ s : Z * Z, 0 ≤ s.1) row)).

(** The call takes the fresh-input path. *)
Definition fresh_path {F} (a : Args F) : Prop :=
  present (coref_scores_info a) = None ∧ present (top_spans_info a) = None.

(** A fraction of kept spans per word of 0.6, and a window of two. *)
Definition demo_spans_per_word : double := double_ratio 3 5.

(** The mention score of a span is the sum of its embedding; the pair
    scorer returns the negated distance feature. *)
Definition demo : ALCoreferenceResolver zinf :=
  demo_model true demo_spans_per_word 2 fsum
             (λ e, zinf_neg (default (Fin 0) (last e))).

(** The same model with the pruner that keeps exactly [K] candidates. *)
Definition demo_unclamped : ALCoreferenceResolver zinf :=
  demo_model false demo_spans_per_word 2 fsum
             (λ e, zinf_neg (default (Fin 0) (last e))).

(** The same document with two of the three candidates padding, asked for
    the mention scores only. *)
Definition padded_args : Args zinf := {|
  text := demo_text;
  spans := [[(0, 0); (-1, -1); (-1, -1)]];
  span_labels := None;
  metadata := None;
  get_scores := false;
  top_spans_info := None;
  coref_scores_info := None;
  return_mention_scores := true;
  return_coref_scores := false;
|}.

(** [slot] is the position of the first maximum of [row]: no entry is
    greater than the entry at [slot], and every earlier entry is strictly
    smaller. *)
Definition first_argmax {F} `{Scalar F} (row : list F) (slot : Z) : Prop :=
  ∃ y, 0 ≤ slot ∧ row !! Z.to_nat slot = Some y ∧
       (∀ k x, row !! k = Some x → fltb y x = false) ∧
       (∀ k x, row !! k = Some x → Z.of_nat k < slot → fltb x y = true).

(** The output dictionary inside what a call returns: the dictionary itself
    at the final return, the entry ["output_dict"] of the returned state
    under [return_coref_scores]. *)
Definition output_dict_of {F} (o : outcome F)
  : option (gmap string (value F)) :=
  match o with
  | Output d => Some d
  | CorefScores d =>
      match d !! "output_dict" with
      | Some (VDict od) => Some od
      | _ => None
      end
  | MentionScores _ => None
  end.

(** The score matrix that a call decodes: computed from the pruning results,
    or read from [coref_scores_info]. *)
Definition score_matrix_of {F} `{Scalar F} (self : ALCoreferenceResolver F)
    (a : Args F) : res (list (list (list F))) :=
  match present (coref_scores_info a) with
  | None =>
      r ← prune_stage self a;
      match r with
      | inr p => coreference_scores_of self p
      | inl _ => Raise RuntimeError
      end
  | Some info =>
      od ← getitem info "output_dict" ≫= as_Dict;
      getitem od "coreference_scores" ≫= as_F3
  end.

(** The antecedent scores of [_compute_coreference_scores] before its last
    statement, [antecedent_scores += antecedent_log_mask]: the score of the
    pair, plus the sum of the two mention scores. *)
Definition unmasked_antecedent_scores {F} `{Scalar F}
    (self : ALCoreferenceResolver F)
    (pairwise_embeddings : list (list (list (list F))))
    (top_span_mention_scores : list (list F))
    (antecedent_mention_scores : list (list (list F)))
  : res (list (list (list F))) :=
  let antecedent_scores :=
    map (map (map (λ e, _antecedent_scorer self
                          (_antecedent_feedforward self e))))
        pairwise_embeddings in
  mention_scores ←
    zipR (zipR (λ t row, Ok (map (fadd t) row)))
         top_span_mention_scores antecedent_mention_scores;
  zipR (zipR (zipR (λ a s, Ok (fadd a s)))) antecedent_scores mention_scores.

(** Lines 248-265 up to that statement: the unmasked antecedent scores of
    the pruning results. *)
Definition unmasked_scores_of {F} `{Scalar F} (self : ALCoreferenceResolver F)
    (p : pruning F) : res (list (list (list F))) :=
  let '(valid_antecedent_indices, valid_antecedent_offsets, _) :=
    window_of self p in
  candidate_antecedent_embeddings ←
    flattened_index_select (p_top_span_embeddings p) valid_antecedent_indices;
  candidate_antecedent_mention_scores ←
    flattened_index_select (p_top_span_mention_scores p)
                           valid_antecedent_indices;
  span_pair_embeddings ←
    _compute_span_pair_embeddings self (p_top_span_embeddings p)
      candidate_antecedent_embeddings valid_antecedent_offsets;
  unmasked_antecedent_scores self span_pair_embeddings
    (p_top_span_mention_scores p) candidate_antecedent_mention_scores.

(** Adding the log-mask of an invalid slot to [x] gives minus infinity.  Of
    an IEEE float this holds exactly when [x] is neither NaN nor plus
    infinity; it holds of every extended real. *)
Definition maskable {F} `{Scalar F} (x : F) : Prop :=
  fadd x (flog fzero) = flog fzero.

(** The unmasked antecedent scores of the call, if it computes any, are
    neither NaN nor plus infinity. *)
Definition maskable_scores {F} `{Scalar F} (self : ALCoreferenceResolver F)
    (a : Args F) : Prop :=
  ∀ p raw, prune_stage self a = Ok (inr p) →
           unmasked_scores_of self p = Ok raw →
           Forall (Forall (Forall maskable)) raw.

(** [.long()] on the two values of a log-mask: [log 1 = 0.0] becomes 0 and
    [log 0 = -inf] becomes the least 64-bit integer. *)
Class ScalarLong (F : Type) `{Scalar F} : Prop := {
  to_long_log_one : to_long (flog fone) = 0;
  to_long_log_zero : to_long (flog fzero) = - 2 ^ 63;
}.

(** Two runs agree up to [R] on their results, and raise alike. *)
Definition res_rel {A B} (R : A → B → Prop) (m : res A) (m' : res B) : Prop :=
  match m, m' with
  | Ok x, Ok y => R x y
  | Raise e, Raise e' => e = e'
  | _, _ => False
  end.

(** The call [a] with other gold labels. *)
Definition with_labels {F} (a : Args F) (labels : list (list Z)) : Args F :=
  {| text := text a; spans := spans a; span_labels := Some labels;
     metadata := metadata a; get_scores := get_scores a;
     top_spans_info := top_spans_info a;
     coref_scores_info := coref_scores_info a;
     return_mention_scores := return_mention_scores a;
     return_coref_scores := return_coref_scores a |}.

(** A gold label is the sentinel -1 or a cluster id below the largest
    64-bit integer. *)
Definition label_range (x : Z) : Prop := -1 ≤ x < 2 ^ 63 - 1.

(** [r] renames cluster ids: it keeps the sentinel, maps cluster ids to
    cluster ids, and does not merge two labels. *)
Definition relabeling (r : Z → Z) : Prop :=
  r (-1) = -1 ∧
  (∀ x, label_range x → 0 ≤ x → 0 ≤ r x < 2 ^ 63 - 1) ∧
  (∀ x y, label_range x → label_range y → r x = r y → x = y).

(** A log-mask handed in under [coref_scores_info], if any, has the two
    values of a log-mask as entries. *)
Definition supplied_log_mask {F} `{Scalar F} (a : Args F) : Prop :=
  ∀ info m, present (coref_scores_info a) = Some info →
            info !! "valid_antecedent_log_mask" = Some (VF2 m) →
            Forall (Forall (λ x, x = flog fone ∨ x = flog fzero)) m.

(** The pruning results of the fresh path, laid out as the dictionary that
    the branch on [top_spans_info] reads. *)
Definition pruning_state_of {F} (p : pruning F) : gmap string (value F) :=
  <["mention_scores" := VF2 (p_span_mention_scores p)]>
  (<["top_scores" := VF2 (p_top_span_mention_scores p)]>
  (<["span_indices" := VL2 (p_top_span_indices p)]>
  (<["flat_top_indices" := VL1 (p_flat_top_span_indices p)]>
  (<["top_mask" := VF2 (p_top_span_mask p)]>
  (<["span_embeddings" := VF3 (p_span_embeddings p)]>
  (<["text_mask" := VF2 (p_text_mask p)]> ∅)))))).

(** The call [a] resumed from precomputed pruning results. *)
Definition with_top_spans_info {F} (a : Args F)
    (info : gmap string (value F)) : Args F :=
  {| text := text a; spans := spans a; span_labels := span_labels a;
     metadata := metadata a; get_scores := get_scores a;
     top_spans_info := Some info;
     coref_scores_info := coref_scores_info a;
     return_mention_scores := return_mention_scores a;
     return_coref_scores := return_coref_scores a |}.

(** The pruning results are shaped as forward expects of its pruner: the
    kept embeddings are the span embeddings at the kept indices, and there
    are [num_spans_to_keep] kept scores per document. *)
Definition pruner_consistent {F} (p : pruning F) : Prop :=
  batched_index_select (p_span_embeddings p) (p_top_span_indices p)
                       (p_flat_top_span_indices p)
  = Ok (p_top_span_embeddings p) ∧
  size1 (p_top_span_mention_scores p) = p_num_spans_to_keep p.

(** No kept span is changed by the clamp: the kept spans read from the
    caller's spans and from the clamped spans are the same. *)
Definition kept_spans_unclamped {F} (a : Args F) (p : pruning F) : Prop :=
  batched_index_select (spans a) (p_top_span_indices p)
                       (p_flat_top_span_indices p)
  = batched_index_select (clamp_spans (spans a)) (p_top_span_indices p)
                         (p_flat_top_span_indices p).

(** The padded document, run to the end. *)
Definition padded_full_args : Args zinf := {|
  text := demo_text;
  spans := [[(0, 0); (-1, -1); (-1, -1)]];
  span_labels := None;
  metadata := None;
  get_scores := false;
  top_spans_info := None;
  coref_scores_info := None;
  return_mention_scores := false;
  return_coref_scores := false;
|}.

(** ** Concrete runs used by the examples *)

(** The call [a] resumed from a precomputed scoring state. *)
Definition with_coref_scores_info {F} (a : Args F)
    (info : gmap string (value F)) : Args F :=
  {| text := text a; spans := spans a; span_labels := span_labels a;
     metadata := metadata a; get_scores := get_scores a;
     top_spans_info := top_spans_info a;
     coref_scores_info := Some info;
     return_mention_scores := return_mention_scores a;
     return_coref_scores := return_coref_scores a |}.

(** The demo call, asked for the coreference-score state. *)
Definition demo_state_args : Args zinf := {|
  text := demo_text;
  spans := [[(0, 0); (1, 1); (2, 2)]];
  span_labels := Some [[1; -1; 1]];
  metadata := Some demo_metadata;
  get_scores := false;
  top_spans_info := None;
  coref_scores_info := None;
  return_mention_scores := false;
  return_coref_scores := true;
|}.

(** What the demo calls return. *)
Definition demo_output : gmap string (value zinf) :=
  Eval vm_compute in
    match forward demo demo_args with
    | Ok (Output d, _) => d
    | _ => ∅
    end.

Definition demo_state : gmap string (value zinf) :=
  Eval vm_compute in
    match forward demo demo_state_args with
    | Ok (CorefScores d, _) => d
    | _ => ∅
    end.

Definition padded_output : gmap string (value zinf) :=
  Eval vm_compute in
    match forward demo padded_args with
    | Ok (MentionScores d, _) => d
    | _ => ∅
    end.

Definition no_pruning : pruning zinf :=
  Pruning [] [] [] 0 [] [] [] [] [] [].

(** The pruning results of the demo call, and of the padded document under
    the pruner that keeps exactly [K] candidates. *)
Definition demo_pruning : pruning zinf :=
  Eval vm_compute in
    match prune_stage demo demo_args with
    | Ok (inr p) => p
    | _ => no_pruning
    end.

Definition padded_pruning : pruning zinf :=
  Eval vm_compute in
    match prune_stage demo_unclamped padded_full_args with
    | Ok (inr p) => p
    | _ => no_pruning
    end.

(** Cluster ids 1 and 7 exchanged. *)
Definition swap_1_7 (x : Z) : Z :=
  if x =? 1 then 7 else if x =? 7 then 1 else x.

(** ** The loss as the claim words it

    The negative sum, over the kept spans of all batch elements, of the
    log-sum-exp of the log-softmax of the span's row with the logarithm of
    the gold indicator added, where a kept span whose validity flag is
    false contributes zero. *)
Definition claimed_loss {F} `{Scalar F}
    (coreference_scores : list (list (list F)))
    (top_span_mask : list (list F))
    (gold_antecedent_labels : list (list (list F))) : res F :=
  rows ← zipR (zipR (λ row g, Ok (row, g)))
              coreference_scores gold_antecedent_labels;
  contributions ←
    zipR (zipR (λ (rg : list F * list F) (m : F),
            if fltb fzero m then
              log_probs ← zipR (λ lp g, Ok (fadd lp (flog g)))
                               (log_softmax rg.1) rg.2;
              logsumexp log_probs
            else Ok fzero))
         rows top_span_mask;
  Ok (fneg (fsum (concat contributions))).






(** The state returned under [return_coref_scores], with the antecedent
    mask also stored under the key that the branch on [coref_scores_info]
    reads. *)
Definition rekey_state {F} (st : gmap string (value F))
  : gmap string (value F) :=
  match st !! "ant_mask" with
  | Some v => <["valid_antecedent_log_mask" := v]> st
  | None => st
  end.

(** The call [a] without the request for the coreference-score state. *)
Definition without_return_coref_scores {F} (a : Args F) : Args F :=
  {| text := text a; spans := spans a; span_labels := span_labels a;
     metadata := metadata a; get_scores := get_scores a;
     top_spans_info := top_spans_info a;
     coref_scores_info := coref_scores_info a;
     return_mention_scores := return_mention_scores a;
     return_coref_scores := false |}.

(** Two returned dictionaries agree on every key but
    ["coreference_scores"]. *)
Definition same_predictions {F} (o o' : outcome F) : Prop :=
  ∀ k, k ≠ "coreference_scores" → returned o !! k = returned o' !! k.

(** ** Notions used in the further properties *)

(** Two model objects with the same text encoder, span extractors, pruner
    and fraction of kept spans: the attributes that lines 150-197 read. *)
Definition same_front {F} (self self' : ALCoreferenceResolver F) : Prop :=
  _text_field_embedder self = _text_field_embedder self' ∧
  _lexical_dropout self = _lexical_dropout self' ∧
  get_text_field_mask self = get_text_field_mask self' ∧
  _context_layer self = _context_layer self' ∧
  _endpoint_span_extractor self = _endpoint_span_extractor self' ∧
  _attentive_span_extractor self = _attentive_span_extractor self' ∧
  _mention_pruner_scores self = _mention_pruner_scores self' ∧
  _mention_pruner self = _mention_pruner self' ∧
  _spans_per_word self = _spans_per_word self'.

(** The same antecedent scorer and window bound: the attributes that lines
    226-265 read. *)
Definition same_scorer {F} (self self' : ALCoreferenceResolver F) : Prop :=
  _distance_feature self = _distance_feature self' ∧
  _antecedent_feedforward self = _antecedent_feedforward self' ∧
  _antecedent_scorer self = _antecedent_scorer self' ∧
  _max_antecedents self = _max_antecedents self'.

(** The same metric objects (lines 334-335). *)
Definition same_metrics {F} (self self' : ALCoreferenceResolver F) : Prop :=
  _mention_recall self = _mention_recall self' ∧
  _conll_coref_scores self = _conll_coref_scores self'.

(** The call returns at one of the two staged returns (lines 190 and 285)
    if it returns at all. *)
Definition staged_return {F} (a : Args F) : Prop :=
  present (coref_scores_info a) = None ∧
  (return_coref_scores a = true ∨
   (present (top_spans_info a) = None ∧ return_mention_scores a = true)).

(** An optional dictionary argument that the tests of lines 147 and 148
    take as missing. *)
Definition absent {F} (d : option (gmap string (value F))) : Prop :=
  d = None ∨ d = Some ∅.

(** The call [a] with another value of [get_scores]. *)
Definition with_get_scores {F} (a : Args F) (g : bool) : Args F :=
  {| text := text a; spans := spans a; span_labels := span_labels a;
     metadata := metadata a; get_scores := g;
     top_spans_info := top_spans_info a;
     coref_scores_info := coref_scores_info a;
     return_mention_scores := return_mention_scores a;
     return_coref_scores := return_coref_scores a |}.

(** The keys that lines 301-340 may write into the dictionary they are
    given. *)
Definition written_keys : list string :=
  ["predicted_antecedents"; "top_span_indices"; "loss"; "document"].

(** Every row of a tensor has the length that [size(1)] reports. *)
Definition rectangular {A} (t : list (list A)) : Prop :=
  Forall (λ row, Z.of_nat (length row) = size1 t) t.

(** Line 340: [x["original_text"]] for one metadata dictionary. *)
Definition original_text_of (x : gmap string meta_value) : res meta_value :=
  match x !! "original_text" with
  | Some v => Ok v
  | None => Raise (KeyError "original_text")
  end.

(** The call [a] on another text, with another value of
    [return_mention_scores]. *)
Definition with_text {F} (a : Args F) (t : gmap string (list (list Z)))
    (r : bool) : Args F :=
  {| text := t; spans := spans a; span_labels := span_labels a;
     metadata := metadata a; get_scores := get_scores a;
     top_spans_info := top_spans_info a;
     coref_scores_info := coref_scores_info a;
     return_mention_scores := r;
     return_coref_scores := return_coref_scores a |}.

(** What [get_scores] adds to the result of a call: nothing at the
    mention-scores return, the entries ["coreference_scores"] and
    ["top_span_indices"] at the final return. *)
Definition adds_scores {F} (o o' : outcome F) : Prop :=
  match o, o' with
  | MentionScores d, MentionScores d' => d = d'
  | Output d, Output d' =>
      d !! "coreference_scores" = None ∧ d !! "top_span_indices" = None ∧
      ∃ sc idx, d' = <["top_span_indices" := VL2 idx]>
                       (<["coreference_scores" := VF3 sc]> d)
  | _, _ => False
  end.

(** The keys of the dictionary of the final return when forward builds it
    (lines 277-281, 303, 337, 340). *)
Definition output_keys {F} (a : Args F) : gset string :=
  {[ "top_spans"; "antecedent_indices"; "predicted_antecedents" ]}
  ∪ (if get_scores a then {[ "coreference_scores"; "top_span_indices" ]}
     else ∅)
  ∪ (match span_labels a with Some _ => {[ "loss" ]} | None => ∅ end)
  ∪ (match metadata a with Some _ => {[ "document" ]} | None => ∅ end).

(** The model [self] with other metric objects. *)
Definition with_metrics {F} (self : ALCoreferenceResolver F)
    (mention_recall :
       list (list (Z * Z)) → option (list (gmap string meta_value)) →
       res unit)
    (conll_coref_scores :
       list (list (Z * Z)) → list (list Z) → list (list Z) →
       option (list (gmap string meta_value)) → res unit)
  : ALCoreferenceResolver F :=
  {| _text_field_embedder := _text_field_embedder self;
     _lexical_dropout := _lexical_dropout self;
     get_text_field_mask := get_text_field_mask self;
     _context_layer := _context_layer self;
     _endpoint_span_extractor := _endpoint_span_extractor self;
     _attentive_span_extractor := _attentive_span_extractor self;
     _mention_pruner_scores := _mention_pruner_scores self;
     _mention_pruner := _mention_pruner self;
     _distance_feature := _distance_feature self;
     _antecedent_feedforward := _antecedent_feedforward self;
     _antecedent_scorer := _antecedent_scorer self;
     _mention_recall := mention_recall;
     _conll_coref_scores := conll_coref_scores;
     _spans_per_word := _spans_per_word self;
     _max_antecedents := _max_antecedents self |}.

(** The gold indicator of one window slot: slot [j] of the kept span at
    position [i] whose gold label is [t], among kept spans with the gold
    labels [kept].  It is one when the offset [j + 1] stays inside the kept
    spans, the span [i - (j + 1)] has the label [t], and [t] is a cluster
    id; the last factor is the one of the code. *)
Definition window_gold {F} `{Scalar F} (kept : list Z) (i j : nat) (t : Z)
  : F :=
  fmul (of_bool (bool_decide (j + 1 ≤ i)%nat &&
                 bool_decide (kept !! (i - (j + 1))%nat = Some t)))
       (of_bool (0 <=? t)).

(** The pruning results and the scoring results with other kept indices. *)
Definition with_top_span_indices {F} (p : pruning F) (idx : list (list Z))
  : pruning F :=
  Pruning (p_spans p) (p_span_mention_scores p) (p_top_span_mention_scores p)
          (p_num_spans_to_keep p) idx (p_flat_top_span_indices p)
          (p_top_span_mask p) (p_span_embeddings p) (p_top_span_embeddings p)
          (p_text_mask p).

Definition with_s_top_span_indices {F} (s : scored F) (idx : list (list Z))
  : scored F :=
  Scored (s_output_dict s) idx (s_flat_top_span_indices s) (s_top_span_mask s)
         (s_valid_antecedent_log_mask s) (s_top_spans s)
         (s_valid_antecedent_indices s) (s_coreference_scores s)
         (s_predicted_antecedents s).

(** Two index tensors of the same shape. *)
Definition same_shape (idx idx' : list (list Z)) : Prop :=
  Forall2 (λ row row', length row = length row') idx idx'.

(** ** Further concrete calls *)

(** The demo call resumed from its coreference-score state, re-keyed. *)
Definition demo_resume_args : Args zinf :=
  with_coref_scores_info demo_args (rekey_state demo_state).

Definition demo_resumed : outcome zinf * Args zinf :=
  Eval vm_compute in
    match forward demo demo_resume_args with
    | Ok r => r
    | Raise _ => (Output ∅, demo_args)
    end.

(** The demo call resumed from its pruning results. *)
Definition demo_pruned_args : Args zinf :=
  with_top_spans_info demo_args (pruning_state_of demo_pruning).

(** The output dictionary inside the coreference-score state of the demo
    call. *)
Definition demo_state_output_dict : gmap string (value zinf) :=
  Eval vm_compute in default ∅ (output_dict_of (CorefScores demo_state)).

(** The score matrix that the demo state carries. *)
Definition demo_state_scores : list (list (list zinf)) :=
  Eval vm_compute in
    match demo_state_output_dict !! "coreference_scores" with
    | Some (VF3 sc) => sc
    | _ => []
    end.

(** ** The calls at which the code departs from the claims *)

(** A coreference-score state with the score matrix replaced, as a caller
    does who edits the scores between the two stages. *)
Definition with_scores {F} (st : gmap string (value F))
    (scores : list (list (list F))) : gmap string (value F) :=
  match st !! "output_dict" with
  | Some (VDict od) =>
      <["output_dict" := VDict (<["coreference_scores" := VF3 scores]> od)]> st
  | _ => st
  end.

(** The call [a] without gold labels. *)
Definition without_labels {F} (a : Args F) : Args F :=
  {| text := text a; spans := spans a; span_labels := None;
     metadata := metadata a; get_scores := get_scores a;
     top_spans_info := top_spans_info a;
     coref_scores_info := coref_scores_info a;
     return_mention_scores := return_mention_scores a;
     return_coref_scores := return_coref_scores a |}.




(** The demo state with a score matrix in which every kept span, the first
    one included, scores highest at its first antecedent slot. *)
Definition edited_scores : list (list (list zinf)) :=
  [[[Fin 0; Fin 5; Fin 0]; [Fin 0; Fin 5; Fin 0]; [Fin 0; Fin 5; Fin 0]]].

Definition edited_args : Args zinf :=
  with_coref_scores_info demo_args
    (with_scores (rekey_state demo_state) edited_scores).

(** The arguments as the resumed demo call left them, the caller's output
    dictionary now holding the loss, in a further call without labels. *)
Definition demo_stale_args : Args zinf := without_labels demo_resumed.2.

(** The demo call without labels, and what it returns. *)
Definition demo_unlabelled_args : Args zinf := without_labels demo_args.

Definition demo_unlabelled_output : gmap string (value zinf) :=
  Eval vm_compute in
    match forward demo demo_unlabelled_args with
    | Ok (Output d, _) => d
    | _ => ∅
    end.

(** What the padded document returns under the pruner that keeps [K]
    candidates. *)
Definition padded_full_output : gmap string (value zinf) :=
  Eval vm_compute in
    match forward demo_unclamped padded_full_args with
    | Ok (Output d, _) => d
    | _ => ∅
    end.





(** * Properties *)

(** ** The result monad *)

Lemma bind_Ok {A B} (m : res A) (k : A → res B) (b : B) :
  m ≫= k = Ok b → ∃ a, m = Ok a ∧ k a = Ok b.
Proof. destruct m as [a|e]; simpl; [eauto | discriminate]. Qed.

Lemma fmap_Ok {A B} (f : A → B) (m : res A) (b : B) :
  f <$> m = Ok b → ∃ a, m = Ok a ∧ b = f a.
Proof. destruct m as [a|e]; simpl; [|discriminate]. intros [= <-]. eauto. Qed.

(** Decompose a successful run of a monadic computation, bind by bind. *)
Ltac res_inv :=
  repeat match goal with
  | H : Ok _ = Ok _ |- _ => injection H as H; try subst
  | H : Raise _ = Ok _ |- _ => discriminate H
  | H : inl _ = inr _ |- _ => discriminate H
  | H : inr _ = inl _ |- _ => discriminate H
  | H : (_, _) = (_, _) |- _ => injection H as ? H; try subst
  | H : inl _ = inl _ |- _ => injection H as H; try subst
  | H : inr _ = inr _ |- _ => injection H as H; try subst
  | H : (_ ≫= _) = Ok _ |- _ =>
      let x := fresh "x" in
      let Hx := fresh "Hx" in
      apply bind_Ok in H as (x & Hx & H)
  | H : (_ <$> _) = Ok _ |- _ =>
      let x := fresh "x" in
      let Hx := fresh "Hx" in
      apply fmap_Ok in H as (x & Hx & H)
  end.

Lemma mapR_pure {A B} (g : A → B) (l : list A) :
  mapR (λ x, Ok (g x)) l = Ok (map g l).
Proof. induction l as [|x l IH]; simpl; [done|]. by rewrite IH. Qed.

Lemma mapR_Forall2 {A B} (f : A → res B) (l : list A) (l' : list B) :
  mapR f l = Ok l' ↔ Forall2 (λ x y, f x = Ok y) l l'.
Proof.
  revert l'. induction l as [|x l IH]; intros l'; simpl.
  - split; [intros [= <-]; constructor | by inversion 1].
  - split.
    + intros Hm. res_inv. constructor; [done|]. by apply IH.
    + inversion 1 as [|? y ? ys Hy Hys]; subst.
      rewrite Hy; simpl. apply IH in Hys. by rewrite Hys.
Qed.

Lemma mapR_length {A B} (f : A → res B) (l : list A) (l' : list B) :
  mapR f l = Ok l' → length l' = length l.
Proof. intros Hm%mapR_Forall2. symmetry. by eapply Forall2_length. Qed.

Lemma mapR_lookup {A B} (f : A → res B) (l : list A) (l' : list B) i y :
  mapR f l = Ok l' → l' !! i = Some y →
  ∃ x, l !! i = Some x ∧ f x = Ok y.
Proof.
  intros Hm%mapR_Forall2 Hy.
  destruct (Forall2_lookup_r _ _ _ _ _ Hm Hy) as (x & ? & ?). eauto.
Qed.

Lemma zipR_lookup {A B C} (f : A → B → res C) xs ys zs i z :
  zipR f xs ys = Ok zs → zs !! i = Some z →
  ∃ x y, xs !! i = Some x ∧ ys !! i = Some y ∧ f x y = Ok z.
Proof.
  revert ys zs i. induction xs as [|x xs IH]; intros [|y ys] zs i Hz Hi;
    simpl in Hz; try discriminate.
  - injection Hz as <-. done.
  - res_inv. destruct i as [|i]; simpl in Hi.
    + injection Hi as <-. eauto.
    + destruct (IH _ _ _ Hx0 Hi) as (x' & y' & ? & ? & ?). eauto.
Qed.

Lemma zipR_length {A B C} (f : A → B → res C) xs ys zs :
  zipR f xs ys = Ok zs → length zs = length xs ∧ length zs = length ys.
Proof.
  revert ys zs. induction xs as [|x xs IH]; intros [|y ys] zs Hz;
    simpl in Hz; try discriminate.
  - by injection Hz as <-.
  - res_inv. destruct (IH _ _ Hx0) as [E1 E2]. simpl. split; congruence.
Qed.

(** ** The state returned with return_coref_scores *)

Section ResumeState.
Context {F : Type} `{Scalar F}.
Implicit Types (self : ALCoreferenceResolver F) (a : Args F).
Implicit Types (d st od : gmap string (value F)) (mask lm : list (list F)).

Lemma score_stage_inl self a p d :
  score_stage self a p = Ok (inl d) →
  ∃ top_spans scores predicted,
    batched_index_select (p_spans p) (p_top_span_indices p)
                         (p_flat_top_span_indices p) = Ok top_spans ∧
    coreference_scores_of self p = Ok scores ∧
    decode scores = Ok predicted ∧
    d = ret_values (make_output_dict a top_spans (window_of self p).1.1
                                     predicted scores)
                   (p_top_span_indices p) (p_flat_top_span_indices p)
                   (p_top_span_mask p) (window_of self p).2 ∧
    return_coref_scores a = true.
Proof.
  unfold score_stage, window_of, _generate_valid_antecedents. simpl.
  intros Hs.
  destruct (batched_index_select _ _ _) as [top_spans|] eqn:Ht;
    simpl in Hs; [|done].
  destruct (coreference_scores_of self p) as [scores|] eqn:Hc;
    simpl in Hs; [|done].
  destruct (decode scores) as [predicted|] eqn:Hd; simpl in Hs; [|done].
  destruct (return_coref_scores a) eqn:Hret; [|done].
  injection Hs as <-. by exists top_spans, scores, predicted.
Qed.

(** The shape of a successful call, by return statement. *)
Lemma forward_inv self a o a' :
  forward self a = Ok (o, a') →
  (present (coref_scores_info a) = None ∧ a' = a ∧
   ((∃ d, o = MentionScores d ∧ prune_stage self a = Ok (inl d)) ∨
    (∃ p, prune_stage self a = Ok (inr p) ∧
       ((∃ d, o = CorefScores d ∧ score_stage self a p = Ok (inl d)) ∨
        (∃ s d, o = Output d ∧ score_stage self a p = Ok (inr s) ∧
                finish self a s = Ok d)))))
  ∨ (∃ info s d, present (coref_scores_info a) = Some info ∧
       scored_given info = Ok s ∧ finish self a s = Ok d ∧
       o = Output d ∧ a' = with_output_dict a info d).
Proof.
  unfold forward. intros Hf.
  destruct (present (coref_scores_info a)) as [info|].
  - right.
    destruct (scored_given info) as [s|] eqn:Hs; simpl in Hf; [|done].
    destruct (finish self a s) as [d|] eqn:Hd; simpl in Hf; [|done].
    injection Hf as <- <-. eauto 10.
  - left. split; [done|].
    destruct (prune_stage self a) as [[d|p]|] eqn:Hp; simpl in Hf; [| |done].
    + injection Hf as <- <-. eauto.
    + destruct (score_stage self a p) as [[d|s]|] eqn:Hs; simpl in Hf;
        [| |done].
      * injection Hf as <- <-. split; [done|]. right. eauto 10.
      * destruct (finish self a s) as [d|] eqn:Hd; simpl in Hf; [|done].
        injection Hf as <- <-. split; [done|]. right. eauto 10.
Qed.

Lemma forward_CorefScores self a a' st :
  forward self a = Ok (CorefScores st, a') →
  ∃ od idx flat mask lm, st = ret_values od idx flat mask lm.
Proof.
  intros [(_ & _ & [(d & Ho & _)|(p & _ & [(d & Ho & Hs)|(s & d & Ho & _)])])
         |(info & s & d & _ & _ & _ & Ho & _)]%forward_inv; try discriminate.
  injection Ho as <-.
  apply score_stage_inl in Hs as (? & ? & ? & _ & _ & _ & -> & _). eauto 10.
Qed.

Lemma present_ret_values od idx flat mask lm :
  present (Some (ret_values od idx flat mask lm))
  = Some (ret_values od idx flat mask lm).
Proof.
  unfold present, truthy.
  destruct (size (ret_values od idx flat mask lm)) eqn:Hsz; [|done].
  apply map_size_empty_inv in Hsz.
  assert (Hl : ret_values od idx flat mask lm !! "output_dict"
               = Some (VDict od)) by apply lookup_insert_eq.
  rewrite Hsz in Hl. by rewrite lookup_empty in Hl.
Qed.

Lemma scored_given_ret_values od idx flat mask lm :
  scored_given (ret_values od idx flat mask lm)
  = Raise (KeyError "valid_antecedent_log_mask").
Proof.
  unfold scored_given, ret_values, getitem. by simplify_map_eq.
Qed.

(** The state that forward returns under [return_coref_scores] stores the
    antecedent mask under the key ["ant_mask"], while the branch that
    consumes [coref_scores_info] reads ["valid_antecedent_log_mask"]: a
    second call that is handed the returned state as it is raises
    [KeyError]. *)
Lemma returned_state_lacks_mask_key self a a' a2 st :
  forward self a = Ok (CorefScores st, a') →
  coref_scores_info a2 = Some st →
  forward self a2 = Raise (KeyError "valid_antecedent_log_mask").
Proof.
  intros Hf Hinfo.
  apply forward_CorefScores in Hf as (od & idx & flat & mask & lm & ->).
  unfold forward. rewrite Hinfo, present_ret_values.
  by rewrite scored_given_ret_values.
Qed.

End ResumeState.

(** ** The dictionaries that the stages build *)

Section Stages.
Context {F : Type} `{Scalar F}.
Implicit Types (self : ALCoreferenceResolver F) (a : Args F).
Implicit Types (p : pruning F) (s : scored F).
Implicit Types (d od info : gmap string (value F)).

Lemma score_stage_inr self a p s :
  score_stage self a p = Ok (inr s) →
  ∃ top_spans scores predicted,
    batched_index_select (p_spans p) (p_top_span_indices p)
                         (p_flat_top_span_indices p) = Ok top_spans ∧
    coreference_scores_of self p = Ok scores ∧
    decode scores = Ok predicted ∧
    return_coref_scores a = false ∧
    s = Scored (make_output_dict a top_spans (window_of self p).1.1
                                 predicted scores)
               (p_top_span_indices p) (p_flat_top_span_indices p)
               (p_top_span_mask p) (window_of self p).2 top_spans
               (window_of self p).1.1 scores predicted.
Proof.
  unfold score_stage, window_of, _generate_valid_antecedents. simpl.
  intros Hs.
  destruct (batched_index_select _ _ _) as [top_spans|] eqn:Ht;
    simpl in Hs; [|done].
  destruct (coreference_scores_of self p) as [scores|] eqn:Hc;
    simpl in Hs; [|done].
  destruct (decode scores) as [predicted|] eqn:Hd; simpl in Hs; [|done].
  destruct (return_coref_scores a); [done|].
  injection Hs as <-. by exists top_spans, scores, predicted.
Qed.

Lemma make_output_dict_lookup a top_spans idx predicted scores :
  make_output_dict a top_spans idx predicted scores !! "top_spans"
    = Some (VSpans top_spans) ∧
  make_output_dict a top_spans idx predicted scores !! "antecedent_indices"
    = Some (VL2 idx) ∧
  make_output_dict a top_spans idx predicted scores !! "predicted_antecedents"
    = Some (VL2 predicted) ∧
  make_output_dict a top_spans idx predicted scores !! "loss" = None.
Proof.
  unfold make_output_dict.
  destruct (get_scores a || return_coref_scores a); by simplify_map_eq.
Qed.

(** The tail of forward only writes the keys ["top_span_indices"],
    ["loss"] and ["document"]. *)
Lemma finish_lookup self a s d k :
  finish self a s = Ok d →
  k ≠ "top_span_indices" → k ≠ "loss" → k ≠ "document" →
  d !! k = s_output_dict s !! k.
Proof.
  unfold finish. intros Hf ? ? ?.
  destruct (span_labels a) as [labels|], (metadata a) as [md|],
    (get_scores a); res_inv; by simplify_map_eq.
Qed.

Lemma finish_loss_Some self a s d labels :
  finish self a s = Ok d → span_labels a = Some labels →
  ∃ l, loss_of self a labels s = Ok l ∧ d !! "loss" = Some (VScalar l).
Proof.
  unfold finish. intros Hf Hl. rewrite Hl in Hf.
  destruct (loss_of self a labels s) as [l|]; simpl in Hf; [|done].
  exists l. split; [done|].
  destruct (metadata a) as [md|], (get_scores a); res_inv; by simplify_map_eq.
Qed.

Lemma finish_loss_None self a s d :
  finish self a s = Ok d → span_labels a = None →
  d !! "loss" = s_output_dict s !! "loss".
Proof.
  unfold finish. intros Hf Hl. rewrite Hl in Hf.
  destruct (metadata a) as [md|], (get_scores a); res_inv; by simplify_map_eq.
Qed.

Lemma getitem_Ok d k (v : value F) : getitem d k = Ok v → d !! k = Some v.
Proof. unfold getitem. destruct (d !! k); [by intros [= ->]|done]. Qed.

Lemma as_F2_Ok (v : value F) t : as_F2 v = Ok t → v = VF2 t.
Proof. destruct v; simpl; try done. by intros [= ->]. Qed.

Lemma as_F3_Ok (v : value F) t : as_F3 v = Ok t → v = VF3 t.
Proof. destruct v; simpl; try done. by intros [= ->]. Qed.

Lemma as_L1_Ok (v : value F) t : as_L1 v = Ok t → v = VL1 t.
Proof. destruct v; simpl; try done. by intros [= ->]. Qed.

Lemma as_L2_Ok (v : value F) t : as_L2 v = Ok t → v = VL2 t.
Proof. destruct v; simpl; try done. by intros [= ->]. Qed.

Lemma as_Spans_Ok (v : value F) t : as_Spans v = Ok t → v = VSpans t.
Proof. destruct v; simpl; try done. by intros [= ->]. Qed.

Lemma as_Dict_Ok (v : value F) t : as_Dict v = Ok t → v = VDict t.
Proof. destruct v; simpl; try done. by intros [= ->]. Qed.

Lemma list_item_Ok (v x : value F) i :
  list_item v i = Ok x → ∃ l, v = VList l ∧ l !! i = Some x.
Proof.
  destruct v as [| | | | | | | |l|]; simpl; try done.
  destruct (l !! i) eqn:Hl; [|done]. intros [= ->]. eauto.
Qed.

(** Reading one typed entry of a dictionary. *)
Ltac getitem_inv :=
  repeat match goal with
  | H : getitem _ _ = Ok _ |- _ => apply getitem_Ok in H
  | H : as_F2 _ = Ok _ |- _ => apply as_F2_Ok in H; subst
  | H : as_F3 _ = Ok _ |- _ => apply as_F3_Ok in H; subst
  | H : as_L1 _ = Ok _ |- _ => apply as_L1_Ok in H; subst
  | H : as_L2 _ = Ok _ |- _ => apply as_L2_Ok in H; subst
  | H : as_Spans _ = Ok _ |- _ => apply as_Spans_Ok in H; subst
  | H : as_Dict _ = Ok _ |- _ => apply as_Dict_Ok in H; subst
  end.

Lemma scored_given_inv info s :
  scored_given info = Ok s →
  ∃ od l,
    info !! "top_span_inds" = Some (VList l) ∧
    l !! 0%nat = Some (VL2 (s_top_span_indices s)) ∧
    l !! 1%nat = Some (VL1 (s_flat_top_span_indices s)) ∧
    info !! "top_span_mask" = Some (VF2 (s_top_span_mask s)) ∧
    info !! "valid_antecedent_log_mask"
      = Some (VF2 (s_valid_antecedent_log_mask s)) ∧
    info !! "output_dict" = Some (VDict od) ∧
    od !! "top_spans" = Some (VSpans (s_top_spans s)) ∧
    od !! "antecedent_indices" = Some (VL2 (s_valid_antecedent_indices s)) ∧
    od !! "coreference_scores" = Some (VF3 (s_coreference_scores s)) ∧
    decode (s_coreference_scores s) = Ok (s_predicted_antecedents s) ∧
    s_output_dict s
      = <["predicted_antecedents" := VL2 (s_predicted_antecedents s)]> od.
Proof.
  unfold scored_given. intros Hs. res_inv. getitem_inv.
  repeat match goal with
  | H : list_item _ _ = Ok _ |- _ =>
      apply list_item_Ok in H as (? & -> & H)
  end.
  simpl.
  match goal with
  | H1 : info !! "top_span_inds" = Some (VList ?l1),
    H2 : info !! "top_span_inds" = Some (VList ?l2) |- _ =>
      rewrite H1 in H2; injection H2 as <-
  end.
  eauto 20.
Qed.

Lemma scored_given_output_dict info s :
  scored_given info = Ok s →
  ∃ od, info !! "output_dict" = Some (VDict od) ∧
        s_output_dict s
        = <["predicted_antecedents" := VL2 (s_predicted_antecedents s)]> od.
Proof.
  intros (od & l & ? & ? & ? & ? & ? & ? & ? & ? & ? & ? & ?)%scored_given_inv.
  eauto.
Qed.

(** The early returns build their dictionaries from scratch, without a
    loss. *)
Lemma prune_stage_inl_loss self a d :
  prune_stage self a = Ok (inl d) → d !! "loss" = None.
Proof.
  unfold prune_stage. destruct (present (top_spans_info a)).
  - intros Hp. res_inv.
  - unfold prune_fresh. intros Hp. res_inv.
    destruct (return_mention_scores a); res_inv. by simplify_map_eq.
Qed.

End Stages.

(** ** The loss entry of the output (claim C8) *)

Section LossEntry.
Context {F : Type} `{Scalar F}.
Implicit Types (self : ALCoreferenceResolver F) (a : Args F).

(** C8, as the code has it.  The two staged returns (mention scores,
    coreference-score state) never carry a loss, also not inside the
    returned output dictionary.  A call that completes prediction (the
    return of line 341) yields a dictionary with a ["loss"] entry exactly
    when [span_labels] is supplied or the output dictionary handed in under
    [coref_scores_info] already carries one: on that branch forward writes
    into the caller's dictionary, and without labels it returns the entry
    it found. *)
Theorem loss_entry_iff_labels self a (o : outcome F) a' :
  forward self a = Ok (o, a') →
  match o with
  | Output d =>
      (is_Some (d !! "loss") ↔ is_Some (span_labels a) ∨ stale_loss a) ∧
      (present (coref_scores_info a) = None →
       is_Some (d !! "loss") ↔ is_Some (span_labels a)) ∧
      (span_labels a = None →
       ∀ info od, present (coref_scores_info a) = Some info →
                  info !! "output_dict" = Some (VDict od) →
                  d !! "loss" = od !! "loss")
  | MentionScores d => d !! "loss" = None
  | CorefScores d =>
      d !! "loss" = None ∧
      ∀ od, d !! "output_dict" = Some (VDict od) → od !! "loss" = None
  end.
Proof.
  intros Hf.
  assert (Hlab : ∀ s d, finish self a s = Ok d →
            is_Some (span_labels a) → is_Some (d !! "loss")).
  { intros s d Hd [labels Hl].
    destruct (finish_loss_Some _ _ _ _ _ Hd Hl) as (l & _ & ->). eauto. }
  assert (Hfresh : ∀ s d, finish self a s = Ok d →
            present (coref_scores_info a) = None →
            s_output_dict s !! "loss" = None →
            (is_Some (d !! "loss") ↔ is_Some (span_labels a) ∨ stale_loss a) ∧
            (present (coref_scores_info a) = None →
             is_Some (d !! "loss") ↔ is_Some (span_labels a)) ∧
            (span_labels a = None →
             ∀ info od, present (coref_scores_info a) = Some info →
                        info !! "output_dict" = Some (VDict od) →
                        d !! "loss" = od !! "loss")).
  { intros s d Hd Hnone Hod.
    assert (Hiff : is_Some (d !! "loss") ↔ is_Some (span_labels a)).
    { split; [|by eapply Hlab].
      destruct (span_labels a) as [labels|] eqn:Hl; [by eauto|].
      rewrite (finish_loss_None _ _ _ _ Hd Hl), Hod. by intros [? ?]. }
    split; [|split; [done|]].
    - rewrite Hiff. split; [by left|].
      intros [?|(info & ? & ? & _)]; [done|congruence].
    - intros _ info od ?. congruence. }
  apply forward_inv in Hf
    as [(Hnone & _ & [(d & -> & Hp)|(p & _ & [(d & -> & Hs)|(s & d & -> & Hs & Hd)])])
       |(info & s & d & Hinfo & Hs & Hd & -> & _)].
  - by eapply prune_stage_inl_loss.
  - apply score_stage_inl in Hs as (ts & sc & pr & _ & _ & _ & -> & _).
    split; [by unfold ret_values; simplify_map_eq|].
    intros od. unfold ret_values. rewrite lookup_insert_eq.
    intros [= <-]. apply make_output_dict_lookup.
  - apply (Hfresh s d Hd Hnone).
    apply score_stage_inr in Hs as (ts & sc & pr & _ & _ & _ & _ & ->).
    apply make_output_dict_lookup.
  - apply scored_given_output_dict in Hs as (od & Hod & Hso).
    assert (Hkeep : span_labels a = None → d !! "loss" = od !! "loss").
    { intros Hl. rewrite (finish_loss_None _ _ _ _ Hd Hl), Hso.
      by rewrite lookup_insert_ne. }
    split; [|split].
    + split.
      * intros Hsome. destruct (span_labels a) as [labels|] eqn:Hl;
          [by left; eauto|].
        right. exists info, od. rewrite <- (Hkeep eq_refl). done.
      * intros [Hl|(info' & od' & Hinfo' & Hod' & Hsome)].
        -- by eapply Hlab.
        -- rewrite Hinfo in Hinfo'. injection Hinfo' as <-.
           rewrite Hod in Hod'. injection Hod' as <-.
           destruct (span_labels a) as [labels|] eqn:Hl;
             [eapply Hlab; eauto|].
           by rewrite (Hkeep eq_refl).
    + congruence.
    + intros Hl info' od' Hinfo' Hod'.
      rewrite Hinfo in Hinfo'. injection Hinfo' as <-.
      rewrite Hod in Hod'. injection Hod' as <-. by apply Hkeep.
Qed.

End LossEntry.

(** ** The antecedent window *)

Lemma map_fmap {A B} (f : A → B) (l : list A) : map f l = f <$> l.
Proof. reflexivity. Qed.

Lemma lookup_map {A B} (f : A → B) (l : list A) (i : nat) :
  map f l !! i = f <$> l !! i.
Proof. rewrite map_fmap. apply list_lookup_fmap. Qed.

Lemma lookup_map_Some {A B} (f : A → B) (l : list A) (i : nat) (y : B) :
  map f l !! i = Some y ↔ ∃ x, l !! i = Some x ∧ y = f x.
Proof.
  rewrite lookup_map. destruct (l !! i) as [x|]; simpl.
  - split; [intros [= <-]; eauto | by intros (? & [= <-] & ->)].
  - split; [done | by intros (? & ? & _)].
Qed.

Lemma lookup_range (size : Z) (i : nat) (k : Z) :
  get_range_vector size !! i = Some k ↔ k = Z.of_nat i ∧ Z.of_nat i < size.
Proof. unfold get_range_vector. rewrite lookup_seqZ. naive_solver. Qed.

Section Window.
Context {F : Type} `{Scalar F}.

Lemma window_indices_length K W :
  length (_generate_valid_antecedents (F:=F) K W).1.1 = Z.to_nat K.
Proof.
  unfold _generate_valid_antecedents, get_range_vector. simpl.
  by rewrite !length_map, length_seqZ.
Qed.

Lemma window_mask_length K W :
  length (_generate_valid_antecedents (F:=F) K W).2 = Z.to_nat K.
Proof.
  unfold _generate_valid_antecedents, get_range_vector. simpl.
  by rewrite !length_map, length_seqZ.
Qed.

Lemma window_offsets K W j o :
  (_generate_valid_antecedents (F:=F) K W).1.2 !! j = Some o ↔
  o = Z.of_nat j + 1 ∧ Z.of_nat j < W.
Proof.
  unfold _generate_valid_antecedents. simpl.
  rewrite lookup_map_Some. setoid_rewrite lookup_range. split.
  - by intros (k & [-> ?] & ->).
  - intros [-> ?]. eauto.
Qed.

(** Row [i] of the index matrix: slot [j] holds [max 0 (i - (j + 1))]. *)
Lemma window_indices_row K W i row :
  (_generate_valid_antecedents (F:=F) K W).1.1 !! i = Some row ↔
  Z.of_nat i < K ∧
  row = map (λ j, relu_long (Z.of_nat i - (j + 1))) (get_range_vector W).
Proof.
  unfold _generate_valid_antecedents. simpl.
  rewrite !lookup_map_Some. setoid_rewrite lookup_map_Some.
  setoid_rewrite lookup_range. split.
  - intros (x & (x0 & [-> ?] & ->) & ->). split; [done|].
    by rewrite !List.map_map.
  - intros [? ->]. eexists. split.
    + eexists. split; [split; [reflexivity|done] | reflexivity].
    + by rewrite !List.map_map.
Qed.

(** Row [i] of the log-mask: slot [j] holds [log 1] when [i - (j + 1)] is
    a position, and [log 0] otherwise. *)
Lemma window_mask_row K W i row :
  (_generate_valid_antecedents (F:=F) K W).2 !! i = Some row ↔
  Z.of_nat i < K ∧
  row = map (λ j, flog (of_bool (0 <=? Z.of_nat i - (j + 1))))
            (get_range_vector W).
Proof.
  unfold _generate_valid_antecedents. simpl.
  rewrite !lookup_map_Some. setoid_rewrite lookup_map_Some.
  setoid_rewrite lookup_range. split.
  - intros (x & (x0 & [-> ?] & ->) & ->). split; [done|].
    by rewrite !List.map_map.
  - intros [? ->]. eexists. split.
    + eexists. split; [split; [reflexivity|done] | reflexivity].
    + by rewrite !List.map_map.
Qed.

Lemma window_indices_width K W :
  Forall (λ row, length row = Z.to_nat W)
         (_generate_valid_antecedents (F:=F) K W).1.1.
Proof.
  apply Forall_lookup. intros i row [_ ->]%window_indices_row.
  unfold get_range_vector. by rewrite length_map, length_seqZ.
Qed.

Lemma window_mask_width K W :
  Forall (λ row, length row = Z.to_nat W)
         (_generate_valid_antecedents (F:=F) K W).2.
Proof.
  apply Forall_lookup. intros i row [_ ->]%window_mask_row.
  unfold get_range_vector. by rewrite length_map, length_seqZ.
Qed.

End Window.

(** ** The fresh-input pruning stage *)

Section FreshPath.
Context {F : Type} `{Scalar F}.
Implicit Types (self : ALCoreferenceResolver F) (a : Args F).
Implicit Types (p : pruning F) (d : gmap string (value F)).

Lemma prune_fresh_inl self a d :
  prune_fresh self a = Ok (inl d) →
  return_mention_scores a = true ∧
  ∃ emb scores K,
    span_embeddings_of self a = Ok emb ∧
    num_spans_to_keep_of self (document_length_of self a) = Ok K ∧
    _mention_pruner_scores self emb (span_mask_of (spans a))
      (size1 (clamp_spans (spans a))) = Ok scores ∧
    d !! "num_spans_to_keep" = Some (VInt K) ∧
    d !! "mention_scores" = Some (VF2 scores) ∧
    d !! "mask" = Some (VF2 (span_mask_of (spans a))) ∧
    d !! "embeds" = Some (VF3 emb) ∧
    d !! "text_mask" = Some (VF2 (get_text_field_mask self (text a))).
Proof.
  unfold prune_fresh, span_embeddings_of, document_length_of. intros Hp.
  destruct (cat_last _ _) as [emb|] eqn:He; simpl in Hp; [|done].
  destruct (num_spans_to_keep_of _ _) as [K|] eqn:HK; simpl in Hp; [|done].
  destruct (_mention_pruner_scores _ _ _ _) as [scores|] eqn:Hs;
    simpl in Hp; [|done].
  destruct (return_mention_scores a); [|by res_inv].
  injection Hp as <-. split; [done|]. exists emb, scores, K.
  repeat split; try done; by simplify_map_eq.
Qed.

Lemma prune_fresh_inr self a p :
  prune_fresh self a = Ok (inr p) →
  return_mention_scores a = false ∧
  ∃ emb scores po K,
    span_embeddings_of self a = Ok emb ∧
    _mention_pruner_scores self emb (span_mask_of (spans a))
      (size1 (clamp_spans (spans a))) = Ok scores ∧
    _mention_pruner self emb (span_mask_of (spans a)) K scores = Ok po ∧
    p = Pruning (clamp_spans (spans a)) scores (po_scores po) K
          (po_indices po)
          (flatten_and_batch_shift_indices (po_indices po) (size1 (spans a)))
          (po_mask po) emb (po_embeddings po)
          (get_text_field_mask self (text a)) ∧
    num_spans_to_keep_of self (document_length_of self a) = Ok K.
Proof.
  unfold prune_fresh, span_embeddings_of, document_length_of. intros Hp.
  destruct (cat_last _ _) as [emb|] eqn:He; simpl in Hp; [|done].
  destruct (num_spans_to_keep_of _ _) as [K|] eqn:HK; simpl in Hp; [|done].
  destruct (_mention_pruner_scores _ _ _ _) as [scores|] eqn:Hs;
    simpl in Hp; [|done].
  destruct (return_mention_scores a); [by res_inv|].
  destruct (_mention_pruner _ _ _ _ _) as [po|] eqn:Hpo; simpl in Hp; [|done].
  injection Hp as <-. split; [done|]. by exists emb, scores, po, K.
Qed.

End FreshPath.

(** ** The score matrix *)

Section Scores.
Context {F : Type} `{Scalar F}.
Implicit Types (self : ALCoreferenceResolver F) (p : pruning F).

(** An entry of the score matrix: slot 0 is the constant of the "no
    antecedent" option; slot [j + 1] is a sum that ends with entry [j] of
    the log-mask row of its span. *)
Lemma _compute_coreference_scores_entry self pairwise top_scores ant_scores
    (log_mask : list (list F)) scores b sb i row :
  _compute_coreference_scores self pairwise top_scores ant_scores log_mask
    = Ok scores →
  scores !! b = Some sb → sb !! i = Some row →
  length sb = length log_mask ∧
  ∃ ant mrow,
    row = fzero :: ant ∧ log_mask !! i = Some mrow ∧
    length ant = length mrow ∧
    ∀ j x, ant !! j = Some x →
      ∃ y m, mrow !! j = Some m ∧ x = fadd y m.
Proof.
  unfold _compute_coreference_scores. intros Hc Hb Hi.
  destruct (zipR _ top_scores ant_scores) as [ms|]; simpl in Hc; [|done].
  destruct (zipR _ _ ms) as [as2|]; simpl in Hc; [|done].
  destruct (mapR _ as2) as [as3|] eqn:Has3; simpl in Hc; [|done].
  injection Hc as <-.
  apply lookup_map_Some in Hb as (sb3 & Hb3 & ->).
  apply lookup_map_Some in Hi as (r3 & Hr3 & ->).
  destruct (mapR_lookup _ _ _ _ _ Has3 Hb3) as (sb2 & _ & Hz).
  rewrite length_map. split; [by apply zipR_length in Hz as [_ ?]|].
  destruct (zipR_lookup _ _ _ _ _ _ Hz Hr3) as (r2 & mrow & _ & Hm & Hrow).
  exists r3, mrow. repeat split; [done|by apply zipR_length in Hrow as [_ ?]|].
  intros j x Hx.
  destruct (zipR_lookup _ _ _ _ _ _ Hrow Hx) as (y & m & _ & Hmj & [= <-]).
  eauto.
Qed.

Lemma _compute_coreference_scores_length self pairwise top_scores ant_scores
    (log_mask : list (list F)) scores b sb :
  _compute_coreference_scores self pairwise top_scores ant_scores log_mask
    = Ok scores →
  scores !! b = Some sb → length sb = length log_mask.
Proof.
  unfold _compute_coreference_scores. intros Hc Hb.
  destruct (zipR _ top_scores ant_scores) as [ms|]; simpl in Hc; [|done].
  destruct (zipR _ _ ms) as [as2|]; simpl in Hc; [|done].
  destruct (mapR _ as2) as [as3|] eqn:Has3; simpl in Hc; [|done].
  injection Hc as <-.
  apply lookup_map_Some in Hb as (sb3 & Hb3 & ->).
  destruct (mapR_lookup _ _ _ _ _ Has3 Hb3) as (sb2 & _ & Hz).
  rewrite length_map. by apply zipR_length in Hz as [_ ?].
Qed.

Lemma coreference_scores_of_inv self p scores :
  coreference_scores_of self p = Ok scores →
  ∃ pairwise ant_scores,
    _compute_coreference_scores self pairwise (p_top_span_mention_scores p)
      ant_scores (window_of self p).2 = Ok scores.
Proof.
  unfold coreference_scores_of, window_of, _generate_valid_antecedents.
  simpl. intros Hc.
  destruct (flattened_index_select (p_top_span_embeddings p) _);
    simpl in Hc; [|done].
  destruct (flattened_index_select (p_top_span_mention_scores p) _);
    simpl in Hc; [|done].
  destruct (_compute_span_pair_embeddings _ _ _ _); simpl in Hc; [|done].
  eauto.
Qed.

(** The rows of the score matrix that forward builds: one per kept span,
    [1 + W] slots wide, with the log-mask of the window added last. *)
Lemma coreference_scores_of_row self p scores b sb i row :
  coreference_scores_of self p = Ok scores →
  scores !! b = Some sb → sb !! i = Some row →
  let K := p_num_spans_to_keep p in
  let W := Z.min (_max_antecedents self) K in
  length sb = Z.to_nat K ∧
  ∃ ant,
    row = fzero :: ant ∧ length ant = Z.to_nat W ∧
    ∀ j x, ant !! j = Some x →
      ∃ y, x = fadd y (flog (of_bool (0 <=? Z.of_nat i - (Z.of_nat j + 1)))).
Proof.
  intros (pw & asc & Hc)%coreference_scores_of_inv Hb Hi. simpl.
  destruct (_compute_coreference_scores_entry _ _ _ _ _ _ _ _ _ _ Hc Hb Hi)
    as (Hlen & ant & mrow & -> & Hm & Hla & Hant).
  unfold window_of in Hlen, Hm. rewrite window_mask_length in Hlen.
  split; [done|]. exists ant.
  apply window_mask_row in Hm as [_ ->].
  rewrite length_map in Hla. unfold get_range_vector in Hla.
  rewrite length_seqZ in Hla.
  repeat split; [done|]. intros j x Hx.
  destruct (Hant j x Hx) as (y & m & Hmj & ->).
  apply lookup_map_Some in Hmj as (k & [-> _]%lookup_range & ->). eauto.
Qed.

Lemma coreference_scores_of_length self p scores :
  coreference_scores_of self p = Ok scores →
  Forall (λ sb, length sb = Z.to_nat (p_num_spans_to_keep p)) scores.
Proof.
  intros (pw & asc & Hc)%coreference_scores_of_inv.
  apply Forall_lookup. intros b sb Hb.
  rewrite (_compute_coreference_scores_length _ _ _ _ _ _ _ _ Hc Hb).
  unfold window_of. apply window_mask_length.
Qed.

(** The score matrix is the matrix of unmasked antecedent scores with the
    log-mask added, behind the constant of the "no antecedent" option. *)
Lemma coreference_scores_of_unmasked self p scores :
  coreference_scores_of self p = Ok scores →
  ∃ raw masked,
    unmasked_scores_of self p = Ok raw ∧
    mapR (λ sc, zipR (zipR (λ a m, Ok (fadd a m))) sc (window_of self p).2)
         raw = Ok masked ∧
    scores = map (map (cons fzero)) masked.
Proof.
  unfold coreference_scores_of, unmasked_scores_of, window_of,
    _generate_valid_antecedents, _compute_coreference_scores,
    unmasked_antecedent_scores.
  simpl. intros Hc.
  destruct (flattened_index_select (p_top_span_embeddings p) _);
    simpl in *; [|done].
  destruct (flattened_index_select (p_top_span_mention_scores p) _);
    simpl in *; [|done].
  destruct (_compute_span_pair_embeddings _ _ _ _); simpl in *; [|done].
  destruct (zipR _ (p_top_span_mention_scores p) _) as [ms|];
    simpl in *; [|done].
  destruct (zipR _ _ ms) as [raw|]; simpl in *; [|done].
  destruct (mapR _ raw) as [masked|] eqn:Hm; simpl in *; [|done].
  injection Hc as <-. by exists raw, masked.
Qed.

(** Slot [j + 1] of the row of the kept span at position [i]: the unmasked
    score at [(i, j)] plus the log-mask of the offset [j + 1]. *)
Lemma coreference_scores_of_slot self p scores raw b sb i row :
  coreference_scores_of self p = Ok scores →
  unmasked_scores_of self p = Ok raw →
  scores !! b = Some sb → sb !! i = Some row →
  ∃ rb rrow,
    raw !! b = Some rb ∧ rb !! i = Some rrow ∧
    length row = S (length rrow) ∧
    ∀ j x, row !! S j = Some x →
      ∃ y, rrow !! j = Some y ∧
           x = fadd y (flog (of_bool (0 <=? Z.of_nat i - (Z.of_nat j + 1)))).
Proof.
  intros (raw' & masked & Hraw' & Hm & ->)%coreference_scores_of_unmasked
    Hraw Hb Hi.
  rewrite Hraw in Hraw'. injection Hraw' as <-.
  apply lookup_map_Some in Hb as (mb & Hmb & ->).
  apply lookup_map_Some in Hi as (mrow & Hmrow & ->).
  destruct (mapR_lookup _ _ _ _ _ Hm Hmb) as (rb & Hrb & Hz).
  destruct (zipR_lookup _ _ _ _ _ _ Hz Hmrow) as (rrow & lm & Hrrow & Hlm & Hrow).
  exists rb, rrow. split; [done|]. split; [done|].
  split; [simpl; by apply zipR_length in Hrow as [-> _]|].
  intros j x Hx. simpl in Hx.
  destruct (zipR_lookup _ _ _ _ _ _ Hrow Hx) as (y & m & Hy & Hmj & [= <-]).
  exists y. split; [done|].
  unfold window_of in Hlm. apply window_mask_row in Hlm as [_ ->].
  by apply lookup_map_Some in Hmj as (k & [-> _]%lookup_range & ->).
Qed.

End Scores.

(** ** Decoding: the first maximum of a row *)

Section Decode.
Context {F : Type} `{ScalarOrder F}.

Lemma max_from_first_argmax (pre xs : list F) (best : F) (nbi : nat) :
  pre !! nbi = Some best →
  (∀ k x, pre !! k = Some x → fltb best x = false) →
  (∀ k x, pre !! k = Some x → (k < nbi)%nat → fltb x best = true) →
  first_argmax (pre ++ xs)
    (max_from best (Z.of_nat nbi) (Z.of_nat (length pre)) xs).2.
Proof.
  revert pre best nbi. induction xs as [|x xs IH]; intros pre best nbi Hb Hmax Hfst.
  - simpl. rewrite app_nil_r. exists best. rewrite Nat2Z.id.
    repeat split; [lia|done|done|]. intros k y Hy Hk. apply (Hfst k y Hy). lia.
  - simpl. rewrite (cons_middle x pre xs), app_assoc.
    replace (Z.of_nat (length pre) + 1) with (Z.of_nat (length (pre ++ [x])))
      by (rewrite length_app; simpl; lia).
    destruct (fltb best x) eqn:Hlt.
    + apply IH.
      * by apply list_lookup_middle.
      * intros k y [Hy|[_ [_ <-]%list_lookup_singleton_Some]]%lookup_app_Some.
        -- destruct (fltb x y) eqn:Hxy; [|done].
           rewrite <- (Hmax k y Hy). symmetry. by eapply fltb_trans.
        -- apply fltb_irrefl.
      * intros k y Hy Hk. rewrite lookup_app_l in Hy by done.
        destruct (fltb_cotrans best y x Hlt) as [Hby|]; [|done].
        by rewrite (Hmax k y Hy) in Hby.
    + apply IH.
      * rewrite lookup_app_l; [done|]. by eapply lookup_lt_Some.
      * intros k y [Hy|[_ [_ <-]%list_lookup_singleton_Some]]%lookup_app_Some;
          [by eapply Hmax | done].
      * intros k y Hy Hk. rewrite lookup_app_l in Hy; [by eapply Hfst|].
        apply lookup_lt_Some in Hb. lia.
Qed.

Lemma tensor_max_first_argmax (row : list F) m slot :
  tensor_max row = Ok (m, slot) → first_argmax row slot.
Proof.
  destruct row as [|x xs]; simpl; [done|]. intros [= Hm].
  assert (Hspec : first_argmax ([x] ++ xs)
            (max_from x (Z.of_nat 0) (Z.of_nat (length [x])) xs).2).
  { apply max_from_first_argmax; [done| |].
    - intros [|k] y; simpl; [|done]. intros [= <-]. apply fltb_irrefl.
    - intros k y _ Hk. lia. }
  change (Z.of_nat 0) with 0 in Hspec.
  change (Z.of_nat (length [x])) with 1 in Hspec.
  by rewrite Hm in Hspec.
Qed.

(** [decode] maps every row of the score matrix to the position of its
    first maximum, minus one. *)
Lemma decode_first_argmax (scores : list (list (list F))) predicted :
  decode scores = Ok predicted →
  Forall2 (Forall2 (λ row v, ∃ slot, first_argmax row slot ∧ v = slot - 1))
          scores predicted.
Proof.
  unfold decode. intros Hd%mapR_Forall2.
  eapply Forall2_impl; [exact Hd|]. intros sb pb Hb%mapR_Forall2.
  eapply Forall2_impl; [exact Hb|]. intros row v Hv. simpl in Hv.
  destruct (tensor_max row) as [[m slot]|] eqn:Hm; simpl in Hv; [|done].
  injection Hv as <-. exists slot. split; [|done].
  by eapply tensor_max_first_argmax.
Qed.

End Decode.

(** ** Predicted antecedents (claims C2 and C5) *)

Section Predicted.
Context {F : Type} `{ScalarOrder F}.
Implicit Types (self : ALCoreferenceResolver F) (a : Args F).
Implicit Types (p : pruning F) (d od : gmap string (value F)).

(** Every call that returns an output dictionary decodes the score matrix
    of the call and stores the result under ["predicted_antecedents"]. *)
Lemma forward_decodes self a (o : outcome F) a' od :
  forward self a = Ok (o, a') → output_dict_of o = Some od →
  ∃ scores predicted,
    score_matrix_of self a = Ok scores ∧
    decode scores = Ok predicted ∧
    od !! "predicted_antecedents" = Some (VL2 predicted).
Proof.
  intros Hf Ho. unfold score_matrix_of.
  apply forward_inv in Hf
    as [(-> & _ & [(d & -> & Hp)|(p & -> & [(d & -> & Hs)|(s & d & -> & Hs & Hd)])])
       |(info & s & d & -> & Hs & Hd & -> & _)]; simpl in Ho |- *.
  - done.
  - apply score_stage_inl in Hs as (ts & sc & pr & _ & Hsc & Hdec & -> & _).
    unfold ret_values in Ho. rewrite lookup_insert_eq in Ho.
    injection Ho as <-. exists sc, pr. repeat split; [done..|].
    apply make_output_dict_lookup.
  - injection Ho as <-.
    rewrite (finish_lookup _ _ _ _ "predicted_antecedents" Hd) by done.
    apply score_stage_inr in Hs as (ts & sc & pr & _ & Hsc & Hdec & _ & ->).
    exists sc, pr. repeat split; [done..|]. apply make_output_dict_lookup.
  - injection Ho as <-.
    rewrite (finish_lookup _ _ _ _ "predicted_antecedents" Hd) by done.
    apply scored_given_inv in Hs
      as (od & l & _ & _ & _ & _ & _ & Hod & _ & _ & Hsc & Hdec & ->).
    exists (s_coreference_scores s), (s_predicted_antecedents s).
    unfold getitem. rewrite Hod. simpl. rewrite Hsc. simpl.
    repeat split; [done|]. apply lookup_insert_eq.
Qed.

(** C2.  The predicted antecedent of a kept span is the position of the
    first maximum of its row of the score matrix, minus one: slot 0, the
    "no antecedent" option, gives -1 and slot [j > 0] gives [j - 1].  The
    tensor has one row per batch element of the score matrix and one entry
    per kept span: [num_spans_to_keep] entries when forward builds the
    matrix itself. *)
Theorem predicted_antecedents_are_argmax self a (o : outcome F) a' od :
  forward self a = Ok (o, a') → output_dict_of o = Some od →
  ∃ scores predicted,
    score_matrix_of self a = Ok scores ∧
    od !! "predicted_antecedents" = Some (VL2 predicted) ∧
    Forall2 (Forall2 (λ row v, ∃ slot, first_argmax row slot ∧ v = slot - 1))
            scores predicted ∧
    (∀ p, present (coref_scores_info a) = None →
          prune_stage self a = Ok (inr p) →
          Forall (λ pb, length pb = Z.to_nat (p_num_spans_to_keep p))
                 predicted).
Proof.
  intros Hf Ho.
  destruct (forward_decodes _ _ _ _ _ Hf Ho) as (sc & pr & Hsc & Hdec & Hod).
  exists sc, pr. apply decode_first_argmax in Hdec as Hspec.
  repeat split; [done..|]. intros p Hnone Hp.
  unfold score_matrix_of in Hsc. rewrite Hnone, Hp in Hsc. simpl in Hsc.
  apply coreference_scores_of_length in Hsc.
  apply Forall_lookup. intros b pb Hpb.
  destruct (Forall2_lookup_r _ _ _ _ _ Hspec Hpb) as (sb & Hsb & Hrow).
  rewrite <- (Forall2_length _ _ _ Hrow).
  by eapply (Forall_lookup_1 _ _ _ _ Hsc).
Qed.

(** When forward builds the score matrix, the output dictionary carries the
    index matrix of the antecedent window of the pruning results. *)
Lemma forward_window self a (o : outcome F) a' od :
  present (coref_scores_info a) = None →
  forward self a = Ok (o, a') → output_dict_of o = Some od →
  ∃ p, prune_stage self a = Ok (inr p) ∧
       od !! "antecedent_indices" = Some (VL2 (window_of self p).1.1).
Proof.
  intros Hnone Hf Ho.
  apply forward_inv in Hf
    as [(_ & _ & [(d & -> & Hp)|(p & Hp & [(d & -> & Hs)|(s & d & -> & Hs & Hd)])])
       |(info & s & d & Hsome & _)]; simpl in Ho.
  - done.
  - apply score_stage_inl in Hs as (ts & sc & pr & _ & _ & _ & -> & _).
    unfold ret_values in Ho. rewrite lookup_insert_eq in Ho.
    injection Ho as <-. exists p. split; [done|].
    apply make_output_dict_lookup.
  - injection Ho as <-. exists p. split; [done|].
    rewrite (finish_lookup _ _ _ _ "antecedent_indices" Hd) by done.
    apply score_stage_inr in Hs as (ts & sc & pr & _ & _ & _ & _ & ->).
    apply make_output_dict_lookup.
  - congruence.
Qed.

(** C5, as the code has it.  When forward builds the score matrix, and its
    unmasked antecedent scores are neither NaN nor plus infinity, the
    predicted antecedent [v] of the kept span at position [i] satisfies
    [-1 <= v <= i - 1] and lies inside the window; position 0 receives -1;
    and a prediction [v >= 0] names, through the index matrix, the earlier
    kept span [i - 1 - v].  A matrix handed in under [coref_scores_info] is
    decoded as it is. *)
Theorem predicted_antecedent_is_earlier self a (o : outcome F) a' od :
  present (coref_scores_info a) = None → maskable_scores self a →
  forward self a = Ok (o, a') → output_dict_of o = Some od →
  ∃ p predicted idx,
    prune_stage self a = Ok (inr p) ∧
    od !! "predicted_antecedents" = Some (VL2 predicted) ∧
    od !! "antecedent_indices" = Some (VL2 idx) ∧
    ∀ b pb i v, predicted !! b = Some pb → pb !! i = Some v →
      -1 ≤ v ≤ Z.of_nat i - 1 ∧
      v < Z.max 0 (Z.min (_max_antecedents self) (p_num_spans_to_keep p)) ∧
      (Z.of_nat i = 0 → v = -1) ∧
      (0 ≤ v → ∃ row, idx !! i = Some row ∧
                      row !! Z.to_nat v = Some (Z.of_nat i - 1 - v)).
Proof.
  intros Hnone Hmaskable Hf Ho.
  destruct (forward_window _ _ _ _ _ Hnone Hf Ho) as (p & Hp & Hidx).
  destruct (forward_decodes _ _ _ _ _ Hf Ho) as (sc & pr & Hsc & Hdec & Hod).
  exists p, pr, (window_of self p).1.1.
  split; [done|]. split; [done|]. split; [done|].
  unfold score_matrix_of in Hsc. rewrite Hnone, Hp in Hsc. simpl in Hsc.
  destruct (coreference_scores_of_unmasked _ _ _ Hsc) as (raw & _ & Hraw & _).
  specialize (Hmaskable p raw Hp Hraw).
  apply decode_first_argmax in Hdec.
  intros b pb i v Hpb Hv.
  destruct (Forall2_lookup_r _ _ _ _ _ Hdec Hpb) as (sb & Hsb & Hrows).
  destruct (Forall2_lookup_r _ _ _ _ _ Hrows Hv)
    as (row & Hrow & slot & (y & Hslot & Hy & Hmax & Hfst) & ->).
  destruct (coreference_scores_of_row _ _ _ _ _ _ _ Hsc Hsb Hrow)
    as (Hlen & ant & -> & Hla & Hant).
  set (W := Z.min (_max_antecedents self) (p_num_spans_to_keep p)) in *.
  assert (Hi : Z.of_nat i < p_num_spans_to_keep p).
  { apply lookup_lt_Some in Hrow. lia. }
  assert (Hw : slot < 1 + Z.max 0 W).
  { apply lookup_lt_Some in Hy. simpl in Hy. lia. }
  assert (Hle : slot ≤ Z.of_nat i).
  { destruct (decide (slot = 0)) as [->|Hne]; [lia|].
    destruct (Z.to_nat slot) as [|j] eqn:Hj; [lia|].
    destruct (coreference_scores_of_slot _ _ _ _ _ _ _ _ Hsc Hraw Hsb Hrow)
      as (rb & rrow & Hrb & Hrrow & _ & Hslots).
    destruct (Hslots j y Hy) as (y' & Hy' & Hyeq).
    destruct (0 <=? Z.of_nat i - (Z.of_nat j + 1)) eqn:Hb; [lia|].
    simpl in Hyeq.
    assert (Hmy : maskable y').
    { rewrite Forall_lookup in Hmaskable. specialize (Hmaskable _ _ Hrb).
      rewrite Forall_lookup in Hmaskable. specialize (Hmaskable _ _ Hrrow).
      rewrite Forall_lookup in Hmaskable. by eapply Hmaskable. }
    rewrite Hmy in Hyeq.
    assert (Hlt : fltb fzero y = true) by (apply (Hfst 0%nat); [done|lia]).
    rewrite Hyeq, fltb_neg_inf in Hlt. done. }
  split; [lia|]. split; [lia|]. split; [lia|].
  intros Hv0.
  exists (map (λ j, relu_long (Z.of_nat i - (j + 1))) (get_range_vector W)).
  split.
  - apply window_indices_row. done.
  - apply lookup_map_Some. exists (slot - 1). split.
    + apply lookup_range. split; lia.
    + unfold relu_long. lia.
Qed.

End Predicted.

(** ** The number of kept spans and the window width (claims C6, C7) *)

Section KeptSpans.
Context {F : Type} `{Scalar F}.
Implicit Types (self : ALCoreferenceResolver F) (a : Args F).
Implicit Types (p : pruning F) (d od : gmap string (value F)).

Lemma prune_stage_fresh self a :
  fresh_path a → prune_stage self a = prune_fresh self a.
Proof. intros [_ Ht]. unfold prune_stage. by rewrite Ht. Qed.

(** C6, as the code has it.  On the fresh-input path [num_spans_to_keep] is
    the floor of the double-precision product
    [spans_per_word * document_length], whatever the number of valid
    candidates: this is the value that the mention-scores stage reports,
    the number that the pruner is asked to keep, and the number of rows of
    the antecedent window of every call that goes on to score. *)
Theorem num_spans_to_keep_is_floor self a (o : outcome F) a' :
  fresh_path a → forward self a = Ok (o, a') →
  ∃ n K,
    double_of_int (document_length_of self a) = Ok n ∧
    math_floor (double_mul (_spans_per_word self) n) = Ok K ∧
    match o with
    | MentionScores d => d !! "num_spans_to_keep" = Some (VInt K)
    | _ =>
        ∃ od idx emb scores po,
          output_dict_of o = Some od ∧
          od !! "antecedent_indices" = Some (VL2 idx) ∧
          length idx = Z.to_nat K ∧
          span_embeddings_of self a = Ok emb ∧
          _mention_pruner self emb (span_mask_of (spans a)) K scores = Ok po
    end.
Proof.
  intros Hfresh Hf. pose proof Hfresh as [Hnone _].
  assert (Hfloor : ∀ K,
            num_spans_to_keep_of self (document_length_of self a) = Ok K →
            ∃ n, double_of_int (document_length_of self a) = Ok n ∧
                 math_floor (double_mul (_spans_per_word self) n) = Ok K).
  { unfold num_spans_to_keep_of. intros K HK.
    destruct (double_of_int _) as [n|]; simpl in HK; [|done]. eauto. }
  assert (Hwin : ∀ od p, output_dict_of o = Some od →
            prune_stage self a = Ok (inr p) →
            ∃ n K,
              double_of_int (document_length_of self a) = Ok n ∧
              math_floor (double_mul (_spans_per_word self) n) = Ok K ∧
              ∃ idx emb scores po,
                od !! "antecedent_indices" = Some (VL2 idx) ∧
                length idx = Z.to_nat K ∧
                span_embeddings_of self a = Ok emb ∧
                _mention_pruner self emb (span_mask_of (spans a)) K scores
                = Ok po).
  { intros od p Ho Hp.
    destruct (forward_window _ _ _ _ _ Hnone Hf Ho) as (p' & Hp' & Hidx).
    rewrite Hp in Hp'. injection Hp' as <-.
    rewrite prune_stage_fresh in Hp by done.
    apply prune_fresh_inr in Hp
      as (_ & emb & sc & po & K & Hemb & _ & Hpo & -> & HK).
    destruct (Hfloor K HK) as (n & Hn & Hfl).
    exists n, K. split; [done|]. split; [done|].
    eexists _, emb, sc, po. split; [done|].
    split; [|by split]. unfold window_of. simpl.
    apply window_indices_length. }
  apply forward_inv in Hf
    as [(_ & _ & [(d & -> & Hp)|(p & Hp & [(d & -> & Hs)|(s & d & -> & Hs & Hd)])])
       |(info & s & d & Hsome & _)].
  - rewrite prune_stage_fresh in Hp by done.
    apply prune_fresh_inl in Hp as (_ & emb & sc & K & _ & HK & _ & ? & _).
    destruct (Hfloor K HK) as (n & Hn & Hfl). by exists n, K.
  - apply score_stage_inl in Hs as (ts & sc & pr & _ & _ & _ & -> & _).
    edestruct Hwin as (n & K & Hn & Hfl & idx & emb & scs & po & ? & ? & ? & ?);
      [|exact Hp|].
    { unfold ret_values. simpl. by rewrite lookup_insert_eq. }
    exists n, K. split; [done|]. split; [done|].
    eexists _, idx, emb, scs, po. split; [|done].
    unfold ret_values. simpl. by rewrite lookup_insert_eq.
  - destruct (Hwin d p eq_refl Hp)
      as (n & K & Hn & Hfl & idx & emb & scs & po & ? & ? & ? & ?).
    exists n, K. split; [done|]. split; [done|].
    by exists d, idx, emb, scs, po.
  - congruence.
Qed.

(** C7.  The window that a call constructs has one row per kept span and
    [min(max_antecedents, K)] columns, where [K] is the number of kept
    spans of the pruning stage: never more columns than kept spans. *)
Theorem window_width_is_min self a (o : outcome F) a' od :
  present (coref_scores_info a) = None →
  forward self a = Ok (o, a') → output_dict_of o = Some od →
  ∃ p idx,
    prune_stage self a = Ok (inr p) ∧
    od !! "antecedent_indices" = Some (VL2 idx) ∧
    length idx = Z.to_nat (p_num_spans_to_keep p) ∧
    Forall (λ row, length row
                   = Z.to_nat (Z.min (_max_antecedents self)
                                     (p_num_spans_to_keep p))) idx ∧
    Forall (λ row, (length row ≤ length idx)%nat) idx.
Proof.
  intros Hnone Hf Ho.
  destruct (forward_window _ _ _ _ _ Hnone Hf Ho) as (p & Hp & Hidx).
  exists p, (window_of self p).1.1. unfold window_of.
  pose proof (window_indices_width (F:=F) (p_num_spans_to_keep p)
                (Z.min (_max_antecedents self) (p_num_spans_to_keep p)))
    as Hw.
  split; [done|]. split; [done|]. split; [apply window_indices_length|].
  split; [done|].
  eapply Forall_impl; [exact Hw|]. intros row Hrow.
  rewrite Hrow, window_indices_length. lia.
Qed.

End KeptSpans.

(** ** Clamping of the padding spans (claim C10) *)

Section Clamping.
Context {F : Type} `{Scalar F}.
Implicit Types (self : ALCoreferenceResolver F) (a : Args F).
Implicit Types (p : pruning F) (d od : gmap string (value F)).

Lemma clamp_spans_lookup (spans : list (list (Z * Z))) b row n s :
  spans !! b = Some row → row !! n = Some s →
  ∃ crow, clamp_spans spans !! b = Some crow ∧
          crow !! n = Some (Z.max 0 s.1, Z.max 0 s.2).
Proof.
  intros Hb Hn. unfold clamp_spans. rewrite lookup_map, Hb. simpl.
  eexists. split; [done|]. by rewrite lookup_map, Hn.
Qed.

Lemma span_mask_of_lookup (spans : list (list (Z * Z))) b row n s :
  spans !! b = Some row → row !! n = Some s →
  ∃ mrow, span_mask_of (F:=F) spans !! b = Some mrow ∧
          mrow !! n = Some (if 0 <=? s.1 then fone else fzero).
Proof.
  intros Hb Hn. unfold span_mask_of. rewrite lookup_map, Hb. simpl.
  eexists. split; [done|]. by rewrite lookup_map, Hn.
Qed.

(** The kept spans of the output are read from the spans that the pruning
    stage leaves. *)
Lemma forward_top_spans self a (o : outcome F) a' od :
  present (coref_scores_info a) = None →
  forward self a = Ok (o, a') → output_dict_of o = Some od →
  ∃ p ts, prune_stage self a = Ok (inr p) ∧
          batched_index_select (p_spans p) (p_top_span_indices p)
                               (p_flat_top_span_indices p) = Ok ts ∧
          od !! "top_spans" = Some (VSpans ts).
Proof.
  intros Hnone Hf Ho.
  apply forward_inv in Hf
    as [(_ & _ & [(d & -> & Hp)|(p & Hp & [(d & -> & Hs)|(s & d & -> & Hs & Hd)])])
       |(info & s & d & Hsome & _)]; simpl in Ho.
  - done.
  - apply score_stage_inl in Hs as (ts & sc & pr & Hts & _ & _ & -> & _).
    unfold ret_values in Ho. rewrite lookup_insert_eq in Ho.
    injection Ho as <-. exists p, ts. split; [done|]. split; [done|].
    apply make_output_dict_lookup.
  - injection Ho as <-.
    rewrite (finish_lookup _ _ _ _ "top_spans" Hd) by done.
    apply score_stage_inr in Hs as (ts & sc & pr & Hts & _ & _ & _ & ->).
    exists p, ts. split; [done|]. split; [done|].
    apply make_output_dict_lookup.
  - congruence.
Qed.

(** C10.  On the fresh-input path forward leaves the caller's arguments, and
    so the caller's span tensor, as they were.  The clamped spans are a new
    value in which each index [x] is [max 0 x]; the validity mask is taken
    from the caller's spans, before clamping: an entry is one exactly when
    the start index is at least 0.  The mask is the one that the
    mention-scores stage reports and that the pruner receives, and the
    clamped spans are the ones from which the kept spans are read. *)
Theorem clamping_is_pure self a (o : outcome F) a' :
  fresh_path a → forward self a = Ok (o, a') →
  a' = a ∧
  (∀ b row n s, spans a !! b = Some row → row !! n = Some s →
     ∃ crow mrow,
       clamp_spans (spans a) !! b = Some crow ∧
       crow !! n = Some (Z.max 0 s.1, Z.max 0 s.2) ∧
       span_mask_of (F:=F) (spans a) !! b = Some mrow ∧
       mrow !! n = Some (if 0 <=? s.1 then fone else fzero)) ∧
  match o with
  | MentionScores d => d !! "mask" = Some (VF2 (span_mask_of (spans a)))
  | _ =>
      ∃ p od ts emb scores po,
        prune_stage self a = Ok (inr p) ∧
        _mention_pruner self emb (span_mask_of (spans a))
          (p_num_spans_to_keep p) scores = Ok po ∧
        p_top_span_mask p = po_mask po ∧
        p_top_span_indices p = po_indices po ∧
        output_dict_of o = Some od ∧
        od !! "top_spans" = Some (VSpans ts) ∧
        batched_index_select (clamp_spans (spans a)) (po_indices po)
          (flatten_and_batch_shift_indices (po_indices po) (size1 (spans a)))
          = Ok ts
  end.
Proof.
  intros Hfresh Hf. pose proof Hfresh as [Hnone _].
  split; [|split].
  - apply forward_inv in Hf as [(_ & -> & _)|(info & _ & _ & ? & _)];
      [done|congruence].
  - intros b row n s Hb Hn.
    destruct (clamp_spans_lookup _ _ _ _ _ Hb Hn) as (crow & ? & ?).
    destruct (span_mask_of_lookup _ _ _ _ _ Hb Hn) as (mrow & ? & ?).
    by exists crow, mrow.
  - assert (Hout : ∀ od, output_dict_of o = Some od →
      ∃ p od ts emb scores po,
        prune_stage self a = Ok (inr p) ∧
        _mention_pruner self emb (span_mask_of (spans a))
          (p_num_spans_to_keep p) scores = Ok po ∧
        p_top_span_mask p = po_mask po ∧
        p_top_span_indices p = po_indices po ∧
        output_dict_of o = Some od ∧
        od !! "top_spans" = Some (VSpans ts) ∧
        batched_index_select (clamp_spans (spans a)) (po_indices po)
          (flatten_and_batch_shift_indices (po_indices po) (size1 (spans a)))
          = Ok ts).
    { intros od Ho.
      destruct (forward_top_spans _ _ _ _ _ Hnone Hf Ho)
        as (p & ts & Hp & Hts & Hod).
      pose proof Hp as Hp'. rewrite prune_stage_fresh in Hp' by done.
      apply prune_fresh_inr in Hp'
        as (_ & emb & sc & po & K & _ & _ & Hpo & Hpeq & _).
      exists p, od, ts, emb, sc, po. subst p. by repeat split. }
    destruct o as [d|d|d].
    + apply forward_inv in Hf
        as [(_ & _ & [(d' & [= <-] & Hp)|(p & _ & [(? & ? & _)|(? & ? & ? & _)])])
           |(info & _ & _ & ? & _)]; try congruence.
      rewrite prune_stage_fresh in Hp by done.
      by apply prune_fresh_inl in Hp
        as (_ & emb & sc & K & _ & _ & _ & _ & _ & ? & _).
    + pose proof Hf as Hf'.
      apply forward_CorefScores in Hf' as (od & ? & ? & ? & ? & ->).
      apply (Hout od). simpl. unfold ret_values. by rewrite lookup_insert_eq.
    + by apply (Hout d).
Qed.

End Clamping.

(** ** Runs that agree up to a relation *)

Lemma res_rel_eq {A} (m m' : res A) : res_rel eq m m' → m = m'.
Proof. destruct m, m'; simpl; intros Hr; by subst. Qed.

Lemma res_rel_bind {A A' B B'} (RA : A → A' → Prop) (RB : B → B' → Prop)
    (m : res A) (m' : res A') (k : A → res B) (k' : A' → res B') :
  res_rel RA m m' →
  (∀ x x', RA x x' → res_rel RB (k x) (k' x')) →
  res_rel RB (m ≫= k) (m' ≫= k').
Proof. destruct m, m'; simpl; try done. intros ? Hk. by apply Hk. Qed.

Lemma mapR_rel {A A' B B'} (RA : A → A' → Prop) (RB : B → B' → Prop)
    (f : A → res B) (f' : A' → res B') l l' :
  Forall2 RA l l' →
  (∀ x x', RA x x' → res_rel RB (f x) (f' x')) →
  res_rel (Forall2 RB) (mapR f l) (mapR f' l').
Proof.
  intros Hl Hf. induction Hl as [|x x' l l' Hx Hl IH]; simpl; [constructor|].
  eapply res_rel_bind; [by apply Hf|]. intros y y' Hy.
  eapply res_rel_bind; [exact IH|]. intros ys ys' Hys. by constructor.
Qed.

Lemma zipR_rel {A A' B B' C C'} (RA : A → A' → Prop) (RB : B → B' → Prop)
    (RC : C → C' → Prop) (f : A → B → res C) (f' : A' → B' → res C')
    xs xs' ys ys' :
  Forall2 RA xs xs' → Forall2 RB ys ys' →
  (∀ x x' y y', RA x x' → RB y y' → res_rel RC (f x y) (f' x' y')) →
  res_rel (Forall2 RC) (zipR f xs ys) (zipR f' xs' ys').
Proof.
  intros Hxs. revert ys ys'.
  induction Hxs as [|x x' xs xs' Hx Hxs IH]; intros ys ys' Hys Hf;
    destruct Hys as [|y y' ys ys' Hy Hys]; simpl; try done;
    try (by constructor).
  eapply res_rel_bind; [by apply Hf|]. intros z z' Hz.
  eapply res_rel_bind; [by apply IH|]. intros zs zs' Hzs. by constructor.
Qed.

Lemma Forall2_eq_refl {A} (l : list A) : Forall2 eq l l.
Proof. apply Forall_Forall2_diag, Forall_true. done. Qed.

Lemma Forall2_concat_rel {A B} (R : A → B → Prop) ls ks :
  Forall2 (Forall2 R) ls ks → Forall2 R (concat ls) (concat ks).
Proof.
  induction 1 as [|l k ls ks Hl _ IH]; simpl; [constructor|].
  by apply Forall2_app.
Qed.

Lemma index_select_rel {A A'} (R : A → A' → Prop) l l' k :
  Forall2 R l l' → res_rel R (index_select l k) (index_select l' k).
Proof.
  intros Hl. unfold index_select. destruct (k <? 0); [done|].
  destruct (l !! Z.to_nat k) as [x|] eqn:Hx.
  - destruct (Forall2_lookup_l _ _ _ _ _ Hl Hx) as (x' & -> & ?). done.
  - destruct (l' !! Z.to_nat k) as [x'|] eqn:Hx'; [|done].
    destruct (Forall2_lookup_r _ _ _ _ _ Hl Hx') as (x & ? & _). congruence.
Qed.

Lemma view_as_rel {A A' B} (R : A → A' → Prop) (shape : list (list B)) l l' :
  Forall2 R l l' →
  res_rel (Forall2 (Forall2 R)) (view_as shape l) (view_as shape l').
Proof.
  revert l l'. induction shape as [|row shape IH]; intros l l' Hl; simpl.
  - destruct Hl; simpl; [constructor|done].
  - rewrite <- (Forall2_length _ _ _ Hl). case_decide; [|done].
    eapply res_rel_bind; [apply IH; by apply Forall2_drop|].
    intros rest rest' Hrest. constructor; [by apply Forall2_take|done].
Qed.

Lemma batched_index_select_rel {A A'} (R : A → A' → Prop) t t' idx flat :
  Forall2 (Forall2 R) t t' →
  res_rel (Forall2 (Forall2 R)) (batched_index_select t idx flat)
          (batched_index_select t' idx flat).
Proof.
  intros Ht. unfold batched_index_select.
  eapply res_rel_bind.
  - apply (mapR_rel eq R); [by apply Forall2_eq_refl|].
    intros k ? <-. apply index_select_rel. by apply Forall2_concat_rel.
  - intros sel sel' Hsel. by apply view_as_rel.
Qed.

Lemma flattened_index_select_rel {A A'} (R : A → A' → Prop) t t' idx :
  Forall2 (Forall2 R) t t' →
  res_rel (Forall2 (Forall2 (Forall2 R))) (flattened_index_select t idx)
          (flattened_index_select t' idx).
Proof.
  intros Ht. unfold flattened_index_select.
  apply (mapR_rel (Forall2 R)); [done|]. intros tb tb' Htb.
  apply (mapR_rel eq); [by apply Forall2_eq_refl|]. intros row ? <-.
  apply (mapR_rel eq); [by apply Forall2_eq_refl|]. intros k ? <-.
  by apply index_select_rel.
Qed.

(** ** Renaming the gold cluster ids (claim C9) *)

Lemma wrap64_small z : - 2 ^ 63 ≤ z < 2 ^ 63 → wrap64 z = z.
Proof. intros Hz. unfold wrap64. rewrite Z.mod_small; lia. Qed.

Lemma wrap64_below z : - 2 ^ 64 ≤ z + 2 ^ 63 < 0 → wrap64 z = z + 2 ^ 64.
Proof.
  intros Hz. unfold wrap64.
  replace (z + 2 ^ 63) with (z + 2 ^ 63 + 2 ^ 64 + (-1) * 2 ^ 64) by lia.
  rewrite Z_mod_plus_full, Z.mod_small; lia.
Qed.

Section Relabel.
Context {F : Type} `{ScalarLong F}.
Variable r : Z → Z.
Hypothesis Hr : relabeling r.

Lemma relabel_range x : label_range x → label_range (r x).
Proof.
  destruct Hr as (Hs & Hid & _). intros Hx.
  destruct (decide (x = -1)) as [->|]; [rewrite Hs; unfold label_range; lia|].
  specialize (Hid x Hx). unfold label_range in *. lia.
Qed.

Lemma relabel_sign x : label_range x → (0 <=? r x) = (0 <=? x).
Proof.
  destruct Hr as (Hs & Hid & _). intros Hx.
  destruct (decide (x = -1)) as [->|]; [by rewrite Hs|].
  specialize (Hid x Hx). unfold label_range in *.
  destruct (0 <=? r x) eqn:?, (0 <=? x) eqn:?; lia.
Qed.

Lemma relabel_eqb x y :
  label_range x → label_range y → (r x =? r y) = (x =? y).
Proof.
  destruct Hr as (_ & _ & Hinj). intros Hx Hy.
  destruct (x =? y) eqn:Hxy.
  - apply Z.eqb_eq in Hxy as ->. apply Z.eqb_refl.
  - apply Z.eqb_neq. intros Heq. apply Hinj in Heq; [|done..].
    apply Z.eqb_neq in Hxy. done.
Qed.

(** The label of an antecedent slot after the mask was added: a valid slot
    keeps its label, a masked slot leaves the range of labels. *)
Lemma shifted_label_eqb (m : F) t l :
  m = flog fone ∨ m = flog fzero → label_range t → label_range l →
  (r t =? wrap64 (r l + to_long m)) = (t =? wrap64 (l + to_long m)).
Proof.
  intros [->| ->] Ht Hl; pose proof (relabel_range _ Ht) as Hrt;
    pose proof (relabel_range _ Hl) as Hrl; unfold label_range in *.
  - rewrite to_long_log_one, !Z.add_0_r, !wrap64_small by lia.
    by apply relabel_eqb.
  - rewrite to_long_log_zero.
    assert (Hout : ∀ x y, -1 ≤ x < 2 ^ 63 - 1 → -1 ≤ y < 2 ^ 63 - 1 →
                          (x =? wrap64 (y + - 2 ^ 63)) = false ∨ x = -1).
    { intros x y Hx Hy. destruct (decide (x = -1)) as [|Hne]; [by right|].
      left. apply Z.eqb_neq. destruct (decide (y = -1)) as [->|].
      - rewrite wrap64_below by lia. lia.
      - rewrite wrap64_small by lia. lia. }
    destruct (decide (t = -1)) as [->|Hne].
    + destruct Hr as (Hs & _). rewrite Hs.
      destruct (decide (l = -1)) as [->|Hl1].
      * by rewrite Hs.
      * destruct Hr as (_ & Hid & _). specialize (Hid l Hl).
        rewrite !wrap64_small by lia.
        destruct (-1 =? r l + - 2 ^ 63) eqn:?, (-1 =? l + - 2 ^ 63) eqn:?; lia.
    + destruct (Hout t l) as [->|]; [done..| |done].
      destruct (Hout (r t) (r l)) as [->|Hrt1]; [done..|].
      destruct Hr as (_ & Hid & _). specialize (Hid t Ht). lia.
Qed.

Lemma gold_antecedent_labels_relabel labels (s : scored F) :
  Forall (Forall label_range) labels →
  Forall (Forall (λ x, x = flog fone ∨ x = flog fzero))
         (s_valid_antecedent_log_mask s) →
  gold_antecedent_labels_of (map (map r) labels) s
  = gold_antecedent_labels_of labels s.
Proof.
  intros Hlab Hmask. apply res_rel_eq. unfold gold_antecedent_labels_of.
  set (R := λ x' x : Z, label_range x ∧ x' = r x).
  set (S := λ x' x : Z, ∀ t, label_range t → (r t =? x') = (t =? x)).
  eapply (res_rel_bind (Forall2 (Forall2 R))).
  { apply batched_index_select_rel. rewrite map_fmap.
    apply Forall2_fmap_l, Forall_Forall2_diag.
    eapply Forall_impl; [exact Hlab|]. intros row Hrow. simpl.
    rewrite map_fmap. apply Forall2_fmap_l, Forall_Forall2_diag.
    eapply Forall_impl; [exact Hrow|]. by intros x Hx. }
  intros pruned' pruned Hpruned.
  eapply (res_rel_bind (Forall2 (Forall2 (Forall2 R)))).
  { by apply flattened_index_select_rel. }
  intros ant' ant Hant.
  eapply (res_rel_bind (Forall2 (Forall2 (Forall2 S)))).
  { apply (mapR_rel (Forall2 (Forall2 R))); [done|]. intros lb' lb Hlb.
    apply (zipR_rel (Forall2 R)
             (λ m m' : list F,
                m = m' ∧ Forall (λ x, x = flog fone ∨ x = flog fzero) m));
      [done| |].
    { apply Forall_Forall2_diag. eapply Forall_impl; [exact Hmask|]. done. }
    intros row' row ms ? Hrow [<- Hms].
    apply (zipR_rel R (λ m m' : F,
                         m = m' ∧ (m = flog fone ∨ m = flog fzero)));
      [done| |].
    { apply Forall_Forall2_diag. eapply Forall_impl; [exact Hms|]. done. }
    intros l' l m ? [Hl ->] [<- Hm]. simpl. intros t Ht.
    by apply shifted_label_eqb. }
  intros sh' sh Hsh. unfold _compute_antecedent_gold_labels.
  assert (Hgoal : res_rel (Forall2 (Forall2 eq))
    (zipR (zipR (λ (target_label : Z) (labels0 : list Z),
       Ok (fprod (map (λ p : F, fsub fone p)
                   (map (λ l : Z, fmul (of_bool (target_label =? l))
                                       (of_bool (0 <=? target_label)))
                        labels0))
           :: map (λ l : Z, fmul (of_bool (target_label =? l))
                                 (of_bool (0 <=? target_label))) labels0)))
       pruned' sh')
    (zipR (zipR (λ (target_label : Z) (labels0 : list Z),
       Ok (fprod (map (λ p : F, fsub fone p)
                   (map (λ l : Z, fmul (of_bool (target_label =? l))
                                       (of_bool (0 <=? target_label)))
                        labels0))
           :: map (λ l : Z, fmul (of_bool (target_label =? l))
                                 (of_bool (0 <=? target_label))) labels0)))
       pruned sh)).
  { apply (zipR_rel (Forall2 R) (Forall2 (Forall2 S))); [done..|].
    intros pb' pb sb' sb Hpb Hsb.
    apply (zipR_rel R (Forall2 S)); [done..|].
    intros t' t ls' ls [Ht ->] Hls. simpl.
    assert (Hpw : map (λ l : Z, fmul (of_bool (r t =? l))
                                     (of_bool (0 <=? r t))) ls'
                = map (λ l : Z, fmul (of_bool (t =? l))
                                     (of_bool (0 <=? t))) ls).
    { rewrite relabel_sign by done.
      induction Hls as [|l' l ls' ls Hl _ IH]; simpl; [done|].
      by rewrite IH, (Hl t Ht). }
    by rewrite Hpw. }
  destruct (zipR _ pruned' sh') as [g'|], (zipR _ pruned sh) as [g|];
    simpl in *; try done.
  apply list_eq_Forall2. eapply Forall2_impl; [exact Hgoal|].
  intros x y Hxy. by apply list_eq_Forall2.
Qed.

End Relabel.

Section RelabelForward.
Context {F : Type} `{ScalarLong F}.
Implicit Types (self : ALCoreferenceResolver F) (a : Args F).
Implicit Types (s : scored F).

Lemma window_mask_values K W :
  Forall (Forall (λ x : F, x = flog fone ∨ x = flog fzero))
         (_generate_valid_antecedents (F:=F) K W).2.
Proof.
  apply Forall_lookup. intros i row [_ ->]%window_mask_row.
  apply Forall_lookup. intros j x (k & _ & ->)%lookup_map_Some.
  destruct (0 <=? Z.of_nat i - (k + 1)); simpl; auto.
Qed.

Lemma finish_relabel self a r labels s :
  relabeling r → Forall (Forall label_range) labels →
  Forall (Forall (λ x, x = flog fone ∨ x = flog fzero))
         (s_valid_antecedent_log_mask s) →
  finish self (with_labels a (map (map r) labels)) s
  = finish self (with_labels a labels) s.
Proof.
  intros Hr Hlab Hmask. unfold finish, loss_of. simpl.
  by rewrite (gold_antecedent_labels_relabel r Hr labels s).
Qed.

(** C9.  Renaming the gold cluster ids (the sentinel -1 kept, cluster ids
    sent to cluster ids, no two labels merged) changes nothing in what
    forward returns: the same dictionary with the same loss, or the same
    exception.  Labels are the sentinel or cluster ids below the largest
    64-bit integer. *)
Theorem loss_invariant_under_relabeling self a r labels :
  relabeling r → Forall (Forall label_range) labels →
  supplied_log_mask a →
  fst <$> forward self (with_labels a (map (map r) labels))
  = fst <$> forward self (with_labels a labels).
Proof.
  intros Hr Hlab Hsup. unfold forward.
  change (coref_scores_info (with_labels a (map (map r) labels)))
    with (coref_scores_info a).
  change (coref_scores_info (with_labels a labels))
    with (coref_scores_info a).
  destruct (present (coref_scores_info a)) as [info|] eqn:Hinfo.
  - destruct (scored_given info) as [s|] eqn:Hs; simpl; [|done].
    rewrite (finish_relabel self a r labels s); [|done..|].
    + by destruct (finish self (with_labels a labels) s).
    + apply scored_given_inv in Hs
        as (od & l & _ & _ & _ & _ & Hm & _).
      by eapply Hsup.
  - change (prune_stage self (with_labels a (map (map r) labels)))
      with (prune_stage self (with_labels a labels)).
    destruct (prune_stage self (with_labels a labels)) as [[d|p]|];
      simpl; [done| |done].
    change (score_stage self (with_labels a (map (map r) labels)) p)
      with (score_stage self (with_labels a labels) p).
    destruct (score_stage self (with_labels a labels) p) as [[d|s]|] eqn:Hs;
      simpl; [done| |done].
    rewrite (finish_relabel self a r labels s); [|done..|].
    + by destruct (finish self (with_labels a labels) s).
    + apply score_stage_inr in Hs as (ts & sc & pr & _ & _ & _ & _ & ->).
      apply window_mask_values.
Qed.

End RelabelForward.

(** ** Resuming from precomputed pruning results (claim C4) *)

Section ResumePruning.
Context {F : Type} `{Scalar F}.
Implicit Types (self : ALCoreferenceResolver F) (a : Args F).
Implicit Types (p : pruning F).

Lemma present_pruning_state p :
  present (Some (pruning_state_of p)) = Some (pruning_state_of p).
Proof.
  unfold present, truthy.
  destruct (size (pruning_state_of p)) eqn:Hsz; [|done].
  apply map_size_empty_inv in Hsz.
  assert (Hl : pruning_state_of p !! "mention_scores"
               = Some (VF2 (p_span_mention_scores p)))
    by apply lookup_insert_eq.
  rewrite Hsz in Hl. by rewrite lookup_empty in Hl.
Qed.

(** Reading back the pruning results: the branch on [top_spans_info]
    rebuilds the fresh state, except that [spans] stays the caller's. *)
Lemma prune_given_pruning_state a p :
  pruner_consistent p →
  prune_given a (pruning_state_of p)
  = Ok (Pruning (spans a) (p_span_mention_scores p)
          (p_top_span_mention_scores p) (p_num_spans_to_keep p)
          (p_top_span_indices p) (p_flat_top_span_indices p)
          (p_top_span_mask p) (p_span_embeddings p)
          (p_top_span_embeddings p) (p_text_mask p)).
Proof.
  intros [Hemb HK]. unfold prune_given, pruning_state_of, getitem.
  simplify_map_eq. simpl. rewrite Hemb. simpl. by rewrite HK.
Qed.

(** C4, as the code has it.  When the pruner's results are shaped as
    forward expects and the clamp changes no kept span, a call resumed from
    the pruning results of the fresh path returns what the fresh call
    returns: the same kept spans, score matrix, predicted antecedents and
    loss, or the same exception. *)
Theorem resume_from_pruning_agrees self a p :
  fresh_path a → prune_stage self a = Ok (inr p) →
  pruner_consistent p → kept_spans_unclamped a p →
  fst <$> forward self (with_top_spans_info a (pruning_state_of p))
  = fst <$> forward self a.
Proof.
  intros Hfresh Hp Hcons Hkept. pose proof Hfresh as [Hc Ht].
  pose proof Hp as Hp'. rewrite prune_stage_fresh in Hp' by done.
  apply prune_fresh_inr in Hp' as (_ & emb & sc & po & K & _ & _ & _ & Hpeq & _).
  unfold forward.
  change (coref_scores_info (with_top_spans_info a (pruning_state_of p)))
    with (coref_scores_info a).
  unfold kept_spans_unclamped in Hkept.
  rewrite Hc, Hp.
  assert (Hp2 : prune_stage self (with_top_spans_info a (pruning_state_of p))
    = Ok (inr (Pruning (spans a) (p_span_mention_scores p)
          (p_top_span_mention_scores p) (p_num_spans_to_keep p)
          (p_top_span_indices p) (p_flat_top_span_indices p)
          (p_top_span_mask p) (p_span_embeddings p)
          (p_top_span_embeddings p) (p_text_mask p)))).
  { unfold prune_stage.
    change (top_spans_info (with_top_spans_info a (pruning_state_of p)))
      with (Some (pruning_state_of p)).
    rewrite present_pruning_state.
    rewrite (prune_given_pruning_state _ p Hcons). done. }
  rewrite Hp2. simpl.
  match goal with
  | |- fst <$> (score_stage _ ?a2 ?p2 ≫= _) = _ =>
      assert (Hs : score_stage self a2 p2 = score_stage self a p)
  end.
  { subst p. simpl in Hkept.
    unfold score_stage, coreference_scores_of, window_of. simpl.
    rewrite Hkept. reflexivity. }
  rewrite Hs. destruct (score_stage self a p) as [[d|s]|]; simpl; [done| |done].
  change (finish self (with_top_spans_info a (pruning_state_of p)) s)
    with (finish self a s).
  by destruct (finish self a s).
Qed.

End ResumePruning.

(** ** Resuming from the coreference-score state (claim C3) *)

Section ResumeScoring.
Context {F : Type} `{Scalar F}.
Implicit Types (self : ALCoreferenceResolver F) (a : Args F).
Implicit Types (d od : gmap string (value F)).

Lemma agree_insert (d d' : gmap string (value F)) (k0 k : string) v :
  (∀ j, j ≠ k0 → d !! j = d' !! j) →
  (∀ j, j ≠ k0 → <[k := v]> d !! j = <[k := v]> d' !! j).
Proof.
  intros Hag j Hj. destruct (decide (k = j)) as [->|Hne].
  - by rewrite !lookup_insert_eq.
  - rewrite !lookup_insert_ne by done. by apply Hag.
Qed.

(** The tail of forward on two states that differ in the output dictionary
    only. *)
Lemma finish_agree self a a' od od' idx flat mask lm ts widx sc pr :
  get_scores a = get_scores a' → span_labels a = span_labels a' →
  metadata a = metadata a' →
  (∀ j, j ≠ "coreference_scores" → od !! j = od' !! j) →
  res_rel (λ d d', ∀ j, j ≠ "coreference_scores" → d !! j = d' !! j)
    (finish self a (Scored od idx flat mask lm ts widx sc pr))
    (finish self a' (Scored od' idx flat mask lm ts widx sc pr)).
Proof.
  intros Hg Hl Hm Hag. unfold finish, loss_of. simpl.
  rewrite <- Hg, <- Hl, <- Hm.
  assert (Hag' : ∀ j, j ≠ "coreference_scores" →
            (if get_scores a then <["top_span_indices" := VL2 idx]> od else od)
              !! j
            = (if get_scores a then <["top_span_indices" := VL2 idx]> od'
               else od') !! j).
  { destruct (get_scores a); [by apply agree_insert|done]. }
  destruct (span_labels a) as [labels|]; simpl.
  - destruct (gold_antecedent_labels_of labels _) as [g|]; simpl; [|done].
    destruct (negative_marginal_log_likelihood_of sc mask g) as [l|];
      simpl; [|done].
    destruct (_mention_recall self ts (metadata a)); simpl; [|done].
    destruct (_conll_coref_scores self ts widx pr (metadata a));
      simpl; [|done].
    destruct (metadata a) as [md|]; simpl.
    + destruct (mapR _ md); simpl; [|done]. by do 2 apply agree_insert.
    + by apply agree_insert.
  - destruct (metadata a) as [md|]; simpl; [|done].
    destruct (mapR _ md); simpl; [|done]. by apply agree_insert.
Qed.

Lemma present_rekey_state od idx flat mask lm :
  present (Some (rekey_state (ret_values od idx flat mask lm)))
  = Some (<["valid_antecedent_log_mask" := VF2 lm]>
            (ret_values od idx flat mask lm)).
Proof.
  assert (Hre : rekey_state (ret_values od idx flat mask lm)
          = <["valid_antecedent_log_mask" := VF2 lm]>
              (ret_values od idx flat mask lm)).
  { unfold rekey_state, ret_values. by simplify_map_eq. }
  rewrite Hre. unfold present, truthy.
  destruct (size _) eqn:Hsz; [|done].
  apply map_size_empty_inv in Hsz.
  apply (f_equal (λ m, m !! "valid_antecedent_log_mask")) in Hsz.
  by rewrite lookup_insert_eq, lookup_empty in Hsz.
Qed.

(** C3, as the code has it.  Once the antecedent mask of the returned state
    is stored under ["valid_antecedent_log_mask"], the key that the
    consuming branch reads, a call resumed from the state agrees with the
    call that runs to the end without [return_coref_scores]: both raise the
    same exception, or both return dictionaries with the same predicted
    antecedents, the same loss and the same other entries, the score matrix
    aside (the resumed call always carries it). *)
Theorem resume_from_rekeyed_state self a a' st :
  forward self a = Ok (CorefScores st, a') →
  res_rel same_predictions
    (fst <$> forward self (with_coref_scores_info a (rekey_state st)))
    (fst <$> forward self (without_return_coref_scores a)).
Proof.
  intros Hf.
  apply forward_inv in Hf
    as [(Hnone & _ & [(d & [=] & _)|(p & Hp & [(d & [= <-] & Hs)|(s & d & [=] & _)])])
       |(info & s & d & _ & _ & _ & [=] & _)].
  apply score_stage_inl in Hs as (ts & sc & pr & Hts & Hsc & Hdec & -> & Hret).
  unfold forward.
  change (coref_scores_info (without_return_coref_scores a))
    with (coref_scores_info a).
  change (coref_scores_info (with_coref_scores_info a _))
    with (Some (rekey_state
            (ret_values (make_output_dict a ts (window_of self p).1.1 pr sc)
               (p_top_span_indices p) (p_flat_top_span_indices p)
               (p_top_span_mask p) (window_of self p).2))).
  rewrite Hnone, present_rekey_state.
  change (prune_stage self (without_return_coref_scores a))
    with (prune_stage self a).
  assert (Hs0 : score_stage self (without_return_coref_scores a) p
    = Ok (inr (Scored
         (make_output_dict (without_return_coref_scores a) ts
            (window_of self p).1.1 pr sc)
         (p_top_span_indices p) (p_flat_top_span_indices p)
         (p_top_span_mask p) (window_of self p).2 ts
         (window_of self p).1.1 sc pr))).
  { unfold score_stage, window_of, _generate_valid_antecedents. simpl.
    rewrite Hts. simpl. rewrite Hsc. simpl. by rewrite Hdec. }
  assert (Hs2 : scored_given
      (<["valid_antecedent_log_mask" := VF2 (window_of self p).2]>
         (ret_values (make_output_dict a ts (window_of self p).1.1 pr sc)
            (p_top_span_indices p) (p_flat_top_span_indices p)
            (p_top_span_mask p) (window_of self p).2))
    = Ok (Scored
         (<["predicted_antecedents" := VL2 pr]>
            (make_output_dict a ts (window_of self p).1.1 pr sc))
         (p_top_span_indices p) (p_flat_top_span_indices p)
         (p_top_span_mask p) (window_of self p).2 ts
         (window_of self p).1.1 sc pr)).
  { unfold scored_given, ret_values, getitem. simplify_map_eq. simpl.
    unfold make_output_dict. rewrite Hret, orb_true_r.
    simplify_map_eq. simpl. by rewrite Hdec. }
  rewrite Hs2, Hp. simpl. rewrite Hs0. simpl.
  match goal with
  | |- res_rel _ (fst <$> (finish _ ?a2 ?s2 ≫= _))
                 (fst <$> (finish _ ?a0 ?s0 ≫= _)) =>
      assert (Hfin : res_rel
                (λ d d', ∀ j, j ≠ "coreference_scores" → d !! j = d' !! j)
                (finish self a2 s2) (finish self a0 s0))
  end.
  { apply finish_agree.
    - reflexivity.
    - reflexivity.
    - reflexivity.
    - intros j Hj. unfold make_output_dict. simpl.
      rewrite Hret, orb_true_r, orb_false_r.
      destruct (get_scores a);
        repeat (rewrite lookup_insert; case_decide; simplify_eq; try done). }
  destruct (finish self (with_coref_scores_info a _) _) as [d2|],
    (finish self (without_return_coref_scores a) _) as [d0|];
    simpl in *; done.
Qed.

End ResumeScoring.

(** ** The loss and the validity mask (claim C1) *)

Lemma res_rel_eq2 {A} (m m' : res (list (list A))) :
  res_rel (Forall2 (Forall2 eq)) m m' → m = m'.
Proof.
  intros Hr. apply res_rel_eq. destruct m, m'; simpl in *; try done.
  apply list_eq_Forall2. eapply Forall2_impl; [exact Hr|].
  intros x y Hxy. by apply list_eq_Forall2.
Qed.

Section LossMask.
Context {F : Type} `{ScalarSoftmax F}.

Lemma masked_log_softmax_ignores_mask (v : list F) (m : F) :
  m = fzero ∨ m = fone → masked_log_softmax v m = log_softmax v.
Proof. intros Hm. unfold masked_log_softmax. by apply log_softmax_mask_shift. Qed.

(** Whatever the validity flags are, the masked log-softmax of line 330 is
    the plain log-softmax of every row: the loss is the same for any two
    masks of the same shape, and a kept span whose flag is false
    contributes like a valid one. *)
Lemma loss_ignores_validity_mask
    (scores : list (list (list F))) (mask mask' : list (list F))
    (gold : list (list (list F))) :
  Forall2 (Forall2 (λ m m' : F, (m = fzero ∨ m = fone) ∧
                                 (m' = fzero ∨ m' = fone))) mask mask' →
  negative_marginal_log_likelihood_of scores mask gold
  = negative_marginal_log_likelihood_of scores mask' gold.
Proof.
  intros Hmask. unfold negative_marginal_log_likelihood_of.
  assert (Hlp :
    zipR (zipR (λ (row : list F) (m : F), Ok (masked_log_softmax row m)))
         scores mask
    = zipR (zipR (λ (row : list F) (m : F), Ok (masked_log_softmax row m)))
           scores mask'); [|by rewrite Hlp].
  apply res_rel_eq2.
  eapply (zipR_rel eq); [apply Forall2_eq_refl|exact Hmask|].
  intros sb ? mb mb' <- Hmb.
  eapply (zipR_rel eq); [apply Forall2_eq_refl|exact Hmb|].
  intros row ? m m' <- [Hm Hm']. simpl.
  by rewrite !masked_log_softmax_ignores_mask.
Qed.



Section LossOfForward.
Context (self : ALCoreferenceResolver F).



End LossOfForward.

End LossMask.

(** ** The extended reals satisfy the laws *)

Lemma ereal_log_zero : ereal_log (EFin 0%R) = EInf.
Proof.
  simpl. destruct (Rle_dec 0 0) as [|Hn]; [done|]. exfalso. apply Hn. lra.
Qed.

#[global] Instance ereal_order : ScalarOrder ereal.
Proof.
  split.
  - intros [|a]; simpl; [done|]. destruct (Rlt_dec a a); [lra|done].
  - intros [|a] [|b] [|c]; simpl; try done.
    destruct (Rlt_dec a b), (Rlt_dec b c), (Rlt_dec a c); try done. lra.
  - intros [|a] [|b] [|c]; simpl; try done; auto.
    destruct (Rlt_dec a b), (Rlt_dec b c), (Rlt_dec a c); auto; try done. lra.
  - intros x. change (flog fzero) with (ereal_log (EFin 0%R)).
    rewrite ereal_log_zero. by destruct x.
Qed.

Lemma Int_part_0 : Int_part 0 = 0.
Proof.
  unfold Int_part. assert (Hup : up 0 = 1); [|rewrite Hup; lia].
  symmetry. apply tech_up; simpl; lra.
Qed.

#[global] Instance ereal_long : ScalarLong ereal.
Proof.
  split.
  - change (to_long (flog fone)) with (ereal_to_long (ereal_log (EFin 1%R))).
    unfold ereal_log. destruct (Rle_dec 1 0); [lra|].
    simpl. rewrite ln_1. apply Int_part_0.
  - change (flog fzero) with (ereal_log (EFin 0%R)).
    by rewrite ereal_log_zero.
Qed.

(** The sum of the exponentials of a row, and of the row shifted by a
    finite constant. *)
Lemma ereal_sum_exp_shift (c : R) (v : list ereal) :
  ∃ S : R, (0 <= S)%R ∧
    fsum (map fexp v) = EFin S ∧
    fsum (map fexp (map (λ x, fadd x (EFin c)) v)) = EFin (exp c * S)%R.
Proof.
  induction v as [|x v (S & HS & Hv & Hv')].
  - exists 0%R. simpl. split; [lra|]. split; [done|]. f_equal. ring.
  - destruct x as [|a].
    + exists S. simpl in *. rewrite Hv, Hv'. simpl.
      split; [done|]. split; f_equal; ring.
    + exists (exp a + S)%R. simpl in *. rewrite Hv, Hv'. simpl.
      pose proof (exp_pos a).
      split; [lra|]. split; [done|]. f_equal. rewrite exp_plus. ring.
Qed.

Lemma ereal_log_softmax_shift (c : R) (v : list ereal) :
  log_softmax (map (λ x, fadd x (EFin c)) v) = log_softmax v.
Proof.
  unfold log_softmax.
  destruct (ereal_sum_exp_shift c v) as (S & HS & -> & ->).
  simpl flog. rewrite List.map_map.
  pose proof (exp_pos c) as Hc.
  destruct (Rle_dec S 0) as [Hle|Hgt].
  - assert (S = 0%R) as -> by lra.
    destruct (Rle_dec (exp c * 0) 0) as [_|Hn]; [|exfalso; apply Hn; lra].
    apply map_ext. intros [|a]; reflexivity.
  - destruct (Rle_dec (exp c * S) 0) as [Hle'|_].
    + exfalso. apply Hgt. nra.
    + apply map_ext. intros [|a]; simpl; [done|]. f_equal.
      rewrite ln_mult, ln_exp by lra. ring.
Qed.

Lemma ereal_tiny_pos : (0 < ereal_tiny)%R.
Proof. unfold ereal_tiny. apply Rinv_0_lt_compat, pow_lt. lra. Qed.

Lemma ereal_mask_shift_finite (m : R) :
  (0 <= m)%R → ∃ c, ereal_log (ereal_add (EFin m) (EFin ereal_tiny)) = EFin c.
Proof.
  intros Hm. pose proof ereal_tiny_pos. unfold ereal_log, ereal_add.
  destruct (Rle_dec (m + ereal_tiny) 0); [lra|by eexists].
Qed.

#[global] Instance ereal_softmax : ScalarSoftmax ereal.
Proof.
  split. intros m v Hm.
  assert (Hfin : ∃ c, flog (fadd m ftiny) = EFin c).
  { destruct Hm as [-> | ->]; apply ereal_mask_shift_finite; lra. }
  destruct Hfin as [c ->]. apply ereal_log_softmax_shift.
Qed.

(** In the reals, for any score matrix and gold indicator of two kept
    spans, the loss with the second span flagged invalid is the loss with
    both spans valid. *)
Example invalid_span_counts_in_the_reals
    (scores gold : list (list (list ereal))) :
  negative_marginal_log_likelihood_of scores [[fone; fzero]] gold
  = negative_marginal_log_likelihood_of scores [[fone; fone]] gold.
Proof.
  apply loss_ignores_validity_mask.
  constructor; [|constructor].
  constructor; [by auto|]. constructor; [by auto|]. constructor.
Qed.

(** The rows of the counterexample of C1, in the reals. *)
Lemma ereal_log_softmax_row0 :
  log_softmax [EFin 0%R; EInf] = [EFin 0%R; EInf].
Proof.
  unfold log_softmax. simpl. rewrite exp_0.
  destruct (Rle_dec (1 + (0 + 0)) 0); [lra|]. simpl. repeat f_equal.
  replace (1 + (0 + 0))%R with 1%R by ring. rewrite ln_1. ring.
Qed.

Lemma ereal_log_softmax_row1 :
  log_softmax [EFin 0%R; EFin 0%R] = [EFin (- ln 2)%R; EFin (- ln 2)%R].
Proof.
  unfold log_softmax. simpl. rewrite exp_0.
  destruct (Rle_dec (1 + (1 + 0)) 0); [lra|]. simpl.
  replace (1 + (1 + 0))%R with 2%R by ring.
  repeat f_equal; ring.
Qed.

Lemma ereal_logsumexp_first (x : ereal) (a : R) :
  logsumexp [fadd (EFin a) (flog (EFin 1%R)); fadd x (flog (EFin 0%R))]
  = Ok (EFin a).
Proof.
  unfold logsumexp. simpl.
  destruct (Rle_dec 1 0); [lra|].
  destruct (Rle_dec 0 0) as [_|Hn]; [|exfalso; apply Hn; lra].
  destruct x as [|b]; simpl; rewrite ln_1;
    replace (a + 0 - (a + 0))%R with 0%R by ring; rewrite exp_0;
    (destruct (Rle_dec (1 + (0 + 0)) 0); [lra|]); simpl; do 2 f_equal;
    replace (1 + (0 + 0))%R with 1%R by ring; rewrite ln_1; ring.
Qed.

(** In the reals, on the score matrix, the mask and the gold indicator of
    the counterexample of C1 (two kept spans, the second one flagged
    invalid, both with the "no antecedent" option as gold slot), the loss of
    lines 330-332 is [ln 2], the negative log-probability of the gold slot
    of the invalid span; with invalid spans contributing zero it is 0. *)
Example invalid_span_loss_in_the_reals :
  negative_marginal_log_likelihood_of
    [[[EFin 0%R; EInf]; [EFin 0%R; EFin 0%R]]]
    [[EFin 1%R; EFin 0%R]]
    [[[EFin 1%R; EFin 0%R]; [EFin 1%R; EFin 0%R]]]
  = Ok (EFin (ln 2)) ∧
  claimed_loss
    [[[EFin 0%R; EInf]; [EFin 0%R; EFin 0%R]]]
    [[EFin 1%R; EFin 0%R]]
    [[[EFin 1%R; EFin 0%R]; [EFin 1%R; EFin 0%R]]]
  = Ok (EFin 0%R) ∧
  ln 2 ≠ 0%R.
Proof.
  split; [|split].
  - unfold negative_marginal_log_likelihood_of.
    cbn [zipR mbind res_bind].
    rewrite !masked_log_softmax_ignores_mask by (by auto).
    rewrite ereal_log_softmax_row0, ereal_log_softmax_row1.
    cbn [zipR mapR mbind res_bind].
    rewrite !ereal_logsumexp_first.
    cbn [mbind res_bind concat app fsum foldr]. simpl. do 2 f_equal. ring.
  - unfold claimed_loss. cbn [zipR mbind res_bind fst snd].
    cbn [fltb ereal_scalar ereal_ltb fzero].
    destruct (Rlt_dec 0 1); [|lra]. destruct (Rlt_dec 0 0); [lra|].
    rewrite ereal_log_softmax_row0.
    cbn [zipR mbind res_bind].
    rewrite ereal_logsumexp_first.
    cbn [mbind res_bind concat app fsum foldr]. simpl. do 2 f_equal. ring.
  - pose proof ln_lt_2. lra.
Qed.

(** ** The executable carrier satisfies the laws *)

#[global] Instance zinf_order : ScalarOrder zinf.
Proof.
  split.
  - intros [|a]; simpl; [done|]. apply Z.ltb_irrefl.
  - intros [|a] [|b] [|c]; simpl; try done.
    rewrite !Z.ltb_lt. lia.
  - intros [|a] [|b] [|c]; simpl; try done; auto.
    rewrite !Z.ltb_lt. lia.
  - by intros [|a].
Qed.

#[global] Instance zinf_long : ScalarLong zinf.
Proof. by split. Qed.

(** ** The theorems on the concrete runs *)

Lemma demo_run : forward demo demo_args = Ok (Output demo_output, demo_args).
Proof. vm_compute. reflexivity. Defined.

Lemma demo_state_run :
  forward demo demo_state_args = Ok (CorefScores demo_state, demo_state_args).
Proof. vm_compute. reflexivity. Defined.

Lemma padded_run :
  forward demo padded_args = Ok (MentionScores padded_output, padded_args).
Proof. vm_compute. reflexivity. Defined.

Lemma demo_fresh : fresh_path demo_args.
Proof. by split. Defined.

Lemma padded_fresh : fresh_path padded_args.
Proof. by split. Defined.

Lemma demo_prune_stage : prune_stage demo demo_args = Ok (inr demo_pruning).
Proof. vm_compute. reflexivity. Defined.

(** The executable carrier has neither NaN nor plus infinity. *)
Lemma zinf_maskable (x : zinf) : maskable x.
Proof. destruct x; reflexivity. Defined.

Lemma demo_maskable_scores : maskable_scores demo demo_args.
Proof.
  intros p raw _ _. apply Forall_true. intros sb.
  apply Forall_true. intros row. apply Forall_true. exact zinf_maskable.
Defined.

Lemma predicted_antecedents_are_argmax_witness :
  ∃ scores predicted,
    score_matrix_of demo demo_args = Ok scores ∧
    demo_output !! "predicted_antecedents" = Some (VL2 predicted) ∧
    Forall2 (Forall2 (λ row v, ∃ slot, first_argmax row slot ∧ v = slot - 1))
            scores predicted ∧
    (∀ p, present (coref_scores_info demo_args) = None →
          prune_stage demo demo_args = Ok (inr p) →
          Forall (λ pb, length pb = Z.to_nat (p_num_spans_to_keep p))
                 predicted).
Proof.
  exact (predicted_antecedents_are_argmax demo demo_args (Output demo_output)
           demo_args demo_output demo_run eq_refl).
Defined.

Lemma resume_from_rekeyed_state_witness :
  res_rel same_predictions
    (fst <$> forward demo (with_coref_scores_info demo_state_args
                             (rekey_state demo_state)))
    (fst <$> forward demo (without_return_coref_scores demo_state_args)).
Proof.
  exact (resume_from_rekeyed_state demo demo_state_args demo_state_args
           demo_state demo_state_run).
Defined.

Lemma predicted_antecedent_is_earlier_witness :
  ∃ p predicted idx,
    prune_stage demo demo_args = Ok (inr p) ∧
    demo_output !! "predicted_antecedents" = Some (VL2 predicted) ∧
    demo_output !! "antecedent_indices" = Some (VL2 idx) ∧
    ∀ b pb i v, predicted !! b = Some pb → pb !! i = Some v →
      -1 ≤ v ≤ Z.of_nat i - 1 ∧
      v < Z.max 0 (Z.min (_max_antecedents demo) (p_num_spans_to_keep p)) ∧
      (Z.of_nat i = 0 → v = -1) ∧
      (0 ≤ v → ∃ row, idx !! i = Some row ∧
                      row !! Z.to_nat v = Some (Z.of_nat i - 1 - v)).
Proof.
  exact (predicted_antecedent_is_earlier demo demo_args (Output demo_output)
           demo_args demo_output eq_refl demo_maskable_scores demo_run
           eq_refl).
Defined.

Lemma num_spans_to_keep_is_floor_witness :
  ∃ n K,
    double_of_int (document_length_of demo demo_args) = Ok n ∧
    math_floor (double_mul (_spans_per_word demo) n) = Ok K ∧
    ∃ od idx emb scores po,
      output_dict_of (Output demo_output) = Some od ∧
      od !! "antecedent_indices" = Some (VL2 idx) ∧
      length idx = Z.to_nat K ∧
      span_embeddings_of demo demo_args = Ok emb ∧
      _mention_pruner demo emb (span_mask_of (spans demo_args)) K scores
      = Ok po.
Proof.
  exact (num_spans_to_keep_is_floor demo demo_args (Output demo_output)
           demo_args demo_fresh demo_run).
Defined.

Lemma window_width_is_min_witness :
  ∃ p idx,
    prune_stage demo demo_args = Ok (inr p) ∧
    demo_output !! "antecedent_indices" = Some (VL2 idx) ∧
    length idx = Z.to_nat (p_num_spans_to_keep p) ∧
    Forall (λ row, length row
                   = Z.to_nat (Z.min (_max_antecedents demo)
                                     (p_num_spans_to_keep p))) idx ∧
    Forall (λ row, (length row ≤ length idx)%nat) idx.
Proof.
  exact (window_width_is_min demo demo_args (Output demo_output) demo_args
           demo_output eq_refl demo_run eq_refl).
Defined.

Lemma loss_entry_iff_labels_witness :
  (is_Some (demo_output !! "loss")
   ↔ is_Some (span_labels demo_args) ∨ stale_loss demo_args) ∧
  (present (coref_scores_info demo_args) = None →
   is_Some (demo_output !! "loss") ↔ is_Some (span_labels demo_args)) ∧
  (span_labels demo_args = None →
   ∀ info od, present (coref_scores_info demo_args) = Some info →
              info !! "output_dict" = Some (VDict od) →
              demo_output !! "loss" = od !! "loss").
Proof.
  exact (loss_entry_iff_labels demo demo_args (Output demo_output) demo_args
           demo_run).
Defined.




Lemma swap_1_7_relabeling : relabeling swap_1_7.
Proof.
  unfold relabeling, swap_1_7, label_range. split; [done|]. split.
  - intros x Hx H0. destruct (x =? 1) eqn:?, (x =? 7) eqn:?; lia.
  - intros x y Hx Hy.
    destruct (x =? 1) eqn:?, (x =? 7) eqn:?, (y =? 1) eqn:?, (y =? 7) eqn:?;
      lia.
Defined.

Lemma demo_labels_range : Forall (Forall label_range) [[1; -1; 1]].
Proof. repeat constructor; unfold label_range; lia. Defined.

Lemma demo_supplied_log_mask : supplied_log_mask demo_args.
Proof. intros info m Hinfo. discriminate Hinfo. Defined.

Lemma loss_invariant_under_relabeling_witness :
  fst <$> forward demo (with_labels demo_args
                          (map (map swap_1_7) [[1; -1; 1]]))
  = fst <$> forward demo (with_labels demo_args [[1; -1; 1]]).
Proof.
  exact (loss_invariant_under_relabeling demo demo_args swap_1_7
           [[1; -1; 1]] swap_1_7_relabeling demo_labels_range
           demo_supplied_log_mask).
Defined.

Lemma clamping_is_pure_witness :
  padded_args = padded_args ∧
  (∀ b row n s, spans padded_args !! b = Some row → row !! n = Some s →
     ∃ crow mrow,
       clamp_spans (spans padded_args) !! b = Some crow ∧
       crow !! n = Some (Z.max 0 s.1, Z.max 0 s.2) ∧
       span_mask_of (F:=zinf) (spans padded_args) !! b = Some mrow ∧
       mrow !! n = Some (if 0 <=? s.1 then fone else fzero)) ∧
  padded_output !! "mask" = Some (VF2 (span_mask_of (spans padded_args))).
Proof.
  exact (clamping_is_pure demo padded_args (MentionScores padded_output)
           padded_args padded_fresh padded_run).
Defined.

Lemma demo_pruner_consistent : pruner_consistent demo_pruning.
Proof. split; vm_compute; reflexivity. Defined.

Lemma demo_kept_spans_unclamped : kept_spans_unclamped demo_args demo_pruning.
Proof. vm_compute. reflexivity. Defined.

Lemma resume_from_pruning_agrees_witness :
  fst <$> forward demo (with_top_spans_info demo_args
                          (pruning_state_of demo_pruning))
  = fst <$> forward demo demo_args.
Proof.
  exact (resume_from_pruning_agrees demo demo_args demo_pruning demo_fresh
           demo_prune_stage demo_pruner_consistent demo_kept_spans_unclamped).
Defined.

(** ** Where the code departs from the claims *)

(** C3, counterexample.  The demo call returns its coreference-score
    state; a second call that is handed this state as [coref_scores_info]
    raises [KeyError] on ["valid_antecedent_log_mask"]. *)
Lemma returned_state_raises_KeyError :
  forward demo demo_state_args = Ok (CorefScores demo_state, demo_state_args) ∧
  forward demo (with_coref_scores_info demo_args demo_state)
  = Raise (KeyError "valid_antecedent_log_mask").
Proof.
  split; [exact demo_state_run|].
  exact (returned_state_lacks_mask_key demo demo_state_args
           demo_state_args (with_coref_scores_info demo_args demo_state)
           demo_state demo_state_run eq_refl).
Qed.

(** C6, counterexample.  Five tokens at 0.6 spans per word give
    [num_spans_to_keep = 3], although the document has one valid candidate:
    the number is not clamped.  And the floor is taken of the rounded
    product: at 0.29 spans per word a document of 100 tokens gives 28,
    where the floor of the exact product is 29. *)
Lemma num_spans_to_keep_exceeds_valid_candidates :
  forward demo padded_args = Ok (MentionScores padded_output, padded_args) ∧
  padded_output !! "num_spans_to_keep" = Some (VInt 3) ∧
  Forall (λ row, valid_candidates row = 1) (spans padded_args) ∧
  ¬ Forall (λ row, 3 ≤ valid_candidates row) (spans padded_args) ∧
  num_spans_to_keep_of (demo_model true (double_ratio 29 100) 2 fsum fsum) 100
  = Ok 28.
Proof.
  split; [exact padded_run|]. split; [reflexivity|]. split; [|split].
  - repeat constructor.
  - intros Hall. apply Forall_cons in Hall as [Hle _].
    vm_compute in Hle. by apply Hle.
  - vm_compute. reflexivity.
Qed.

(** Under the pruner that clamps, as the specification has it, the rest of
    forward still builds a window of [num_spans_to_keep] rows and fails on
    the missing kept spans. *)
Example clamped_pruner_breaks_the_window :
  forward demo padded_full_args = Raise IndexError.
Proof. vm_compute. reflexivity. Qed.

(** C4, counterexample.  With the pruner that keeps [K] candidates, two of
    the kept spans of the padded document are padding.  The fresh call
    reads the kept spans from the clamped spans, the resumed call from the
    caller's spans: the two outputs differ in ["top_spans"]. *)
Lemma resumed_top_spans_differ :
  fresh_path padded_full_args ∧
  prune_stage demo_unclamped padded_full_args = Ok (inr padded_pruning) ∧
  pruner_consistent padded_pruning ∧
  ∃ d1 d2 a1 a2,
    forward demo_unclamped padded_full_args = Ok (Output d1, a1) ∧
    forward demo_unclamped
      (with_top_spans_info padded_full_args (pruning_state_of padded_pruning))
      = Ok (Output d2, a2) ∧
    d1 !! "top_spans" = Some (VSpans [[(0, 0); (0, 0); (0, 0)]]) ∧
    d2 !! "top_spans" = Some (VSpans [[(0, 0); (-1, -1); (-1, -1)]]) ∧
    d1 !! "top_spans" ≠ d2 !! "top_spans".
Proof.
  split; [by split|]. split; [vm_compute; reflexivity|].
  split; [split; vm_compute; reflexivity|].
  eexists _, _, _, _. split; [vm_compute; reflexivity|].
  split; [vm_compute; reflexivity|].
  split; [reflexivity|]. split; [reflexivity|].
  intros Heq. vm_compute in Heq. discriminate Heq.
Qed.


(** C5, counterexample.  On the precomputed-scoring branch the matrix of
    the caller is decoded as it is: with a matrix whose rows score highest
    at the first antecedent slot, the kept span at position 0 receives the
    antecedent 0. *)
Lemma resumed_prediction_is_not_earlier :
  is_Some (present (coref_scores_info edited_args)) ∧
  ∃ d a',
    forward demo edited_args = Ok (Output d, a') ∧
    d !! "predicted_antecedents" = Some (VL2 [[0; 0; 0]]).
Proof.
  split; [vm_compute; eauto|].
  eexists _, _. split; vm_compute; reflexivity.
Qed.

(** C8, counterexample.  The resumed demo call, with labels, leaves its
    loss in the caller's output dictionary; a further call on the same
    state without labels returns that dictionary with the loss in it. *)
Lemma stale_loss_is_returned :
  forward demo demo_resume_args = Ok demo_resumed ∧
  span_labels demo_stale_args = None ∧
  ∃ d a',
    forward demo demo_stale_args = Ok (Output d, a') ∧
    d !! "loss" = Some (VScalar (Fin 6)).
Proof.
  split; [vm_compute; reflexivity|]. split; [reflexivity|].
  eexists _, _. split; vm_compute; reflexivity.
Qed.

(** * Further properties of forward *)

(** ** What each stage reads *)

Section Reads.
Context {F : Type} `{Scalar F}.
Implicit Types (self : ALCoreferenceResolver F) (a b : Args F).
Implicit Types (p : pruning F) (s : scored F).

Lemma prune_stage_ext self self' a b :
  same_front self self' →
  text a = text b → spans a = spans b →
  top_spans_info a = top_spans_info b →
  return_mention_scores a = return_mention_scores b →
  prune_stage self a = prune_stage self' b.
Proof.
  intros (? & ? & ? & ? & ? & ? & ? & ? & ?) ? ? ? ?.
  unfold prune_stage, prune_fresh, prune_given, num_spans_to_keep_of.
  destruct self, self', a, b; simpl in *; subst. reflexivity.
Qed.

Lemma prune_given_ext a b info :
  spans a = spans b → prune_given a info = prune_given b info.
Proof. unfold prune_given. by intros ->. Qed.

Lemma score_stage_ext self self' a b p :
  same_scorer self self' →
  get_scores a || return_coref_scores a
  = get_scores b || return_coref_scores b →
  return_coref_scores a = return_coref_scores b →
  score_stage self a p = score_stage self' b p.
Proof.
  intros (? & ? & ? & ?) Hg Hr.
  unfold score_stage, make_output_dict, coreference_scores_of, window_of,
    _compute_span_pair_embeddings, _compute_coreference_scores.
  rewrite Hg, Hr.
  destruct self, self'; simpl in *; subst. reflexivity.
Qed.

Lemma finish_ext self self' a b s :
  same_metrics self self' →
  get_scores a = get_scores b → span_labels a = span_labels b →
  metadata a = metadata b →
  finish self a s = finish self' b s.
Proof.
  intros (? & ?) Hg Hl Hm. unfold finish, loss_of.
  rewrite Hg, Hl, Hm.
  destruct self, self'; simpl in *; subst. reflexivity.
Qed.

(** X1.  A call that stops at a staged return (the mention scores of line
    190, the coreference-score state of line 285) reads neither
    [span_labels] nor [metadata] nor [get_scores], and calls neither metric
    object: two calls that differ in these only return the same dictionary
    or raise the same exception. *)
Theorem staged_return_reads_no_labels self self' a b :
  staged_return a →
  same_front self self' → same_scorer self self' →
  text a = text b → spans a = spans b →
  top_spans_info a = top_spans_info b →
  coref_scores_info a = coref_scores_info b →
  return_mention_scores a = return_mention_scores b →
  return_coref_scores a = return_coref_scores b →
  fst <$> forward self a = fst <$> forward self' b ∧
  ∀ o a', forward self a = Ok (o, a') → ∀ d, o ≠ Output d.
Proof.
  intros [Hnone Hst] Hfront Hscorer Ht Hs Hti Hci Hrm Hrc.
  assert (Hp : prune_stage self a = prune_stage self' b)
    by by apply prune_stage_ext.
  assert (Hinl : ∀ p, return_coref_scores a = false →
            prune_stage self a ≠ Ok (inr p)).
  { intros p Hfalse Hpr. destruct Hst as [Htrue|[Hnt Hrms]]; [congruence|].
    unfold prune_stage in Hpr. rewrite Hnt in Hpr.
    apply prune_fresh_inr in Hpr as [? _]. congruence. }
  split.
  - unfold forward. rewrite <- Hci, Hnone, <- Hp.
    destruct (prune_stage self a) as [[d|p]|] eqn:Hpr; simpl; [done| |done].
    destruct (return_coref_scores a) eqn:Hret;
      [|by destruct (Hinl p eq_refl)].
    rewrite <- (score_stage_ext self self' a b p Hscorer).
    + destruct (score_stage self a p) as [[d|s]|] eqn:Hsc; simpl; [done| |done].
      apply score_stage_inr in Hsc as (? & ? & ? & _ & _ & _ & ? & _).
      congruence.
    + by rewrite <- Hrc, Hret, !orb_true_r.
    + by rewrite <- Hrc.
  - intros o a' Hf d ->.
    apply forward_inv in Hf
      as [(_ & _ & [(? & [=] & _)|(p & Hpr & [(? & [=] & _)|(s & d' & _ & Hsc & _)])])
         |(info & _ & _ & ? & _)]; [|congruence].
    apply score_stage_inr in Hsc as (? & ? & ? & _ & _ & _ & Hfalse & _).
    by destruct (Hinl p Hfalse).
Qed.

(** X2.  A call with a non-empty [coref_scores_info] (lines 286-301) reads
    neither [text], [spans], [top_spans_info] nor the two [return_...]
    flags, and uses no part of the model but the metrics: the dictionary it
    returns, or the exception it raises, is fixed by the state,
    [get_scores], [span_labels] and [metadata]; and it always goes to the
    final return, also under [return_coref_scores]. *)
Theorem scoring_resume_reads_only_state self self' a b info :
  present (coref_scores_info a) = Some info →
  same_metrics self self' →
  coref_scores_info a = coref_scores_info b →
  get_scores a = get_scores b → span_labels a = span_labels b →
  metadata a = metadata b →
  fst <$> forward self a = fst <$> forward self' b ∧
  ∀ o a', forward self a = Ok (o, a') → ∃ d, o = Output d.
Proof.
  intros Hinfo Hm Hci Hg Hl Hmd. split.
  - unfold forward. rewrite <- Hci, Hinfo.
    destruct (scored_given info) as [s|]; simpl; [|done].
    rewrite (finish_ext self self' a b s) by done.
    by destruct (finish self' b s).
  - intros o a' Hf.
    apply forward_inv in Hf
      as [(? & _)|(? & s & d & _ & _ & _ & -> & _)]; [congruence|eauto].
Qed.

(** X3.  A call with a non-empty [top_spans_info] (lines 207-217) reads
    neither [text] nor [return_mention_scores], and uses neither the text
    encoder nor the span extractors nor the pruner: it never returns at the
    mention-scores return, and two calls that differ in these only return
    the same dictionary or raise the same exception. *)
Theorem pruning_resume_reads_no_text self self' a b info :
  present (coref_scores_info a) = None →
  present (top_spans_info a) = Some info →
  same_scorer self self' → same_metrics self self' →
  spans a = spans b → span_labels a = span_labels b →
  metadata a = metadata b → get_scores a = get_scores b →
  top_spans_info a = top_spans_info b →
  coref_scores_info a = coref_scores_info b →
  return_coref_scores a = return_coref_scores b →
  fst <$> forward self a = fst <$> forward self' b ∧
  ∀ o a', forward self a = Ok (o, a') → ∀ d, o ≠ MentionScores d.
Proof.
  intros Hnone Hinfo Hsc Hm Hs Hl Hmd Hg Hti Hci Hrc.
  assert (Hp : prune_stage self a = inr <$> prune_given a info).
  { unfold prune_stage. by rewrite Hinfo. }
  split.
  - unfold forward. rewrite <- Hci, Hnone, Hp.
    unfold prune_stage. rewrite <- Hti, Hinfo.
    rewrite <- (prune_given_ext a b info Hs).
    destruct (prune_given a info) as [p|]; simpl; [|done].
    rewrite <- (score_stage_ext self self' a b p Hsc);
      [|by rewrite Hg, Hrc|done].
    destruct (score_stage self a p) as [[d|s]|]; simpl; [done| |done].
    rewrite (finish_ext self self' a b s) by done.
    by destruct (finish self' b s).
  - intros o a' Hf d ->.
    apply forward_inv in Hf
      as [(_ & _ & [(? & _ & Hpr)|(p & _ & [(? & [=] & _)|(? & ? & [=] & _)])])
         |(? & ? & ? & _ & _ & _ & [=] & _)].
    rewrite Hp in Hpr. by destruct (prune_given a info).
Qed.

(** A dictionary with an entry is not empty. *)
Lemma present_lookup (d : gmap string (value F)) k v :
  d !! k = Some v → present (Some d) = Some d.
Proof.
  intros Hk. unfold present, truthy.
  destruct (size d) eqn:Hsz; [|done].
  apply map_size_empty_inv in Hsz. by rewrite Hsz, lookup_empty in Hk.
Qed.

Lemma present_absent (d : option (gmap string (value F))) :
  absent d → present d = None.
Proof. by intros [-> | ->]. Qed.

(** X4.  The tests [if not coref_scores_info] and [if not top_spans_info]
    (lines 147-148) take an empty dictionary as they take [None]: a call
    that passes [{}] for either argument runs the fresh path and returns
    what the call without the argument returns, instead of raising
    [KeyError] on the first key it would read. *)
Theorem empty_state_is_no_state self a b :
  absent (top_spans_info a) → absent (top_spans_info b) →
  absent (coref_scores_info a) → absent (coref_scores_info b) →
  text a = text b → spans a = spans b → span_labels a = span_labels b →
  metadata a = metadata b → get_scores a = get_scores b →
  return_mention_scores a = return_mention_scores b →
  return_coref_scores a = return_coref_scores b →
  fst <$> forward self a = fst <$> forward self b ∧
  fresh_path a.
Proof.
  intros Hta Htb Hca Hcb Ht Hs Hl Hmd Hg Hrm Hrc.
  split; [|by split; apply present_absent].
  unfold forward, prune_stage.
  rewrite !present_absent by done.
  assert (Hp : prune_fresh self a = prune_fresh self b).
  { unfold prune_fresh. by rewrite Ht, Hs, Hrm. }
  rewrite <- Hp.
  destruct (prune_fresh self a) as [[d|p]|]; simpl; [done| |done].
  rewrite <- (score_stage_ext self self a b p);
    [|done|by rewrite Hg, Hrc|done].
  destruct (score_stage self a p) as [[d|s]|]; simpl; [done| |done].
  rewrite (finish_ext self self a b s) by done.
  by destruct (finish self b s).
Qed.

Lemma prune_given_no_top_scores a (info : gmap string (value F)) t :
  info !! "mention_scores" = Some (VF2 t) → info !! "top_scores" = None →
  prune_given a info = Raise (KeyError "top_scores").
Proof. intros Hm Ht. unfold prune_given, getitem. by rewrite Hm, Ht. Qed.

(** X5.  The dictionary of the mention-scores return (lines 188-189) has
    the keys [num_spans_to_keep], [mention_scores], [mask], [embeds] and
    [text_mask]; the branch that consumes [top_spans_info] reads
    [top_scores] second (line 210).  A call that is handed the returned
    dictionary as it is raises [KeyError] there, whatever the model and the
    other arguments. *)
Theorem mention_scores_state_lacks_top_scores self self' a a' b d :
  forward self a = Ok (MentionScores d, a') →
  present (coref_scores_info b) = None →
  top_spans_info b = Some d →
  forward self' b = Raise (KeyError "top_scores").
Proof.
  intros Hf Hnone Hinfo.
  apply forward_inv in Hf
    as [(_ & _ & [(d' & [= <-] & Hp)|(p & _ & [(? & [=] & _)|(? & ? & [=] & _)])])
       |(? & ? & ? & _ & _ & _ & [=] & _)].
  unfold prune_stage in Hp.
  destruct (present (top_spans_info a)) as [info|].
  { by destruct (prune_given a info). }
  unfold prune_fresh in Hp.
  destruct (cat_last _ _) as [emb|]; simpl in Hp; [|done].
  destruct (num_spans_to_keep_of _ _) as [K|]; simpl in Hp; [|done].
  destruct (_mention_pruner_scores _ _ _ _) as [scores|]; simpl in Hp; [|done].
  destruct (return_mention_scores a).
  2:{ by destruct (_mention_pruner _ _ _ _ _). }
  injection Hp as <-.
  unfold forward, prune_stage. rewrite Hnone, Hinfo.
  erewrite present_lookup; [|apply lookup_insert_eq].
  erewrite prune_given_no_top_scores; [done| |].
  - rewrite lookup_insert_ne by done. apply lookup_insert_eq.
  - by rewrite !lookup_insert_ne, lookup_empty by done.
Qed.

End Reads.

(** ** The tail of forward *)

Section Tail.
Context {F : Type} `{Scalar F}.
Implicit Types (self : ALCoreferenceResolver F) (a b : Args F).
Implicit Types (p : pruning F) (s : scored F).
Implicit Types (d od info : gmap string (value F)).

(** Lines 302-341, step by step. *)
Lemma finish_inv self a s d :
  finish self a s = Ok d →
  ∃ d1 d2,
    d1 = (if get_scores a
          then <["top_span_indices" := VL2 (s_top_span_indices s)]>
                 (s_output_dict s)
          else s_output_dict s) ∧
    match span_labels a with
    | Some labels => ∃ l, loss_of self a labels s = Ok l ∧
                          d2 = <["loss" := VScalar l]> d1
    | None => d2 = d1
    end ∧
    match metadata a with
    | Some md => ∃ doc, mapR original_text_of md = Ok doc ∧
                        d = <["document" := VDoc doc]> d2
    | None => d = d2
    end.
Proof.
  unfold finish. intros Hf.
  set (d1 := if get_scores a
             then <["top_span_indices" := VL2 (s_top_span_indices s)]>
                    (s_output_dict s)
             else s_output_dict s) in *.
  destruct (span_labels a) as [labels|].
  - destruct (loss_of self a labels s) as [l|]; simpl in Hf; [|done].
    exists d1, (<["loss" := VScalar l]> d1).
    split; [done|]. split; [by exists l|].
    destruct (metadata a) as [md|]; [|by injection Hf].
    change (mapR _ md) with (mapR original_text_of md) in Hf.
    destruct (mapR original_text_of md) as [doc|]; simpl in Hf; [|done].
    injection Hf as <-. by exists doc.
  - simpl in Hf. exists d1, d1. split; [done|]. split; [done|].
    destruct (metadata a) as [md|]; [|by injection Hf].
    change (mapR _ md) with (mapR original_text_of md) in Hf.
    destruct (mapR original_text_of md) as [doc|]; simpl in Hf; [|done].
    injection Hf as <-. by exists doc.
Qed.

(** The loss does not read the output dictionary. *)
Lemma loss_of_output_dict self a labels od od' idx flat mask lm ts widx sc pr :
  loss_of self a labels (Scored od idx flat mask lm ts widx sc pr)
  = loss_of self a labels (Scored od' idx flat mask lm ts widx sc pr).
Proof. reflexivity. Qed.


Lemma make_output_dict_scores a ts idx pr (sc : list (list (list F))) :
  make_output_dict a ts idx pr sc !! "coreference_scores"
  = if get_scores a || return_coref_scores a then Some (VF3 sc) else None.
Proof.
  unfold make_output_dict.
  destruct (get_scores a || return_coref_scores a); by simplify_map_eq.
Qed.

Lemma make_output_dict_other a ts idx pr (sc : list (list (list F))) k :
  k ≠ "top_spans" → k ≠ "antecedent_indices" →
  k ≠ "predicted_antecedents" → k ≠ "coreference_scores" →
  make_output_dict a ts idx pr sc !! k = None.
Proof.
  intros. unfold make_output_dict.
  destruct (get_scores a || return_coref_scores a);
    by rewrite !lookup_insert_ne, lookup_empty by done.
Qed.

(** The state that the last part of forward runs on: its fields are the
    entries of its output dictionary. *)
Lemma forward_Output_inv self a a' d :
  forward self a = Ok (Output d, a') →
  ∃ s, finish self a s = Ok d ∧
       s_output_dict s !! "top_spans" = Some (VSpans (s_top_spans s)) ∧
       s_output_dict s !! "antecedent_indices"
         = Some (VL2 (s_valid_antecedent_indices s)) ∧
       s_output_dict s !! "predicted_antecedents"
         = Some (VL2 (s_predicted_antecedents s)) ∧
       (present (coref_scores_info a) = None →
        ∃ p, prune_stage self a = Ok (inr p) ∧
             score_stage self a p = Ok (inr s)).
Proof.
  intros Hf.
  apply forward_inv in Hf
    as [(Hnone & _ & [(? & [=] & _)|(p & Hp & [(? & [=] & _)|(s & d' & [= <-] & Hs & Hd)])])
       |(info & s & d' & Hinfo & Hs & Hd & [= <-] & _)].
  - exists s. split; [done|].
    pose proof Hs as Hs'.
    apply score_stage_inr in Hs' as (ts & sc & pr & _ & _ & _ & _ & ->).
    simpl.
    destruct (make_output_dict_lookup a ts (window_of self p).1.1 pr sc)
      as (? & ? & ? & _).
    repeat split; [done..|]. eauto.
  - exists s. split; [done|].
    apply scored_given_inv in Hs
      as (od & l & _ & _ & _ & _ & _ & _ & Hts & Hai & _ & _ & Hso).
    rewrite Hso, !lookup_insert_ne, lookup_insert_eq by done.
    repeat split; [done..|]. congruence.
Qed.

(** X6.  On the precomputed-scoring branch the output dictionary is the
    object that the caller stored under ["output_dict"] (line 292), updated
    in place (lines 301, 303, 337, 340).  After the call the caller's state
    holds the returned dictionary; the other arguments are as before; and
    the returned dictionary differs from the supplied one at most in the
    entries ["predicted_antecedents"], ["top_span_indices"], ["loss"] and
    ["document"], the first of which is always written. *)
Theorem scoring_resume_updates_the_state self a o a' info :
  present (coref_scores_info a) = Some info →
  forward self a = Ok (o, a') →
  ∃ od d,
    info !! "output_dict" = Some (VDict od) ∧ o = Output d ∧
    a' = with_coref_scores_info a (<["output_dict" := VDict d]> info) ∧
    (∀ k, k ∉ written_keys → d !! k = od !! k) ∧
    is_Some (d !! "predicted_antecedents").
Proof.
  intros Hinfo Hf.
  apply forward_inv in Hf
    as [(? & _)|(info' & s & d & Hinfo' & Hs & Hd & -> & ->)]; [congruence|].
  rewrite Hinfo in Hinfo'. injection Hinfo' as <-.
  apply scored_given_output_dict in Hs as (od & Hod & Hso).
  exists od, d. split; [done|]. split; [done|]. split; [done|]. split.
  - intros k Hk. unfold written_keys in Hk.
    rewrite (finish_lookup _ _ _ _ k Hd), Hso; [|set_solver..].
    rewrite lookup_insert_ne; [done|set_solver].
  - rewrite (finish_lookup _ _ _ _ "predicted_antecedents" Hd) by done.
    rewrite Hso, lookup_insert_eq. eauto.
Qed.

Lemma scored_given_intro info od l idx flat mask lm ts widx sc pr :
  info !! "top_span_inds" = Some (VList l) →
  l !! 0%nat = Some (VL2 idx) → l !! 1%nat = Some (VL1 flat) →
  info !! "top_span_mask" = Some (VF2 mask) →
  info !! "valid_antecedent_log_mask" = Some (VF2 lm) →
  info !! "output_dict" = Some (VDict od) →
  od !! "top_spans" = Some (VSpans ts) →
  od !! "antecedent_indices" = Some (VL2 widx) →
  od !! "coreference_scores" = Some (VF3 sc) →
  decode sc = Ok pr →
  scored_given info
  = Ok (Scored (<["predicted_antecedents" := VL2 pr]> od) idx flat mask lm
               ts widx sc pr).
Proof.
  intros H1 H2 H3 H4 H5 H6 H7 H8 H9 H10.
  unfold scored_given, getitem, list_item.
  rewrite H1. simpl. rewrite H2, H3. simpl. rewrite H4, H5, H6. simpl.
  rewrite H7, H8, H9. simpl. by rewrite H10.
Qed.

(** The last part of forward writes again what it wrote. *)
Lemma finish_fixed self a od idx flat mask lm ts widx sc pr d :
  od !! "predicted_antecedents" = Some (VL2 pr) →
  finish self a (Scored od idx flat mask lm ts widx sc pr) = Ok d →
  finish self a (Scored (<["predicted_antecedents" := VL2 pr]> d) idx flat
                        mask lm ts widx sc pr) = Ok d.
Proof.
  intros Hpr Hd.
  destruct (finish_inv _ _ _ _ Hd) as (d1 & d2 & Hd1 & Hd2 & Hd3).
  simpl in Hd1.
  assert (Hpd : d !! "predicted_antecedents" = Some (VL2 pr)).
  { rewrite (finish_lookup _ _ _ _ "predicted_antecedents" Hd) by done.
    done. }
  unfold finish. simpl. rewrite (insert_id d _ _ Hpd).
  assert (E1 : (if get_scores a then <["top_span_indices" := VL2 idx]> d
                else d) = d).
  { destruct (get_scores a); [|done]. apply insert_id.
    destruct (span_labels a), (metadata a);
      repeat match goal with
      | H : ∃ _, _ |- _ => destruct H as (? & ? & ?)
      end; subst; by simplify_map_eq. }
  rewrite E1.
  destruct (span_labels a) as [labels|].
  - destruct Hd2 as (l & Hl & ->).
    rewrite (loss_of_output_dict self a labels _ od), Hl. simpl.
    assert (E2 : <["loss" := VScalar l]> d = d).
    { apply insert_id.
      destruct (metadata a);
        repeat match goal with
        | H : ∃ _, _ |- _ => destruct H as (? & ? & ?)
        end; subst; by simplify_map_eq. }
    rewrite E2.
    destruct (metadata a) as [md|]; [|done].
    destruct Hd3 as (doc & Hdoc & ->).
    change (mapR _ md) with (mapR original_text_of md). rewrite Hdoc. simpl.
    by rewrite insert_insert_eq.
  - simpl. destruct (metadata a) as [md|]; [|done].
    destruct Hd3 as (doc & Hdoc & ->).
    change (mapR _ md) with (mapR original_text_of md). rewrite Hdoc. simpl.
    by rewrite insert_insert_eq.
Qed.

(** X7.  The precomputed-scoring branch reaches a fixed point after one
    call: run again on the state that the first call left (the caller's
    dictionary, updated in place), forward returns the same dictionary and
    leaves the state as it is. *)
Theorem scoring_resume_is_idempotent self a o a' info :
  present (coref_scores_info a) = Some info →
  forward self a = Ok (o, a') →
  forward self a' = Ok (o, a').
Proof.
  intros Hinfo Hf.
  apply forward_inv in Hf
    as [(? & _)|(info' & s & d & Hinfo' & Hs & Hd & -> & ->)]; [congruence|].
  rewrite Hinfo in Hinfo'. injection Hinfo' as <-.
  apply scored_given_inv in Hs
    as (od & l & Hl & Hl0 & Hl1 & Hmask & Hlm & Hod & Hts & Hai & Hsc & Hdec
        & Hso).
  destruct s as [od0 idx flat mask lm ts widx sc pr]. simpl in *. subst od0.
  assert (Hk : ∀ k, k ≠ "predicted_antecedents" → k ≠ "top_span_indices" →
                    k ≠ "loss" → k ≠ "document" → d !! k = od !! k).
  { intros k ? ? ? ?. rewrite (finish_lookup _ _ _ _ k Hd) by done.
    simpl. by rewrite lookup_insert_ne. }
  unfold forward.
  change (coref_scores_info (with_output_dict a info d))
    with (Some (<["output_dict" := VDict d]> info)).
  rewrite (present_lookup _ "output_dict" (VDict d))
    by apply lookup_insert_eq.
  rewrite (scored_given_intro _ d l idx flat mask lm ts widx sc pr);
    [|by rewrite ?lookup_insert_ne, ?lookup_insert_eq by done..
     |by rewrite Hk|by rewrite Hk|by rewrite Hk|done].
  simpl.
  change (finish self (with_output_dict a info d))
    with (finish self a).
  rewrite (finish_fixed _ _ _ _ _ _ _ _ _ _ _ _ (lookup_insert_eq _ _ _) Hd).
  simpl. unfold with_output_dict. simpl. by rewrite insert_insert_eq.
Qed.


(** X8.  [get_scores] changes the result of a call that runs to the end
    only by adding two entries to the dictionary of the final return: the
    score matrix under ["coreference_scores"] (line 281) and the kept
    indices under ["top_span_indices"] (line 303).  The other entries, the
    loss among them, and the exceptions are the same; the mention-scores
    return is not affected at all. *)
Theorem get_scores_only_adds_entries self a :
  present (coref_scores_info a) = None →
  return_coref_scores a = false →
  res_rel (λ r r', adds_scores r.1 r'.1)
    (forward self (with_get_scores a false))
    (forward self (with_get_scores a true)).
Proof.
  intros Hnone Hrc. unfold forward.
  change (coref_scores_info (with_get_scores a false))
    with (coref_scores_info a).
  change (coref_scores_info (with_get_scores a true))
    with (coref_scores_info a).
  rewrite Hnone.
  change (prune_stage self (with_get_scores a false))
    with (prune_stage self a).
  change (prune_stage self (with_get_scores a true))
    with (prune_stage self a).
  destruct (prune_stage self a) as [[d|p]|]; simpl; [done| |done].
  unfold score_stage.
  destruct (batched_index_select _ _ _) as [ts|]; simpl; [|done].
  destruct (window_of self p) as [[widx offs] lm].
  destruct (coreference_scores_of self p) as [sc|]; simpl; [|done].
  destruct (decode sc) as [pr|]; simpl; [|done].
  rewrite Hrc. simpl.
  unfold finish, make_output_dict. simpl. rewrite Hrc. simpl.
  destruct (span_labels a) as [labels|]; simpl.
  - rewrite (loss_of_output_dict self (with_get_scores a true) labels _
               (<["top_spans" := VSpans ts]>
                (<["antecedent_indices" := VL2 widx]>
                 (<["predicted_antecedents" := VL2 pr]> ∅)))).
    change (loss_of self (with_get_scores a true))
      with (loss_of self (with_get_scores a false)).
    destruct (loss_of self (with_get_scores a false) labels _) as [l|];
      simpl; [|done].
    destruct (metadata a) as [md|]; simpl.
    + destruct (mapR _ md) as [doc|]; simpl; [|done].
      split; [by simplify_map_eq|]. split; [by simplify_map_eq|].
      exists sc, (p_top_span_indices p).
      apply map_eq. intros k.
      repeat (rewrite lookup_insert; case_decide; simplify_eq; try done).
    + split; [by simplify_map_eq|]. split; [by simplify_map_eq|].
      exists sc, (p_top_span_indices p).
      apply map_eq. intros k.
      repeat (rewrite lookup_insert; case_decide; simplify_eq; try done).
  - destruct (metadata a) as [md|]; simpl.
    + destruct (mapR _ md) as [doc|]; simpl; [|done].
      split; [by simplify_map_eq|]. split; [by simplify_map_eq|].
      exists sc, (p_top_span_indices p).
      apply map_eq. intros k.
      repeat (rewrite lookup_insert; case_decide; simplify_eq; try done).
    + split; [by simplify_map_eq|]. split; [by simplify_map_eq|].
      by exists sc, (p_top_span_indices p).
Qed.

(** X9.  The entry ["document"] of the final return (lines 339-340) lists
    the ["original_text"] of every metadata dictionary, in the order of the
    batch; a call that returns there has found the key in each of them.
    Without metadata, a dictionary that forward built itself has no such
    entry. *)
Theorem document_lists_original_text self a a' d :
  forward self a = Ok (Output d, a') →
  match metadata a with
  | Some md =>
      ∃ doc, d !! "document" = Some (VDoc doc) ∧
             Forall2 (λ m t, m !! "original_text" = Some t) md doc
  | None => present (coref_scores_info a) = None → d !! "document" = None
  end.
Proof.
  intros Hf.
  destruct (forward_Output_inv _ _ _ _ Hf) as (s & Hd & _ & _ & _ & Hfresh).
  destruct (finish_inv _ _ _ _ Hd) as (d1 & d2 & Hd1 & Hd2 & Hd3).
  destruct (metadata a) as [md|].
  - destruct Hd3 as (doc & Hdoc & ->). exists doc.
    split; [apply lookup_insert_eq|].
    apply mapR_Forall2 in Hdoc. eapply Forall2_impl; [exact Hdoc|].
    intros m t. unfold original_text_of.
    destruct (m !! "original_text"); [by intros [= ->]|done].
  - intros Hnone. destruct (Hfresh Hnone) as (p & _ & Hs).
    apply score_stage_inr in Hs as (ts & sc & pr & _ & _ & _ & _ & ->).
    simpl in Hd1. subst d.
    assert (Hd1k : d1 !! "document" = None).
    { subst d1. destruct (get_scores a);
        rewrite ?lookup_insert_ne by done; by apply make_output_dict_other. }
    destruct (span_labels a) as [labels|].
    + destruct Hd2 as (l & _ & ->). by rewrite lookup_insert_ne.
    + by subst d2.
Qed.

(** X10.  When labels are given, the two metric objects are called (lines
    334-335) with the very tensors that the call returns under
    ["top_spans"], ["antecedent_indices"] and ["predicted_antecedents"],
    and both calls have returned before forward returns. *)
Theorem metrics_see_the_returned_tensors self a a' d labels :
  forward self a = Ok (Output d, a') →
  span_labels a = Some labels →
  ∃ ts idx pr,
    d !! "top_spans" = Some (VSpans ts) ∧
    d !! "antecedent_indices" = Some (VL2 idx) ∧
    d !! "predicted_antecedents" = Some (VL2 pr) ∧
    _mention_recall self ts (metadata a) = Ok () ∧
    _conll_coref_scores self ts idx pr (metadata a) = Ok ().
Proof.
  intros Hf Hl.
  destruct (forward_Output_inv _ _ _ _ Hf) as (s & Hd & Hts & Hai & Hpr & _).
  exists (s_top_spans s), (s_valid_antecedent_indices s),
    (s_predicted_antecedents s).
  rewrite !(finish_lookup _ _ _ _ _ Hd) by done.
  split; [done|]. split; [done|]. split; [done|].
  destruct (finish_loss_Some _ _ _ _ _ Hd Hl) as (l & Hloss & _).
  unfold loss_of in Hloss.
  destruct (gold_antecedent_labels_of labels s); simpl in Hloss; [|done].
  destruct (negative_marginal_log_likelihood_of _ _ _); simpl in Hloss;
    [|done].
  destruct (_mention_recall self _ _) as [[]|]; simpl in Hloss; [|done].
  by destruct (_conll_coref_scores self _ _ _ _) as [[]|].
Qed.

Lemma finish_no_labels self self' a s :
  span_labels a = None → finish self a s = finish self' a s.
Proof. intros Hl. unfold finish. by rewrite Hl. Qed.

(** X11.  Without [span_labels] forward calls neither metric object: what
    it returns or raises is the same for any two models that differ in
    their metrics only. *)
Theorem metrics_need_labels self self' a :
  same_front self self' → same_scorer self self' →
  span_labels a = None →
  forward self a = forward self' a.
Proof.
  intros Hfront Hsc Hl. unfold forward.
  destruct (present (coref_scores_info a)) as [info|].
  - destruct (scored_given info) as [s|]; simpl; [|done].
    by rewrite (finish_no_labels self self').
  - rewrite <- (prune_stage_ext self self' a a) by done.
    destruct (prune_stage self a) as [[d|p]|]; simpl; [done| |done].
    rewrite <- (score_stage_ext self self' a a p) by done.
    destruct (score_stage self a p) as [[d|s]|]; simpl; [done| |done].
    by rewrite (finish_no_labels self self').
Qed.


Lemma prune_given_inv a info p :
  prune_given a info = Ok p →
  ∃ top_scores,
    info !! "top_scores" = Some (VF2 top_scores) ∧
    p_top_span_mention_scores p = top_scores ∧
    p_num_spans_to_keep p = size1 top_scores ∧
    p_spans p = spans a ∧
    info !! "span_indices" = Some (VL2 (p_top_span_indices p)) ∧
    info !! "flat_top_indices" = Some (VL1 (p_flat_top_span_indices p)).
Proof.
  unfold prune_given. intros Hp. res_inv.
  repeat match goal with
  | H : getitem _ _ = Ok _ |- _ => apply getitem_Ok in H
  | H : as_F2 _ = Ok _ |- _ => apply as_F2_Ok in H; subst
  | H : as_F3 _ = Ok _ |- _ => apply as_F3_Ok in H; subst
  | H : as_L1 _ = Ok _ |- _ => apply as_L1_Ok in H; subst
  | H : as_L2 _ = Ok _ |- _ => apply as_L2_Ok in H; subst
  end.
  simpl. eauto 10.
Qed.

(** X12.  On the precomputed-pruning branch the number of kept spans is
    read off the supplied kept scores ([top_scores.size(1)], line 211), not
    computed from [spans_per_word]: the antecedent window has that many
    rows, and [min(max_antecedents, top_scores.size(1))] columns. *)
Theorem pruning_resume_counts_supplied_scores self a o a' od info :
  present (coref_scores_info a) = None →
  present (top_spans_info a) = Some info →
  forward self a = Ok (o, a') → output_dict_of o = Some od →
  ∃ top_scores idx,
    info !! "top_scores" = Some (VF2 top_scores) ∧
    od !! "antecedent_indices" = Some (VL2 idx) ∧
    length idx = Z.to_nat (size1 top_scores) ∧
    Forall (λ row, length row
                   = Z.to_nat (Z.min (_max_antecedents self)
                                     (size1 top_scores))) idx.
Proof.
  intros Hnone Hinfo Hf Ho.
  destruct (forward_window _ _ _ _ _ Hnone Hf Ho) as (p & Hp & Hidx).
  unfold prune_stage in Hp. rewrite Hinfo in Hp.
  destruct (prune_given a info) as [p'|] eqn:Hpg; simpl in Hp; [|done].
  injection Hp as ->.
  apply prune_given_inv in Hpg as (tsc & Htsc & _ & HK & _).
  exists tsc, (window_of self p).1.1. unfold window_of. rewrite HK.
  split; [done|]. split; [by rewrite <- HK|].
  split; [apply window_indices_length|apply window_indices_width].
Qed.

(** X13.  A returned output dictionary that carries the score matrix is
    consistent with it: the entry ["coreference_scores"] is the matrix of
    the call, and decoding it again (first maximum of each row, minus one)
    gives the returned ["predicted_antecedents"].  The matrix is there
    under [get_scores], under [return_coref_scores], and on the
    precomputed-scoring branch. *)
Theorem returned_scores_decode_to_predictions self a (o : outcome F) a' od :
  forward self a = Ok (o, a') → output_dict_of o = Some od →
  (get_scores a = true ∨ return_coref_scores a = true ∨
   is_Some (present (coref_scores_info a)) →
   is_Some (od !! "coreference_scores")) ∧
  ∀ v, od !! "coreference_scores" = Some v →
    ∃ sc pr, v = VF3 sc ∧ score_matrix_of self a = Ok sc ∧
             decode sc = Ok pr ∧
             od !! "predicted_antecedents" = Some (VL2 pr).
Proof.
  intros Hf Ho. unfold score_matrix_of.
  apply forward_inv in Hf
    as [(Hnone & _ & [(d & -> & Hp)|(p & Hp & [(d & -> & Hs)|(s & d & -> & Hs & Hd)])])
       |(info & s & d & Hinfo & Hs & Hd & -> & _)]; simpl in Ho.
  - done.
  - apply score_stage_inl in Hs as (ts & sc & pr & _ & Hsc & Hdec & -> & Hret).
    unfold ret_values in Ho. rewrite lookup_insert_eq in Ho.
    injection Ho as <-. rewrite make_output_dict_scores, Hret, orb_true_r.
    split; [by eauto|]. intros v [= <-]. exists sc, pr.
    rewrite Hnone, Hp. simpl.
    repeat split; [done..|]. apply make_output_dict_lookup.
  - injection Ho as <-.
    rewrite !(finish_lookup _ _ _ _ _ Hd) by done.
    apply score_stage_inr in Hs as (ts & sc & pr & _ & Hsc & Hdec & Hret & ->).
    simpl. rewrite make_output_dict_scores, Hret, orb_false_r.
    rewrite Hnone, Hp. simpl. split.
    + intros [->|[?|[? ?]]]; [by eauto|congruence..].
    + destruct (get_scores a); [|done]. intros v [= <-]. exists sc, pr.
      repeat split; [done..|]. apply make_output_dict_lookup.
  - injection Ho as <-.
    rewrite !(finish_lookup _ _ _ _ _ Hd) by done.
    apply scored_given_inv in Hs
      as (od & l & _ & _ & _ & _ & _ & Hod & _ & _ & Hsc & Hdec & ->).
    rewrite lookup_insert_ne, lookup_insert_eq, Hsc, Hinfo by done.
    split; [by eauto|]. intros v [= <-].
    exists (s_coreference_scores s), (s_predicted_antecedents s).
    unfold getitem. rewrite Hod. simpl. by rewrite Hsc.
Qed.

(** X14.  The keys of what forward returns when it builds the dictionary
    itself.  The mention-scores return (lines 188-189) has five keys; the
    coreference-score state (lines 283-284) has four, and its output
    dictionary always carries the score matrix; the final return has the
    three prediction entries, the two score entries under [get_scores], the
    loss with labels and the document with metadata, and nothing else. *)
Theorem returned_keys self a (o : outcome F) a' :
  present (coref_scores_info a) = None →
  forward self a = Ok (o, a') →
  match o with
  | MentionScores d =>
      dom d = ({[ "num_spans_to_keep"; "mention_scores"; "mask"; "embeds";
                  "text_mask" ]} : gset string)
  | CorefScores st =>
      dom st = ({[ "output_dict"; "top_span_inds"; "top_span_mask";
                   "ant_mask" ]} : gset string) ∧
      ∃ od, st !! "output_dict" = Some (VDict od) ∧
            dom od = ({[ "top_spans"; "antecedent_indices";
                         "predicted_antecedents"; "coreference_scores" ]}
                      : gset string)
  | Output d => dom d = output_keys a
  end.
Proof.
  intros Hnone Hf.
  apply forward_inv in Hf
    as [(_ & _ & [(d & -> & Hp)|(p & Hp & [(d & -> & Hs)|(s & d & -> & Hs & Hd)])])
       |(info & s & d & Hinfo & _)]; [| | |congruence].
  - unfold prune_stage in Hp.
    destruct (present (top_spans_info a)) as [info|].
    { by destruct (prune_given a info). }
    unfold prune_fresh in Hp.
    destruct (cat_last _ _) as [emb|]; simpl in Hp; [|done].
    destruct (num_spans_to_keep_of _ _) as [K|]; simpl in Hp; [|done].
    destruct (_mention_pruner_scores _ _ _ _) as [scores|];
      simpl in Hp; [|done].
    destruct (return_mention_scores a).
    2:{ by destruct (_mention_pruner _ _ _ _ _). }
    injection Hp as <-. rewrite !dom_insert_L, dom_empty_L. set_solver.
  - apply score_stage_inl in Hs as (ts & sc & pr & _ & _ & _ & -> & Hret).
    unfold ret_values. split.
    + rewrite !dom_insert_L, dom_empty_L. set_solver.
    + eexists. split; [apply lookup_insert_eq|].
      unfold make_output_dict. rewrite Hret, orb_true_r.
      rewrite !dom_insert_L, dom_empty_L. set_solver.
  - apply score_stage_inr in Hs as (ts & sc & pr & _ & _ & _ & Hret & ->).
    destruct (finish_inv _ _ _ _ Hd) as (d1 & d2 & Hd1 & Hd2 & Hd3).
    simpl in Hd1. unfold make_output_dict in Hd1.
    rewrite Hret, orb_false_r in Hd1. unfold output_keys.
    destruct (get_scores a), (span_labels a) as [labels|],
      (metadata a) as [md|];
      repeat match goal with
      | H : ∃ _, _ |- _ => destruct H as (? & ? & ?)
      end; subst; rewrite !dom_insert_L, dom_empty_L; set_solver.
Qed.

End Tail.

(** ** The kept spans *)

Lemma mapR_app_inv {A B} (f : A → res B) (l1 l2 : list A) (r : list B) :
  mapR f (l1 ++ l2) = Ok r →
  ∃ r1 r2, r = r1 ++ r2 ∧ mapR f l1 = Ok r1 ∧ mapR f l2 = Ok r2.
Proof.
  intros Hm%mapR_Forall2. apply Forall2_app_inv_l in Hm
    as (r1 & r2 & H1 & H2 & ->).
  exists r1, r2. split; [done|]. by split; apply mapR_Forall2.
Qed.

(** Reading a concatenation of rows and cutting the result along rows of
    the same lengths reads row by row. *)
Lemma view_as_mapR_concat {A B C} (f : A → res B) (rows : list (list A))
    (shape : list (list C)) (flat : list B) (ts : list (list B)) :
  Forall2 (λ row srow, length row = length srow) rows shape →
  mapR f (concat rows) = Ok flat →
  view_as shape flat = Ok ts →
  Forall2 (λ row trow, mapR f row = Ok trow) rows ts.
Proof.
  intros Hsh. revert flat ts.
  induction Hsh as [|row srow rows shape Hlen Hsh IH]; intros flat ts Hm Hv;
    simpl in *.
  - injection Hm as <-. simpl in Hv. injection Hv as <-. constructor.
  - apply mapR_app_inv in Hm as (r1 & r2 & -> & Hr1 & Hr2).
    pose proof (mapR_length _ _ _ Hr1) as Hl1.
    case_decide as Hle; [|done].
    destruct (view_as shape _) as [rest|] eqn:Hrest; simpl in Hv; [|done].
    injection Hv as <-.
    rewrite <- Hlen, <- Hl1 in Hrest |- *.
    rewrite drop_app_length in Hrest. rewrite take_app_length.
    constructor; [done|]. by eapply IH.
Qed.

Lemma concat_mjoin {A} (ls : list (list A)) : concat ls = mjoin ls.
Proof. induction ls as [|l ls IH]; simpl; [done|]. by rewrite IH. Qed.

(** Lines 206 and 221-223 together: with a target whose rows all have the
    length that the indices were shifted by, the entry at [(b, k)] of the
    selection is the entry of row [b] of the target at the index held at
    [(b, k)], for an index within the row. *)
Lemma batched_index_select_shifted {A} (target : list (list A))
    (indices : list (list Z)) (ts : list (list A)) :
  rectangular target →
  batched_index_select target indices
    (flatten_and_batch_shift_indices indices (size1 target)) = Ok ts →
  Forall2 (λ irow trow, length irow = length trow) indices ts ∧
  ∀ b irow k i, indices !! b = Some irow → irow !! k = Some i →
    0 ≤ i < size1 target →
    ∃ trow srow x, ts !! b = Some trow ∧ trow !! k = Some x ∧
                   target !! b = Some srow ∧ srow !! Z.to_nat i = Some x.
Proof.
  intros Hrect Hsel. unfold batched_index_select in Hsel.
  destruct (mapR _ _) as [flat|] eqn:Hflat; simpl in Hsel; [|done].
  unfold flatten_and_batch_shift_indices in Hflat.
  set (N := size1 target) in *.
  assert (Hrows : Forall2 (λ row trow,
            mapR (index_select (concat target)) row = Ok trow)
            (imap (λ b row, map (λ k, k + Z.of_nat b * N) row) indices) ts).
  { eapply view_as_mapR_concat; [|exact Hflat|exact Hsel].
    apply Forall2_same_length_lookup_2; [by rewrite length_imap|].
    intros b row srow Hrow Hsrow. rewrite list_lookup_imap, Hsrow in Hrow.
    simpl in Hrow. injection Hrow as <-. by rewrite length_map. }
  split.
  - apply Forall2_same_length_lookup_2.
    { apply Forall2_length in Hrows. by rewrite length_imap in Hrows. }
    intros b irow trow Hirow Htrow.
    pose proof (Forall2_lookup_r _ _ _ _ _ Hrows Htrow) as (row & Hrow & Hm).
    rewrite list_lookup_imap, Hirow in Hrow. simpl in Hrow.
    injection Hrow as <-. apply mapR_length in Hm.
    by rewrite length_map in Hm.
  - intros b irow k i Hirow Hi Hrange.
    assert (Hrow : imap (λ b row, map (λ k, k + Z.of_nat b * N) row) indices
                     !! b = Some (map (λ k, k + Z.of_nat b * N) irow)).
    { by rewrite list_lookup_imap, Hirow. }
    destruct (Forall2_lookup_l _ _ _ _ _ Hrows Hrow) as (trow & Htrow & Hm).
    apply mapR_Forall2 in Hm.
    assert (Hk : map (λ k, k + Z.of_nat b * N) irow !! k
                 = Some (i + Z.of_nat b * N)).
    { by rewrite lookup_map, Hi. }
    destruct (Forall2_lookup_l _ _ _ _ _ Hm Hk) as (x & Hx & Hsel').
    unfold index_select in Hsel'.
    destruct (_ <? 0) eqn:Hneg; [done|].
    destruct (concat target !! _) as [x'|] eqn:Hcat; [|done].
    injection Hsel' as ->.
    assert (Hrect' : Forall (λ l, length l = Z.to_nat N) target).
    { eapply Forall_impl; [exact Hrect|]. simpl. intros l Hl.
      fold N in Hl. lia. }
    rewrite concat_mjoin in Hcat.
    apply (join_lookup_Some_same_length _ _ _ _ Hrect') in Hcat
      as (j & srow & i' & Hsrow & Hi' & Heq).
    pose proof (lookup_lt_Some _ _ _ Hi') as Hlt.
    rewrite Forall_lookup in Hrect'. rewrite (Hrect' _ _ Hsrow) in Hlt.
    assert (Hnat : Z.to_nat (i + Z.of_nat b * N)
                   = (b * Z.to_nat N + Z.to_nat i)%nat).
    { rewrite Z2Nat.inj_add, Z2Nat.inj_mul, Nat2Z.id by lia. lia. }
    rewrite Hnat in Heq.
    apply Nat.mul_split_l in Heq as [-> ->]; [|lia..].
    by exists trow, srow, x.
Qed.

Lemma view_as_concat {A B} (shape : list (list B)) (flat : list A) ts :
  view_as shape flat = Ok ts → concat ts = flat.
Proof.
  revert flat ts. induction shape as [|row shape IH]; intros flat ts Hv;
    simpl in Hv.
  - destruct flat; [|done]. by injection Hv as <-.
  - case_decide; [|done].
    destruct (view_as shape _) as [rest|] eqn:Hrest; simpl in Hv; [|done].
    injection Hv as <-. simpl. rewrite (IH _ _ Hrest).
    apply take_drop.
Qed.

Lemma Forall_concat_2 {A} (P : A → Prop) (ls : list (list A)) :
  Forall P (concat ls) → Forall (Forall P) ls.
Proof.
  induction ls as [|l ls IH]; simpl; [constructor|].
  intros [? ?]%Forall_app. constructor; auto.
Qed.

Lemma Forall_concat_1 {A} (P : A → Prop) (ls : list (list A)) :
  Forall (Forall P) ls → Forall P (concat ls).
Proof.
  induction 1 as [|l ls Hl _ IH]; simpl; [constructor|].
  apply Forall_app. auto.
Qed.

(** Every entry of a selection is an entry of the target. *)
Lemma batched_index_select_Forall {A} (P : A → Prop) (target : list (list A))
    (indices : list (list Z)) (flat : list Z) ts :
  Forall (Forall P) target →
  batched_index_select target indices flat = Ok ts →
  Forall (Forall P) ts.
Proof.
  intros Ht Hsel. unfold batched_index_select in Hsel.
  destruct (mapR _ flat) as [sel|] eqn:Hflat; simpl in Hsel; [|done].
  apply Forall_concat_2. rewrite (view_as_concat _ _ _ Hsel).
  apply Forall_concat_1 in Ht. rewrite Forall_lookup in Ht.
  apply Forall_lookup. intros n x Hx.
  destruct (mapR_lookup _ _ _ _ _ Hflat Hx) as (k & _ & Hk).
  unfold index_select in Hk. destruct (k <? 0); [done|].
  destruct (concat target !! Z.to_nat k) as [y|] eqn:Hy; [|done].
  injection Hk as <-. by eapply Ht.
Qed.

Section KeptSpansRead.
Context {F : Type} `{Scalar F}.
Implicit Types (self : ALCoreferenceResolver F) (a : Args F).
Implicit Types (p : pruning F) (d od : gmap string (value F)).

Lemma clamp_spans_rectangular (spans : list (list (Z * Z))) :
  rectangular spans → rectangular (clamp_spans spans).
Proof.
  unfold rectangular, clamp_spans. intros Hr.
  assert (Hs : size1 (map (map (λ s : Z * Z, (relu_long s.1, relu_long s.2)))
                          spans) = size1 spans).
  { destruct spans; simpl; [done|]. by rewrite length_map. }
  rewrite Hs. apply Forall_map. eapply Forall_impl; [exact Hr|].
  simpl. intros row Hrow. by rewrite length_map.
Qed.

Lemma clamp_spans_size1 (spans : list (list (Z * Z))) :
  size1 (clamp_spans spans) = size1 spans.
Proof. destruct spans; simpl; [done|]. by rewrite length_map. Qed.

Lemma clamp_spans_lookup_inv (spans : list (list (Z * Z))) b crow n c :
  clamp_spans spans !! b = Some crow → crow !! n = Some c →
  ∃ row s, spans !! b = Some row ∧ row !! n = Some s ∧
           c = (Z.max 0 s.1, Z.max 0 s.2).
Proof.
  unfold clamp_spans. rewrite lookup_map. intros Hb Hn.
  destruct (spans !! b) as [row|] eqn:Hrow; [|done].
  simpl in Hb. injection Hb as <-. rewrite lookup_map in Hn.
  destruct (row !! n) as [s|] eqn:Hs; [|done]. simpl in Hn. injection Hn as <-.
  by exists row, s.
Qed.

(** X15.  On the fresh-input path, when every batch element holds the same
    number of candidate spans, the kept spans of the output have the shape
    of the pruner's indices, none of their coordinates is negative, and the
    span at [(b, k)] is the clamped candidate of batch element [b] at the
    index that the pruner returned at [(b, k)], for an index within the
    candidates of one batch element. *)
Theorem kept_spans_follow_the_indices self a (o : outcome F) a' od :
  fresh_path a → forward self a = Ok (o, a') → output_dict_of o = Some od →
  rectangular (spans a) →
  ∃ p ts,
    prune_stage self a = Ok (inr p) ∧
    od !! "top_spans" = Some (VSpans ts) ∧
    Forall2 (λ irow trow, length irow = length trow)
            (p_top_span_indices p) ts ∧
    (∀ b irow k i,
       p_top_span_indices p !! b = Some irow → irow !! k = Some i →
       0 ≤ i < size1 (spans a) →
       ∃ trow srow c,
         ts !! b = Some trow ∧
         trow !! k = Some (Z.max 0 c.1, Z.max 0 c.2) ∧
         spans a !! b = Some srow ∧ srow !! Z.to_nat i = Some c).
Proof.
  intros Hfresh Hf Ho Hrect. pose proof Hfresh as [Hnone _].
  destruct (forward_top_spans _ _ _ _ _ Hnone Hf Ho) as (p & ts & Hp & Hts & Hod).
  exists p, ts. split; [done|]. split; [done|].
  rewrite (prune_stage_fresh _ _ Hfresh) in Hp.
  apply prune_fresh_inr in Hp
    as (_ & emb & scores & po & K & _ & _ & _ & -> & _).
  simpl in *. rewrite <- clamp_spans_size1 in Hts.
  apply batched_index_select_shifted in Hts as [Hshape Hread];
    [|by apply clamp_spans_rectangular].
  split; [done|]. intros b irow k i Hb Hk Hi.
  rewrite <- clamp_spans_size1 in Hi.
  destruct (Hread _ _ _ _ Hb Hk Hi) as (trow & crow & x & Ht & Hx & Hc & Hcx).
  destruct (clamp_spans_lookup_inv _ _ _ _ _ Hc Hcx) as (srow & c & ? & ? & ->).
  by exists trow, srow, c.
Qed.

(** X16.  On the fresh-input path no coordinate of a kept span is negative:
    the kept spans are read from the clamped candidates, so a padding
    candidate that the pruner keeps is not reported as (-1, -1). *)
Theorem kept_spans_are_not_negative self a (o : outcome F) a' od :
  fresh_path a → forward self a = Ok (o, a') → output_dict_of o = Some od →
  ∃ ts, od !! "top_spans" = Some (VSpans ts) ∧
        Forall (Forall (λ s : Z * Z, 0 ≤ s.1 ∧ 0 ≤ s.2)) ts.
Proof.
  intros Hfresh Hf Ho. pose proof Hfresh as [Hnone _].
  destruct (forward_top_spans _ _ _ _ _ Hnone Hf Ho) as (p & ts & Hp & Hts & Hod).
  exists ts. split; [done|].
  rewrite (prune_stage_fresh _ _ Hfresh) in Hp.
  apply prune_fresh_inr in Hp
    as (_ & emb & scores & po & K & _ & _ & _ & -> & _).
  simpl in Hts. eapply batched_index_select_Forall; [|exact Hts].
  unfold clamp_spans. apply Forall_map, Forall_true. intros row.
  apply Forall_map, Forall_true. intros s. unfold relu_long. simpl. lia.
Qed.

End KeptSpansRead.

(** ** The returned score matrix *)

Section ReturnedScores.
Context {F : Type} `{Scalar F}.
Implicit Types (self : ALCoreferenceResolver F) (a : Args F).
Implicit Types (p : pruning F) (d od : gmap string (value F)).

(** X17.  A score matrix that forward builds and returns has one row per
    kept span and one slot for "no antecedent" followed by one per window
    offset.  The first slot is the constant zero.  Slot [j + 1] of the kept
    span at position [i] is its unmasked antecedent score with the log-mask
    of the offset added: [log 1] when the offset stays inside the kept
    spans ([j < i]), [log 0] otherwise; it is then minus infinity when the
    unmasked score is neither NaN nor plus infinity. *)
Theorem returned_scores_have_window_shape self a (o : outcome F) a' od v :
  present (coref_scores_info a) = None →
  forward self a = Ok (o, a') → output_dict_of o = Some od →
  od !! "coreference_scores" = Some v →
  ∃ p scores raw,
    prune_stage self a = Ok (inr p) ∧ v = VF3 scores ∧
    unmasked_scores_of self p = Ok raw ∧
    let K := p_num_spans_to_keep p in
    let W := Z.min (_max_antecedents self) K in
    ∀ b sb, scores !! b = Some sb →
      length sb = Z.to_nat K ∧
      ∀ i row, sb !! i = Some row →
        ∃ rb rrow,
          raw !! b = Some rb ∧ rb !! i = Some rrow ∧
          length row = S (Z.to_nat W) ∧ length rrow = Z.to_nat W ∧
          row !! 0%nat = Some fzero ∧
          ∀ j y, rrow !! j = Some y →
            row !! S j
            = Some (fadd y (flog (of_bool (bool_decide (j < i)%nat)))) ∧
            ((i ≤ j)%nat → maskable y → row !! S j = Some (flog fzero)).
Proof.
  intros Hnone Hf Ho Hv.
  assert (Hsc : ∃ p scores, prune_stage self a = Ok (inr p) ∧ v = VF3 scores ∧
                            coreference_scores_of self p = Ok scores).
  { apply forward_inv in Hf
      as [(_ & _ & [(d & -> & Hp)|(p & Hp & [(d & -> & Hs)|(s & d & -> & Hs & Hd)])])
         |(info & s & d & Hsome & _)]; simpl in Ho.
    - done.
    - apply score_stage_inl in Hs as (ts & sc & pr & _ & Hsc & _ & -> & Hret).
      unfold ret_values in Ho. rewrite lookup_insert_eq in Ho.
      injection Ho as <-.
      rewrite make_output_dict_scores, Hret, orb_true_r in Hv.
      injection Hv as <-. by exists p, sc.
    - injection Ho as <-.
      rewrite (finish_lookup _ _ _ _ _ Hd) in Hv by done.
      apply score_stage_inr in Hs as (ts & sc & pr & _ & Hsc & _ & _ & ->).
      simpl in Hv. rewrite make_output_dict_scores in Hv.
      destruct (get_scores a || return_coref_scores a); [|done].
      injection Hv as <-. by exists p, sc.
    - congruence. }
  destruct Hsc as (p & scores & Hp & -> & Hsc).
  destruct (coreference_scores_of_unmasked _ _ _ Hsc) as (raw & _ & Hraw & _).
  exists p, scores, raw. split; [done|]. split; [done|]. split; [done|].
  intros K W b sb Hb.
  split; [by eapply (Forall_lookup_1 _ _ _ _
                       (coreference_scores_of_length _ _ _ Hsc))|].
  intros i row Hi.
  destruct (coreference_scores_of_row _ _ _ _ _ _ _ Hsc Hb Hi)
    as (_ & ant & Hrow & Hla & _).
  destruct (coreference_scores_of_slot _ _ _ _ _ _ _ _ Hsc Hraw Hb Hi)
    as (rb & rrow & Hrb & Hrrow & Hlen & Hslots).
  fold K in Hla. fold W in Hla.
  assert (Hlrow : length row = S (Z.to_nat W)) by (subst row; simpl; lia).
  exists rb, rrow. split; [done|]. split; [done|].
  split; [done|]. split; [lia|]. split; [by subst row|].
  intros j y Hy.
  assert (Hslot : row !! S j
            = Some (fadd y (flog (of_bool (bool_decide (j < i)%nat))))).
  { destruct (row !! S j) as [x|] eqn:Hx.
    - destruct (Hslots j x Hx) as (y' & Hy' & ->).
      rewrite Hy in Hy'. injection Hy' as <-. do 4 f_equal.
      destruct (0 <=? Z.of_nat i - (Z.of_nat j + 1)) eqn:Hle.
      + by rewrite bool_decide_eq_true_2 by lia.
      + by rewrite bool_decide_eq_false_2 by lia.
    - apply lookup_ge_None in Hx. apply lookup_lt_Some in Hy. lia. }
  split; [done|]. intros Hij Hmy.
  rewrite Hslot, bool_decide_eq_false_2 by lia. simpl. by rewrite Hmy.
Qed.

End ReturnedScores.

(** ** The gold antecedents of the loss *)

Lemma masked_label_never_matches t l :
  label_range t → label_range l → (t =? wrap64 (l + - 2 ^ 63)) = false.
Proof.
  unfold label_range. intros Ht Hl. apply Z.eqb_neq.
  destruct (decide (l = -1)) as [->|].
  - rewrite wrap64_below by lia. lia.
  - rewrite wrap64_small by lia. lia.
Qed.

Section GoldLabels.
Context {F : Type} `{ScalarLong F}.
Implicit Types (self : ALCoreferenceResolver F) (a : Args F).
Implicit Types (p : pruning F) (s : scored F).
Implicit Types (d od : gmap string (value F)).

(** Lines 308-319 on a window that forward generated. *)
Lemma gold_antecedent_labels_window labels s K W gold :
  Forall (Forall label_range) labels →
  s_valid_antecedent_indices s = (_generate_valid_antecedents (F:=F) K W).1.1 →
  s_valid_antecedent_log_mask s = (_generate_valid_antecedents (F:=F) K W).2 →
  gold_antecedent_labels_of labels s = Ok gold →
  ∃ kept,
    batched_index_select labels (s_top_span_indices s)
                         (s_flat_top_span_indices s) = Ok kept ∧
    Forall2 (λ kb gb, length kb = length gb) kept gold ∧
    ∀ b kb gb i t row,
      kept !! b = Some kb → gold !! b = Some gb →
      kb !! i = Some t → gb !! i = Some row →
      ∃ pw, row = fprod (map (λ x, fsub fone x) pw) :: pw ∧
            length pw = Z.to_nat W ∧
            ∀ j x, pw !! j = Some x → x = window_gold kb i j t.
Proof.
  intros Hlab Hidx Hmask Hg. unfold gold_antecedent_labels_of in Hg.
  rewrite Hidx, Hmask in Hg.
  destruct (batched_index_select labels _ _) as [kept|] eqn:Hkept;
    simpl in Hg; [|done].
  destruct (flattened_index_select kept _) as [ant|] eqn:Hant;
    simpl in Hg; [|done].
  destruct (mapR _ ant) as [sh|] eqn:Hsh; simpl in Hg; [|done].
  unfold _compute_antecedent_gold_labels in Hg.
  pose proof (batched_index_select_Forall _ _ _ _ _ Hlab Hkept) as Hrange.
  exists kept. split; [done|]. split.
  { apply Forall2_same_length_lookup_2; [by apply zipR_length in Hg as [-> _]|].
    intros b kb gb Hkb Hgb.
    destruct (zipR_lookup _ _ _ _ _ _ Hg Hgb) as (kb' & lb & Hkb' & _ & Hz).
    rewrite Hkb in Hkb'. injection Hkb' as <-.
    by apply zipR_length in Hz as [-> _]. }
  intros b kb gb i t row Hkb Hgb Ht Hrow.
  destruct (zipR_lookup _ _ _ _ _ _ Hg Hgb) as (kb' & sb & Hkb' & Hsb & Hz).
  rewrite Hkb in Hkb'. injection Hkb' as <-.
  destruct (zipR_lookup _ _ _ _ _ _ Hz Hrow) as (t' & ls & Ht' & Hls & Hr).
  rewrite Ht in Ht'. injection Ht' as <-. injection Hr as <-.
  eexists. split; [reflexivity|].
  destruct (mapR_lookup _ _ _ _ _ Hsh Hsb) as (ab & Hab & Hzb).
  destruct (zipR_lookup _ _ _ _ _ _ Hzb Hls)
    as (lrow & mrow & Hlrow & Hmrow & Hzr).
  unfold flattened_index_select in Hant.
  destruct (mapR_lookup _ _ _ _ _ Hant Hab) as (kb' & Hkb' & Hsel).
  rewrite Hkb in Hkb'. injection Hkb' as <-.
  destruct (mapR_lookup _ _ _ _ _ Hsel Hlrow) as (irow & Hirow & Hselr).
  apply window_indices_row in Hirow as [Hi ->].
  apply window_mask_row in Hmrow as [_ ->].
  rewrite length_map.
  assert (Hlen : length ls = Z.to_nat W).
  { apply zipR_length in Hzr as [_ ->].
    unfold get_range_vector. by rewrite length_map, length_seqZ. }
  split; [done|]. intros j x Hx.
  apply lookup_map_Some in Hx as (l' & Hl' & ->).
  destruct (zipR_lookup _ _ _ _ _ _ Hzr Hl') as (l & m & Hl & Hm & [= <-]).
  destruct (mapR_lookup _ _ _ _ _ Hselr Hl) as (k & Hk & Hsk).
  apply lookup_map_Some in Hk as (k0 & [-> _]%lookup_range & ->).
  apply lookup_map_Some in Hm as (k1 & [-> _]%lookup_range & ->).
  unfold index_select in Hsk.
  destruct (relu_long _ <? 0); [done|].
  destruct (kb !! Z.to_nat _) as [l0|] eqn:Hl0; [|done].
  injection Hsk as ->.
  assert (Hrl : label_range l).
  { rewrite Forall_lookup in Hrange. specialize (Hrange _ _ Hkb).
    rewrite Forall_lookup in Hrange. by eapply Hrange. }
  assert (Hrt : label_range t).
  { rewrite Forall_lookup in Hrange. specialize (Hrange _ _ Hkb).
    rewrite Forall_lookup in Hrange. by eapply Hrange. }
  unfold window_gold. f_equal. f_equal.
  destruct (0 <=? Z.of_nat i - (Z.of_nat j + 1)) eqn:Hle; simpl.
  - rewrite to_long_log_one, Z.add_0_r, wrap64_small
      by (unfold label_range in Hrl; lia).
    rewrite bool_decide_eq_true_2 by lia. simpl.
    replace (Z.to_nat (relu_long (Z.of_nat i - (Z.of_nat j + 1))))
      with (i - (j + 1))%nat in Hl0 by (unfold relu_long; lia).
    rewrite Hl0. destruct (t =? l) eqn:Htl.
    + apply Z.eqb_eq in Htl as ->. by rewrite bool_decide_eq_true_2.
    + apply Z.eqb_neq in Htl. rewrite bool_decide_eq_false_2; [done|].
      intros [= ->]. done.
  - rewrite to_long_log_zero, masked_label_never_matches by done.
    by rewrite bool_decide_eq_false_2 by lia.
Qed.

(** X18.  With gold labels in range, the loss of a call that builds its own
    window is the negative marginal log-likelihood against this gold
    indicator: for the kept span at position [i] with gold label [t], the
    slot of offset [j + 1] is gold exactly when the offset stays inside the
    kept spans, the kept span [i - (j + 1)] has the label [t] and [t] is a
    cluster id, and the first slot, "no antecedent", is the product of the
    complements.  A slot outside the kept spans is never gold, also for the
    label -1. *)
Theorem loss_gold_follows_the_window self a d a' labels :
  present (coref_scores_info a) = None →
  span_labels a = Some labels → Forall (Forall label_range) labels →
  forward self a = Ok (Output d, a') →
  ∃ p s kept gold l,
    prune_stage self a = Ok (inr p) ∧ score_stage self a p = Ok (inr s) ∧
    batched_index_select labels (p_top_span_indices p)
                         (p_flat_top_span_indices p) = Ok kept ∧
    negative_marginal_log_likelihood_of (s_coreference_scores s)
      (s_top_span_mask s) gold = Ok l ∧
    d !! "loss" = Some (VScalar l) ∧
    Forall2 (λ kb gb, length kb = length gb) kept gold ∧
    ∀ b kb gb i t row,
      kept !! b = Some kb → gold !! b = Some gb →
      kb !! i = Some t → gb !! i = Some row →
      ∃ pw, row = fprod (map (λ x, fsub fone x) pw) :: pw ∧
            length pw = Z.to_nat (Z.min (_max_antecedents self)
                                        (p_num_spans_to_keep p)) ∧
            ∀ j x, pw !! j = Some x → x = window_gold kb i j t.
Proof.
  intros Hnone Hlabels Hrange Hf.
  apply forward_Output_inv in Hf as (s & Hd & _ & _ & _ & Hp).
  destruct (Hp Hnone) as (p & Hprune & Hs). clear Hp.
  apply finish_inv in Hd as (d1 & d2 & _ & Hloss & Hdoc).
  rewrite Hlabels in Hloss. destruct Hloss as (l & Hl & ->).
  assert (Hdl : d !! "loss" = Some (VScalar l)).
  { destruct (metadata a) as [md|].
    - destruct Hdoc as (doc & _ & ->).
      by rewrite lookup_insert_ne, lookup_insert_eq.
    - subst d. apply lookup_insert_eq. }
  unfold loss_of in Hl.
  destruct (gold_antecedent_labels_of labels s) as [gold|] eqn:Hgold;
    simpl in Hl; [|done].
  destruct (negative_marginal_log_likelihood_of _ _ gold) as [nll|] eqn:Hnll;
    simpl in Hl; [|done].
  destruct (_mention_recall _ _ _); simpl in Hl; [|done].
  destruct (_conll_coref_scores _ _ _ _ _); simpl in Hl; [|done].
  injection Hl as ->.
  pose proof Hs as Hs'.
  apply score_stage_inr in Hs' as (ts & sc & pr & _ & _ & _ & _ & Hseq).
  destruct (gold_antecedent_labels_window labels s (p_num_spans_to_keep p)
              (Z.min (_max_antecedents self) (p_num_spans_to_keep p)) gold)
    as (kept & Hkept & Hshape & Hrows); [done|by subst s..|done|].
  exists p, s, kept, gold, l. subst s. simpl in *. by repeat split.
Qed.

End GoldLabels.

(** ** The kept indices on the precomputed-pruning branch *)

Lemma view_as_shape {A B B'} (shape : list (list B)) (shape' : list (list B'))
    (flat : list A) :
  Forall2 (λ row row', length row = length row') shape shape' →
  view_as shape flat = view_as shape' flat.
Proof.
  intros Hsh. revert flat.
  induction Hsh as [|row row' shape shape' Hlen _ IH]; intros flat; simpl;
    [done|].
  rewrite Hlen. case_decide; [|done]. by rewrite IH.
Qed.

Lemma batched_index_select_shape {A} (target : list (list A)) idx idx' flat :
  same_shape idx idx' →
  batched_index_select target idx flat = batched_index_select target idx' flat.
Proof.
  intros Hsh. unfold batched_index_select.
  destruct (mapR _ flat) as [sel|]; simpl; [|done]. by apply view_as_shape.
Qed.

Section SpanIndices.
Context {F : Type} `{Scalar F}.
Implicit Types (self : ALCoreferenceResolver F) (a : Args F).
Implicit Types (p : pruning F) (s : scored F).
Implicit Types (d od info : gmap string (value F)).

Lemma prune_given_reindexed a info idx idx' :
  info !! "span_indices" = Some (VL2 idx) → same_shape idx idx' →
  prune_given a (<["span_indices" := VL2 idx']> info)
  = (λ p, with_top_span_indices p idx') <$> prune_given a info.
Proof.
  intros Hidx Hsh. unfold prune_given, getitem.
  rewrite lookup_insert_eq, !lookup_insert_ne, Hidx by done.
  destruct (info !! "mention_scores") as [v|]; simpl; [|done].
  destruct (as_F2 v) as [ms|]; simpl; [|done].
  destruct (info !! "top_scores") as [v1|]; simpl; [|done].
  destruct (as_F2 v1) as [tsc|]; simpl; [|done].
  destruct (info !! "flat_top_indices") as [v2|]; simpl; [|done].
  destruct (as_L1 v2) as [flat|]; simpl; [|done].
  destruct (info !! "top_mask") as [v3|]; simpl; [|done].
  destruct (as_F2 v3) as [tm|]; simpl; [|done].
  destruct (info !! "span_embeddings") as [v4|]; simpl; [|done].
  destruct (as_F3 v4) as [emb|]; simpl; [|done].
  rewrite <- (batched_index_select_shape emb idx idx' flat Hsh).
  destruct (batched_index_select emb idx flat) as [te|]; simpl; [|done].
  destruct (info !! "text_mask") as [v5|]; simpl; [|done].
  by destruct (as_F2 v5).
Qed.

Lemma score_stage_reindexed self a p idx' :
  return_coref_scores a = false → same_shape (p_top_span_indices p) idx' →
  score_stage self a (with_top_span_indices p idx')
  = fmap (M:=res) (sum_map (λ d, d) (λ s, with_s_top_span_indices s idx'))
         (score_stage self a p).
Proof.
  intros Hret Hsh. unfold score_stage. simpl.
  rewrite <- (batched_index_select_shape (p_spans p) _ idx' _ Hsh).
  destruct (batched_index_select (p_spans p) _ _) as [ts|]; simpl; [|done].
  change (window_of self (with_top_span_indices p idx'))
    with (window_of self p).
  change (coreference_scores_of self (with_top_span_indices p idx'))
    with (coreference_scores_of self p).
  destruct (window_of self p) as [[wi wo] wm].
  destruct (coreference_scores_of self p) as [sc|]; simpl; [|done].
  destruct (decode sc) as [pr|]; simpl; [|done].
  by rewrite Hret.
Qed.

Lemma finish_reindexed self a s idx' :
  get_scores a = false → same_shape (s_top_span_indices s) idx' →
  finish self a (with_s_top_span_indices s idx') = finish self a s.
Proof.
  intros Hget Hsh. unfold finish. rewrite Hget. simpl.
  destruct (span_labels a) as [labels|]; [|done].
  unfold loss_of, gold_antecedent_labels_of. simpl.
  by rewrite <- (batched_index_select_shape labels _ idx' _ Hsh).
Qed.

(** X19.  On the precomputed-pruning branch the entries of
    [top_spans_info['span_indices']] are never read: the kept spans, the
    kept embeddings and the kept gold labels are all selected through
    [flat_top_indices], and [span_indices] only gives the shape of the
    selections.  Without [get_scores] and [return_coref_scores], which
    return the tensor itself, a call with other entries in a tensor of the
    same shape returns the same dictionary or raises the same exception. *)
Theorem span_indices_give_only_the_shape self a info idx idx' :
  present (coref_scores_info a) = None →
  top_spans_info a = Some info →
  info !! "span_indices" = Some (VL2 idx) → same_shape idx idx' →
  get_scores a = false → return_coref_scores a = false →
  fst <$> forward self
            (with_top_spans_info a (<["span_indices" := VL2 idx']> info))
  = fst <$> forward self a.
Proof.
  intros Hnone Hti Hidx Hsh Hget Hret. unfold forward.
  change (coref_scores_info (with_top_spans_info a _))
    with (coref_scores_info a).
  rewrite Hnone. unfold prune_stage.
  change (top_spans_info (with_top_spans_info a ?i)) with (Some i).
  rewrite Hti, (present_lookup _ _ _ Hidx).
  rewrite (present_lookup _ "span_indices" (VL2 idx'))
    by apply lookup_insert_eq.
  change (prune_given (with_top_spans_info a ?i) ?j) with (prune_given a j).
  rewrite (prune_given_reindexed a info idx idx' Hidx Hsh).
  destruct (prune_given a info) as [p|] eqn:Hp; simpl; [|done].
  change (score_stage self (with_top_spans_info a ?i) ?q)
    with (score_stage self a q).
  assert (Hpi : p_top_span_indices p = idx).
  { apply prune_given_inv in Hp as (? & _ & _ & _ & _ & Hpi & _).
    congruence. }
  rewrite score_stage_reindexed by (by rewrite ?Hpi).
  destruct (score_stage self a p) as [[d|s]|] eqn:Hs; simpl; [done| |done].
  change (finish self (with_top_spans_info a ?i) ?q) with (finish self a q).
  assert (Hsi : s_top_span_indices s = idx).
  { apply score_stage_inr in Hs as (? & ? & ? & _ & _ & _ & _ & ->).
    done. }
  rewrite finish_reindexed by (by rewrite ?Hsi).
  by destruct (finish self a s).
Qed.

End SpanIndices.

(** ** The further properties on the concrete runs *)

Lemma same_front_refl {F} (self : ALCoreferenceResolver F) :
  same_front self self.
Proof. by repeat split. Defined.

Lemma same_scorer_refl {F} (self : ALCoreferenceResolver F) :
  same_scorer self self.
Proof. by repeat split. Defined.

Lemma same_metrics_refl {F} (self : ALCoreferenceResolver F) :
  same_metrics self self.
Proof. by split. Defined.

Lemma demo_state_staged : staged_return demo_state_args.
Proof. split; [reflexivity|left; reflexivity]. Defined.

Lemma staged_return_reads_no_labels_witness :
  fst <$> forward demo demo_state_args
  = fst <$> forward (with_metrics demo (λ _ _, Raise TypeError)
                                  (λ _ _ _ _, Raise TypeError))
              (with_get_scores (with_labels demo_state_args [[2; 2; -1]])
                               true) ∧
  ∀ o a', forward demo demo_state_args = Ok (o, a') → ∀ d, o ≠ Output d.
Proof.
  exact (staged_return_reads_no_labels demo
           (with_metrics demo (λ _ _, Raise TypeError)
                         (λ _ _ _ _, Raise TypeError))
           demo_state_args
           (with_get_scores (with_labels demo_state_args [[2; 2; -1]]) true)
           demo_state_staged (same_front_refl demo) (same_scorer_refl demo)
           eq_refl eq_refl eq_refl eq_refl eq_refl eq_refl).
Defined.

Lemma demo_resume_present :
  present (coref_scores_info demo_resume_args)
  = Some (rekey_state demo_state).
Proof. vm_compute. reflexivity. Defined.

Lemma scoring_resume_reads_only_state_witness :
  fst <$> forward demo demo_resume_args
  = fst <$> forward demo_unclamped
              (with_text (with_top_spans_info demo_resume_args ∅) ∅ true) ∧
  ∀ o a', forward demo demo_resume_args = Ok (o, a') → ∃ d, o = Output d.
Proof.
  exact (scoring_resume_reads_only_state demo demo_unclamped demo_resume_args
           (with_text (with_top_spans_info demo_resume_args ∅) ∅ true)
           (rekey_state demo_state) demo_resume_present
           (same_metrics_refl demo) eq_refl eq_refl eq_refl eq_refl).
Defined.

Lemma demo_pruned_present :
  present (top_spans_info demo_pruned_args)
  = Some (pruning_state_of demo_pruning).
Proof. vm_compute. reflexivity. Defined.

Lemma pruning_resume_reads_no_text_witness :
  fst <$> forward demo demo_pruned_args
  = fst <$> forward demo_unclamped (with_text demo_pruned_args ∅ true) ∧
  ∀ o a', forward demo demo_pruned_args = Ok (o, a') →
          ∀ d, o ≠ MentionScores d.
Proof.
  exact (pruning_resume_reads_no_text demo demo_unclamped demo_pruned_args
           (with_text demo_pruned_args ∅ true)
           (pruning_state_of demo_pruning) eq_refl demo_pruned_present
           (same_scorer_refl demo) (same_metrics_refl demo)
           eq_refl eq_refl eq_refl eq_refl eq_refl eq_refl eq_refl).
Defined.

Lemma empty_state_is_no_state_witness :
  fst <$> forward demo (with_top_spans_info demo_args ∅)
  = fst <$> forward demo demo_args ∧
  fresh_path (with_top_spans_info demo_args ∅).
Proof.
  exact (empty_state_is_no_state demo (with_top_spans_info demo_args ∅)
           demo_args (or_intror eq_refl) (or_introl eq_refl)
           (or_introl eq_refl) (or_introl eq_refl)
           eq_refl eq_refl eq_refl eq_refl eq_refl eq_refl eq_refl).
Defined.

Lemma mention_scores_state_lacks_top_scores_witness :
  forward demo_unclamped (with_top_spans_info demo_args padded_output)
  = Raise (KeyError "top_scores").
Proof.
  exact (mention_scores_state_lacks_top_scores demo demo_unclamped
           padded_args padded_args
           (with_top_spans_info demo_args padded_output) padded_output
           padded_run eq_refl eq_refl).
Defined.

Lemma demo_resumed_run : forward demo demo_resume_args = Ok demo_resumed.
Proof. vm_compute. reflexivity. Defined.

Lemma scoring_resume_updates_the_state_witness :
  ∃ od d,
    rekey_state demo_state !! "output_dict" = Some (VDict od) ∧
    demo_resumed.1 = Output d ∧
    demo_resumed.2
    = with_coref_scores_info demo_resume_args
        (<["output_dict" := VDict d]> (rekey_state demo_state)) ∧
    (∀ k, k ∉ written_keys → d !! k = od !! k) ∧
    is_Some (d !! "predicted_antecedents").
Proof.
  exact (scoring_resume_updates_the_state demo demo_resume_args
           demo_resumed.1 demo_resumed.2 (rekey_state demo_state)
           demo_resume_present demo_resumed_run).
Defined.

Lemma scoring_resume_is_idempotent_witness :
  forward demo demo_resumed.2 = Ok (demo_resumed.1, demo_resumed.2).
Proof.
  exact (scoring_resume_is_idempotent demo demo_resume_args demo_resumed.1
           demo_resumed.2 (rekey_state demo_state) demo_resume_present
           demo_resumed_run).
Defined.

Lemma get_scores_only_adds_entries_witness :
  res_rel (λ r r', adds_scores r.1 r'.1)
    (forward demo (with_get_scores demo_args false))
    (forward demo (with_get_scores demo_args true)).
Proof.
  exact (get_scores_only_adds_entries demo demo_args eq_refl eq_refl).
Defined.

Lemma document_lists_original_text_witness :
  ∃ doc, demo_output !! "document" = Some (VDoc doc) ∧
         Forall2 (λ m t, m !! "original_text" = Some t) demo_metadata doc.
Proof.
  exact (document_lists_original_text demo demo_args demo_args demo_output
           demo_run).
Defined.

Lemma metrics_see_the_returned_tensors_witness :
  ∃ ts idx pr,
    demo_output !! "top_spans" = Some (VSpans ts) ∧
    demo_output !! "antecedent_indices" = Some (VL2 idx) ∧
    demo_output !! "predicted_antecedents" = Some (VL2 pr) ∧
    _mention_recall demo ts (metadata demo_args) = Ok () ∧
    _conll_coref_scores demo ts idx pr (metadata demo_args) = Ok ().
Proof.
  exact (metrics_see_the_returned_tensors demo demo_args demo_args
           demo_output [[1; -1; 1]] demo_run eq_refl).
Defined.

Lemma demo_unlabelled_run :
  forward demo demo_unlabelled_args
  = Ok (Output demo_unlabelled_output, demo_unlabelled_args).
Proof. vm_compute. reflexivity. Defined.

Lemma metrics_need_labels_witness :
  forward demo demo_unlabelled_args
  = Ok (Output demo_unlabelled_output, demo_unlabelled_args) ∧
  forward (with_metrics demo (λ _ _, Raise TypeError)
                        (λ _ _ _ _, Raise TypeError))
          (with_labels demo_unlabelled_args [[1; -1; 1]])
  = Raise TypeError ∧
  forward demo demo_unlabelled_args
  = forward (with_metrics demo (λ _ _, Raise TypeError)
                          (λ _ _ _ _, Raise TypeError))
            demo_unlabelled_args.
Proof.
  split; [exact demo_unlabelled_run|]. split; [vm_compute; reflexivity|].
  exact (metrics_need_labels demo
           (with_metrics demo (λ _ _, Raise TypeError)
                         (λ _ _ _ _, Raise TypeError))
           demo_unlabelled_args (same_front_refl demo) (same_scorer_refl demo)
           eq_refl).
Defined.

Lemma demo_pruned_run :
  forward demo demo_pruned_args = Ok (Output demo_output, demo_pruned_args).
Proof. vm_compute. reflexivity. Defined.

Lemma pruning_resume_counts_supplied_scores_witness :
  ∃ top_scores idx,
    pruning_state_of demo_pruning !! "top_scores" = Some (VF2 top_scores) ∧
    demo_output !! "antecedent_indices" = Some (VL2 idx) ∧
    length idx = Z.to_nat (size1 top_scores) ∧
    Forall (λ row, length row
                   = Z.to_nat (Z.min (_max_antecedents demo)
                                     (size1 top_scores))) idx.
Proof.
  exact (pruning_resume_counts_supplied_scores demo demo_pruned_args
           (Output demo_output) demo_pruned_args demo_output
           (pruning_state_of demo_pruning) eq_refl demo_pruned_present
           demo_pruned_run eq_refl).
Defined.

Lemma demo_state_output_dict_eq :
  output_dict_of (CorefScores demo_state) = Some demo_state_output_dict.
Proof. vm_compute. reflexivity. Defined.

Lemma returned_scores_decode_to_predictions_witness :
  (get_scores demo_state_args = true ∨
   return_coref_scores demo_state_args = true ∨
   is_Some (present (coref_scores_info demo_state_args)) →
   is_Some (demo_state_output_dict !! "coreference_scores")) ∧
  ∀ v, demo_state_output_dict !! "coreference_scores" = Some v →
    ∃ sc pr, v = VF3 sc ∧ score_matrix_of demo demo_state_args = Ok sc ∧
             decode sc = Ok pr ∧
             demo_state_output_dict !! "predicted_antecedents"
             = Some (VL2 pr).
Proof.
  exact (returned_scores_decode_to_predictions demo demo_state_args
           (CorefScores demo_state) demo_state_args demo_state_output_dict
           demo_state_run demo_state_output_dict_eq).
Defined.

Lemma returned_keys_witness : dom demo_output = output_keys demo_args.
Proof.
  exact (returned_keys demo demo_args (Output demo_output) demo_args eq_refl
           demo_run).
Defined.

Lemma demo_spans_rectangular : rectangular (spans demo_args).
Proof. repeat constructor. Defined.

Lemma kept_spans_follow_the_indices_witness :
  ∃ p ts,
    prune_stage demo demo_args = Ok (inr p) ∧
    demo_output !! "top_spans" = Some (VSpans ts) ∧
    Forall2 (λ irow trow, length irow = length trow)
            (p_top_span_indices p) ts ∧
    (∀ b irow k i,
       p_top_span_indices p !! b = Some irow → irow !! k = Some i →
       0 ≤ i < size1 (spans demo_args) →
       ∃ trow srow c,
         ts !! b = Some trow ∧
         trow !! k = Some (Z.max 0 c.1, Z.max 0 c.2) ∧
         spans demo_args !! b = Some srow ∧ srow !! Z.to_nat i = Some c).
Proof.
  exact (kept_spans_follow_the_indices demo demo_args (Output demo_output)
           demo_args demo_output demo_fresh demo_run eq_refl
           demo_spans_rectangular).
Defined.

Lemma padded_full_run :
  forward demo_unclamped padded_full_args
  = Ok (Output padded_full_output, padded_full_args).
Proof. vm_compute. reflexivity. Defined.

Lemma padded_full_fresh : fresh_path padded_full_args.
Proof. by split. Defined.

Lemma kept_spans_are_not_negative_witness :
  spans padded_full_args = [[(0, 0); (-1, -1); (-1, -1)]] ∧
  padded_full_output !! "top_spans"
  = Some (VSpans [[(0, 0); (0, 0); (0, 0)]]) ∧
  ∃ ts, padded_full_output !! "top_spans" = Some (VSpans ts) ∧
        Forall (Forall (λ s : Z * Z, 0 ≤ s.1 ∧ 0 ≤ s.2)) ts.
Proof.
  split; [reflexivity|]. split; [reflexivity|].
  exact (kept_spans_are_not_negative demo_unclamped padded_full_args
           (Output padded_full_output) padded_full_args padded_full_output
           padded_full_fresh padded_full_run eq_refl).
Defined.

Lemma demo_state_scores_entry :
  demo_state_output_dict !! "coreference_scores"
  = Some (VF3 demo_state_scores).
Proof. vm_compute. reflexivity. Defined.

Lemma returned_scores_have_window_shape_witness :
  ∃ p scores raw,
    prune_stage demo demo_state_args = Ok (inr p) ∧
    VF3 demo_state_scores = VF3 scores ∧
    unmasked_scores_of demo p = Ok raw ∧
    let K := p_num_spans_to_keep p in
    let W := Z.min (_max_antecedents demo) K in
    ∀ b sb, scores !! b = Some sb →
      length sb = Z.to_nat K ∧
      ∀ i row, sb !! i = Some row →
        ∃ rb rrow,
          raw !! b = Some rb ∧ rb !! i = Some rrow ∧
          length row = S (Z.to_nat W) ∧ length rrow = Z.to_nat W ∧
          row !! 0%nat = Some fzero ∧
          ∀ j y, rrow !! j = Some y →
            row !! S j
            = Some (fadd y (flog (of_bool (bool_decide (j < i)%nat)))) ∧
            ((i ≤ j)%nat → maskable y → row !! S j = Some (flog fzero)).
Proof.
  exact (returned_scores_have_window_shape demo demo_state_args
           (CorefScores demo_state) demo_state_args demo_state_output_dict
           (VF3 demo_state_scores) eq_refl demo_state_run
           demo_state_output_dict_eq demo_state_scores_entry).
Defined.

Lemma loss_gold_follows_the_window_witness :
  ∃ p s kept gold l,
    prune_stage demo demo_args = Ok (inr p) ∧
    score_stage demo demo_args p = Ok (inr s) ∧
    batched_index_select [[1; -1; 1]] (p_top_span_indices p)
                         (p_flat_top_span_indices p) = Ok kept ∧
    negative_marginal_log_likelihood_of (s_coreference_scores s)
      (s_top_span_mask s) gold = Ok l ∧
    demo_output !! "loss" = Some (VScalar l) ∧
    Forall2 (λ kb gb, length kb = length gb) kept gold ∧
    ∀ b kb gb i t row,
      kept !! b = Some kb → gold !! b = Some gb →
      kb !! i = Some t → gb !! i = Some row →
      ∃ pw, row = fprod (map (λ x, fsub fone x) pw) :: pw ∧
            length pw = Z.to_nat (Z.min (_max_antecedents demo)
                                        (p_num_spans_to_keep p)) ∧
            ∀ j x, pw !! j = Some x → x = window_gold kb i j t.
Proof.
  exact (loss_gold_follows_the_window demo demo_args demo_output demo_args
           [[1; -1; 1]] eq_refl eq_refl demo_labels_range demo_run).
Defined.

Lemma demo_pruned_span_indices :
  pruning_state_of demo_pruning !! "span_indices" = Some (VL2 [[0; 1; 2]]).
Proof. vm_compute. reflexivity. Defined.

Lemma demo_same_shape : same_shape [[0; 1; 2]] [[2; 2; 2]].
Proof. repeat constructor. Defined.

Lemma span_indices_give_only_the_shape_witness :
  fst <$> forward demo
            (with_top_spans_info demo_pruned_args
               (<["span_indices" := VL2 [[2; 2; 2]]]>
                  (pruning_state_of demo_pruning)))
  = fst <$> forward demo demo_pruned_args.
Proof.
  exact (span_indices_give_only_the_shape demo demo_pruned_args
           (pruning_state_of demo_pruning) [[0; 1; 2]] [[2; 2; 2]]
           eq_refl eq_refl demo_pruned_span_indices demo_same_shape
           eq_refl eq_refl).
Defined.
